(** * smokelite.allocators.vertical: vertical allocation of gridded fields

    A shallow embedding of [src/smokelite/allocators/vertical.py]
    ([add_pressure], [interp_va], [dfmake3d], [make3d], [Vertical.__init__],
    [Vertical.allocate]) together with the parts of NumPy, pandas and
    PseudoNetCDF the module calls, and the properties of the vertical
    allocation pipeline proved about it.

    The numeric code is written once over an arithmetic interface, the way
    the NumPy code is generic in the dtype of its arrays.  Two instances are
    given: IEEE binary64 (Rocq's primitive floats, NumPy's [float64]) to run
    the code on concrete inputs, and the rationals extended with NaN and the
    two infinities, where finite arithmetic is exact and the special values
    follow IEEE 754; algebraic laws are proved on the second one. *)

From Stdlib Require Import ZArith QArith Qcanon Floats Lia.
From stdpp Require Import base option list gmap sets strings.

Local Open Scope string_scope.
Local Open Scope list_scope.

(** ** The arithmetic interface *)

Class Arith (num : Type) := {
  nzero : num;
  none : num;
  nnan : num;
  nadd : num -> num -> num;
  nsub : num -> num -> num;
  nmul : num -> num -> num;
  ndiv : num -> num -> num;
  (** [a < b], [a <= b], [a == b]; [a > b] is [nlt b a], [a >= b] is [nle b a] *)
  nlt : num -> num -> bool;
  nle : num -> num -> bool;
  neq : num -> num -> bool;
  nisnan : num -> bool;
  (** the 32-bit float type and the cast [astype('f')] *)
  single : Type;
  to_single : num -> single
}.

(** The laws of [<] every IEEE-like arithmetic has (NaN compares false). *)
Class ArithOrder (num : Type) `{Arith num} : Prop := {
  nlt_asym : forall a b, nlt a b = true -> nlt b a = false;
  nlt_trans : forall a b c, nlt a b = true -> nlt b c = true -> nlt a c = true;
  nlt_not_nan : forall a b, nlt a b = true -> nisnan a = false
}.

(** ** Exact arithmetic: rationals with NaN and infinities *)

Inductive xq : Type :=
| Fin (q : Qc)
| PInf
| NInf
| NaN.

Definition Qcltb (a b : Qc) : bool :=
  match (a ?= b)%Qc with Lt => true | _ => false end.
Definition Qcleb (a b : Qc) : bool :=
  match (a ?= b)%Qc with Gt => false | _ => true end.
Definition Qceqb (a b : Qc) : bool :=
  match (a ?= b)%Qc with Eq => true | _ => false end.

Definition xq_add (a b : xq) : xq :=
  match a, b with
  | NaN, _ | _, NaN => NaN
  | PInf, NInf | NInf, PInf => NaN
  | PInf, _ | _, PInf => PInf
  | NInf, _ | _, NInf => NInf
  | Fin p, Fin q => Fin (p + q)
  end.

Definition xq_opp (a : xq) : xq :=
  match a with
  | Fin p => Fin (- p)
  | PInf => NInf
  | NInf => PInf
  | NaN => NaN
  end.

Definition xq_sub (a b : xq) : xq := xq_add a (xq_opp b).

(** the sign of a finite value (zero counts as positive: no signed zeros) *)
Definition xq_inf (negative : bool) : xq := if negative then NInf else PInf.

Definition xq_mul (a b : xq) : xq :=
  match a, b with
  | NaN, _ | _, NaN => NaN
  | Fin p, Fin q => Fin (p * q)
  | Fin p, PInf | PInf, Fin p =>
      if Qceqb p 0 then NaN else xq_inf (Qcltb p 0)
  | Fin p, NInf | NInf, Fin p =>
      if Qceqb p 0 then NaN else xq_inf (negb (Qcltb p 0))
  | PInf, PInf | NInf, NInf => PInf
  | PInf, NInf | NInf, PInf => NInf
  end.

Definition xq_div (a b : xq) : xq :=
  match a, b with
  | NaN, _ | _, NaN => NaN
  | Fin p, Fin q =>
      if Qceqb q 0 then
        (if Qceqb p 0 then NaN else xq_inf (Qcltb p 0))
      else Fin (p / q)
  | Fin _, (PInf | NInf) => Fin 0
  | PInf, Fin q => xq_inf (Qcltb q 0)
  | NInf, Fin q => xq_inf (negb (Qcltb q 0))
  | (PInf | NInf), (PInf | NInf) => NaN
  end.

Definition xq_lt (a b : xq) : bool :=
  match a, b with
  | NaN, _ | _, NaN => false
  | Fin p, Fin q => Qcltb p q
  | NInf, (Fin _ | PInf) => true
  | Fin _, PInf => true
  | _, _ => false
  end.

Definition xq_eq (a b : xq) : bool :=
  match a, b with
  | Fin p, Fin q => Qceqb p q
  | PInf, PInf | NInf, NInf => true
  | _, _ => false
  end.

Definition xq_le (a b : xq) : bool := xq_lt a b || xq_eq a b.

Definition xq_isnan (a : xq) : bool :=
  match a with NaN => true | _ => false end.

#[export] Instance xq_arith : Arith xq := {|
  nzero := Fin 0;
  none := Fin 1;
  nnan := NaN;
  nadd := xq_add;
  nsub := xq_sub;
  nmul := xq_mul;
  ndiv := xq_div;
  nlt := xq_lt;
  nle := xq_le;
  neq := xq_eq;
  nisnan := xq_isnan;
  single := xq;
  to_single := fun a => a
|}.

(** ** IEEE binary64, as NumPy's float64 *)

(** [astype('f')]: a binary64 value rounded to binary32 (round to nearest
    even), kept as the specification float it denotes. *)
Definition f64_to_f32 (x : float) : spec_float :=
  match Prim2SF x with
  | S754_finite s m e => binary_normalize 24 128 (cond_Zopp s (Zpos m)) e s
  | other => other
  end.

#[export] Instance f64_arith : Arith float := {|
  nzero := 0%float;
  none := 1%float;
  nnan := PrimFloat.nan;
  nadd := PrimFloat.add;
  nsub := PrimFloat.sub;
  nmul := PrimFloat.mul;
  ndiv := PrimFloat.div;
  nlt := PrimFloat.ltb;
  nle := PrimFloat.leb;
  neq := PrimFloat.eqb;
  nisnan := PrimFloat.is_nan;
  single := spec_float;
  to_single := f64_to_f32
|}.

(** ** Python exceptions and results *)

Inductive exn : Type :=
| ValueError (msg : string)
| KeyError (key : string)
| IndexError
| AttributeError (name : string)
| TypeError (msg : string).

Inductive result (A : Type) : Type :=
| Ok (a : A)
| Raise (e : exn).
Arguments Ok {A} a.
Arguments Raise {A} e.

Definition rbind {A B} (r : result A) (k : A -> result B) : result B :=
  match r with
  | Ok a => k a
  | Raise e => Raise e
  end.

Notation "x <- r ;; k" := (rbind r (fun x => k))
  (at level 100, r at next level, right associativity, only parsing).

(** ** Ordered dictionaries and data frames *)

(** [d[k] = v] on an insertion-ordered dictionary: an existing key keeps its
    position, a new key goes last. *)
Fixpoint odict_set {V} (k : string) (v : V) (d : list (string * V))
  : list (string * V) :=
  match d with
  | [] => [(k, v)]
  | (k', v') :: d' =>
      if String.eqb k k' then (k, v) :: d' else (k', v') :: odict_set k v d'
  end.

Fixpoint odict_get {V} (k : string) (d : list (string * V)) : option V :=
  match d with
  | [] => None
  | (k', v) :: d' => if String.eqb k k' then Some v else odict_get k d'
  end.

Definition odict_keys {V} (d : list (string * V)) : list string := d.*1.

Definition in_keys (k : string) (ks : list string) : bool :=
  existsb (String.eqb k) ks.

Section Numeric.
Context {num : Type} `{Arith num}.

(** A pandas DataFrame: the row labels ([index]) and the named columns in
    order. Every column has one value per row. *)
Record DataFrame := {
  index : list nat;
  columns : list (string * list num)
}.

Definition nrows (df : DataFrame) : nat := length (index df).

(** ** NumPy *)

(** [a.sum()]: 0 for an empty array, else the elements added left to right
    starting from the first one. *)
Definition nsum (a : list num) : num :=
  match a with
  | [] => nzero
  | a0 :: rest => foldl nadd a0 rest
  end.

(** The index search of [np.interp] ([binary_search_with_guess]). *)
Inductive bracket : Type :=
| Below          (* -1 *)
| Above          (* len *)
| At (j : nat).

Fixpoint scan (key : num) (arr : list num) : nat :=
  match arr with
  | a :: arr' => if nle a key then S (scan key arr') else 0
  | [] => 0
  end.

(** [arr] is not empty. Keys outside the range are settled first, the upper
    end before the lower one; inside, the search returns the index [j] with
    [arr[j] <= key < arr[j+1]], found here by the linear scan
    [for (i = 1; i < len && key >= arr[i]; ++i); return i - 1], which is the
    code's own for [len <= 4] and agrees with its bisection on increasing
    arrays. *)
Definition binary_search (key : num) (arr : list num) : bracket :=
  if nlt (List.last arr nnan) key then Above
  else if nlt key (List.hd nnan arr) then Below
  else At (scan key (List.tl arr)).

Definition at_ (a : list num) (j : nat) : num := List.nth j a nnan.

(** One target point of [np.interp(x, xp, fp, left=lval, right=rval)]. *)
Definition interp_point (xp fp : list num) (lval rval : num) (x : num) : num :=
  match xp with
  | [xp0] =>
      if nlt x xp0 then lval else if nlt xp0 x then rval else at_ fp 0
  | _ =>
      if nisnan x then x
      else
        match binary_search x xp with
        | Below => lval
        | Above => rval
        | At j =>
            if Nat.eqb j (length xp - 1) then at_ fp j
            else if neq (at_ xp j) x then at_ fp j
            else
              let slope :=
                ndiv (nsub (at_ fp (S j)) (at_ fp j))
                     (nsub (at_ xp (S j)) (at_ xp j)) in
              let r := nadd (nmul slope (nsub x (at_ xp j))) (at_ fp j) in
              if nisnan r then
                let r' :=
                  nadd (nmul slope (nsub x (at_ xp (S j)))) (at_ fp (S j)) in
                if nisnan r' && neq (at_ fp j) (at_ fp (S j)) then at_ fp j
                else r'
              else r
        end
  end.

(** [np.interp(x, xp, fp, left=lval)]; [right] defaults to [fp[-1]]. *)
Definition np_interp (x xp fp : list num) (lval : num) : result (list num) :=
  if Nat.eqb (length xp) 0 then
    Raise (ValueError "array of sample points is empty")
  else if negb (Nat.eqb (length fp) (length xp)) then
    Raise (ValueError "fp and xp are not of the same length.")
  else Ok (map (interp_point xp fp lval (List.last fp nnan)) x).

(** ** add_pressure *)

(** [outdf.loc[:, pressurekey] = outdf.loc[:, sigmakey] * (psfc - ptop) + ptop].
    The frame is returned; with [inplace] it is the caller's frame that is
    changed, without it a copy. *)
Definition add_pressure (va_df : DataFrame) (ptop psfc : num)
    (sigmakey pressurekey : string) : result DataFrame :=
  match odict_get sigmakey (columns va_df) with
  | None => Raise (KeyError sigmakey)
  | Some sigma =>
      let p := map (fun s => nadd (nmul s (nsub psfc ptop)) ptop) sigma in
      Ok {| index := index va_df;
            columns := odict_set pressurekey p (columns va_df) |}
  end.

(** ** interp_va *)

Definition default_metakeys : list string := ["Sigma"; "Alt"; "L"].

(** [(va_df.Pressure.values - vgtop) / (psfc - vgtop)] *)
Definition normalize (vgtop psfc : num) (pressure : list num) : list num :=
  map (fun p => ndiv (nsub p vgtop) (nsub psfc vgtop)) pressure.

(** [xp[-1] < xp[0]] *)
Definition inverted (xp : list num) : bool :=
  nlt (List.last xp nnan) (List.hd nnan xp).

Definition orient (invert : bool) (a : list num) : list num :=
  if invert then rev a else a.

(** [out[key] /= out[key].sum()] *)
Definition renormalize (a : list num) : list num :=
  let s := nsum a in map (fun v => ndiv v s) a.

(** The body of the loop over the columns, for one column. *)
Definition interp_column (x xp : list num) (invert : bool)
    (metakeys : list string) (key : string) (fp : list num)
  : result (list num) :=
  v <- np_interp x xp (orient invert fp) nzero ;;
  Ok (if in_keys key metakeys then v else renormalize v).

Fixpoint interp_columns (x xp : list num) (invert : bool)
    (metakeys : list string) (cols : list (string * list num))
    (out : list (string * list num)) : result (list (string * list num)) :=
  match cols with
  | [] => Ok out
  | (key, fp) :: cols' =>
      v <- interp_column x xp invert metakeys key fp ;;
      interp_columns x xp invert metakeys cols' (odict_set key v out)
  end.

Definition interp_va (va_df : DataFrame) (vglvls : list num)
    (vgtop psfc : num) (metakeys : option (list string)) : result DataFrame :=
  let x := List.tl vglvls in
  let metakeys := default default_metakeys metakeys in
  match odict_get "Pressure" (columns va_df) with
  | None => Raise (AttributeError "Pressure")
  | Some pressure =>
      let xp := normalize vgtop psfc pressure in
      match xp with
      | [] => Raise IndexError
      | _ =>
          let invert := inverted xp in
          let xp := orient invert xp in
          out <- interp_columns x xp invert metakeys (columns va_df) [] ;;
          Ok {| index := seq 0 (length x);
                columns := odict_set "Sigma" x out |}
      end
  end.

End Numeric.

Arguments DataFrame num : clear implicits.

(** ** The store of array objects *)

(** NumPy arrays are objects that several files may share and that [*=]
    changes in place, so they live in a store; a file's variables refer to
    them. *)
Definition loc := positive.


Section Fields.
Context {num : Type} `{Arith num}.

(** A horizontal plane, ROW x COL. *)
Local Abbreviation plane := (list (list num)).

(** The arrays of a file with IOAPI structure: the gridded variables, of
    dimensions (TSTEP, LAY, ROW, COL), and the time stamp, an integer array of
    dimensions (TSTEP, VAR, DATE-TIME). *)
Inductive ndarray : Type :=
| Float4 (a : list (list plane))
| Int3 (a : list (list (list Z))).

Definition dimensions (a : ndarray) : list string :=
  match a with
  | Float4 _ => ["TSTEP"; "LAY"; "ROW"; "COL"]
  | Int3 _ => ["TSTEP"; "VAR"; "DATE-TIME"]
  end.

Local Abbreviation heap := (gmap loc ndarray).

(** A PseudoNetCDF file: its variables in order, each a reference to its
    array, and the two attributes of the vertical grid. *)
Record File := {
  variables : list (string * loc);
  VGLVLS : option (list single);
  NLAYS : option nat
}.

(** Computations on the store that may raise. An exception leaves the store
    as it is at that point. *)
Definition M (A : Type) : Type := heap -> result A * heap.

Definition mret {A} (a : A) : M A := fun h => (Ok a, h).
Definition mraise {A} (e : exn) : M A := fun h => (Raise e, h).
Definition mbind {A B} (m : M A) (k : A -> M B) : M B :=
  fun h =>
    match m h with
    | (Ok a, h') => k a h'
    | (Raise e, h') => (Raise e, h')
    end.
Definition lift {A} (r : result A) : M A := fun h => (r, h).

Notation "x <~ m ;; k" := (mbind m (fun x => k))
  (at level 100, m at next level, right associativity, only parsing).

(** A new array object. *)
Definition alloc (a : ndarray) : M loc :=
  fun h => let l := fresh (dom h) in (Ok l, <[l := a]> h).

(** A variable of an open file always has its array; the exception marks a
    reference that has none. *)
Definition load (l : loc) : M ndarray :=
  fun h =>
    match h !! l with
    | Some a => (Ok a, h)
    | None => (Raise (KeyError "<no array>"), h)
    end.

Definition store (l : loc) (a : ndarray) : M unit :=
  fun h => (Ok tt, <[l := a]> h).

Fixpoint mapR {A B} (f : A -> result B) (l : list A) : result (list B) :=
  match l with
  | [] => Ok []
  | a :: l' => b <- f a ;; bs <- mapR f l' ;; Ok (b :: bs)
  end.

(** ** PseudoNetCDF: [slice(LAY=[0]*nz)] *)

(** [a[[0]*nz]] along one axis: indexing with a list copies. [slice] raises
    IndexError for an empty list of indices, and index 0 is out of bounds on
    an axis without entries. *)
Definition rep_first {A} (nz : nat) (l : list A) : result (list A) :=
  match nz, l with
  | 0, _ => Raise IndexError
  | _, [] => Raise IndexError
  | _, a :: _ => Ok (replicate nz a)
  end.

Definition slice_array (nz : nat) (a : ndarray) : result ndarray :=
  match a with
  | Float4 d => d' <- mapR (rep_first nz) d ;; Ok (Float4 d')
  | Int3 d => Ok (Int3 d)
  end.

Fixpoint slice_vars (nz : nat) (vars : list (string * loc))
  : M (list (string * loc)) :=
  match vars with
  | [] => mret []
  | (key, l) :: vars' =>
      a <~ load l ;;
      a' <~ lift (slice_array nz a) ;;
      l' <~ alloc a' ;;
      rest <~ slice_vars nz vars' ;;
      mret ((key, l') :: rest)
  end.

(** The new file has its own arrays and the attributes of the old one. *)
Definition slice (nz : nat) (f : File) : M File :=
  vars <~ slice_vars nz (variables f) ;;
  mret {| variables := vars; VGLVLS := VGLVLS f; NLAYS := NLAYS f |}.

(** ** make3d *)

Definition scale_plane (f : num) (p : plane) : plane :=
  map (map (fun v => nmul v f)) p.

(** One time step of [var[:] *= layerfractions[None, :, None, None]]: the
    fractions broadcast along ROW and COL, and along LAY when there is one
    fraction only; any other shape cannot be broadcast into [var]. *)
Definition scale_layers (lf : list num) (layers : list plane)
  : result (list plane) :=
  if Nat.eqb (length layers) (length lf) then Ok (zip_with scale_plane lf layers)
  else if Nat.eqb (length lf) 1 then Ok (map (scale_plane (at_ lf 0)) layers)
  else Raise (ValueError "operands could not be broadcast together").

Definition imul_layers (lf : list num) (a : ndarray) : result ndarray :=
  match a with
  | Float4 d => d' <- mapR (scale_layers lf) d ;; Ok (Float4 d')
  | Int3 _ => Raise (ValueError "non-broadcastable output operand")
  end.

(** [for key, var in outfile.variables.items(): ...] *)
Fixpoint scale_vars (lf : list num) (vars : list (string * loc)) : M unit :=
  match vars with
  | [] => mret tt
  | (key, l) :: vars' =>
      _ <~ (if String.eqb key "TFLAG" then mret tt
            else a <~ load l ;;
                 a' <~ lift (imul_layers lf a) ;;
                 store l a') ;;
      scale_vars lf vars'
  end.

Definition make3d (infile : File) (layerfractions vglvls : list num) : M File :=
  let nz := length layerfractions in
  outfile <~ slice nz infile ;;
  _ <~ scale_vars layerfractions (variables outfile) ;;
  mret {| variables := variables outfile;
          VGLVLS := Some (map to_single vglvls);
          NLAYS := Some nz |}.

(** ** dfmake3d, kept in memory ([outpath=None]) *)

Definition dfmake3d (infile : File) (va_df : DataFrame num)
    (frackey sigmakey : string) : M File :=
  match odict_get sigmakey (columns va_df) with
  | None => mraise (KeyError sigmakey)
  | Some sigma =>
      let vglvls := none :: sigma in
      match odict_get frackey (columns va_df) with
      | None => mraise (KeyError frackey)
      | Some frac => make3d infile frac vglvls
      end
  end.

End Fields.

Abbreviation plane num := (list (list num)).
Arguments ndarray num : clear implicits.
Abbreviation heap num := (gmap loc (ndarray num)).
Arguments M num A : clear implicits.
Arguments File num {_}.

Notation "x <~ m ;; k" := (mbind m (fun x => k))
  (at level 100, m at next level, right associativity, only parsing).

(** ** class Vertical *)

Section VerticalClass.
Context {num : Type} `{Arith num}.

Record Vertical := {
  pressurekey : string;
  sigmakey : string;
  outvglvls : list num;
  outvgtop : num;
  psfc : num;
  indf : DataFrame num;
  metakeys : list string;
  outdf : DataFrame num
}.

(** *** pandas *)

(** The frame with the column [key] holding [v] in every row. *)
Definition set_column (key : string) (v : num) (df : DataFrame num)
  : DataFrame num :=
  {| index := index df;
     columns := odict_set key (replicate (nrows df) v) (columns df) |}.

(** [df.loc[:, key] = v] with a scalar [v]: pandas refuses the assignment on
    a frame without rows. *)
Definition loc_set_column (key : string) (v : num) (df : DataFrame num)
  : result (DataFrame num) :=
  if Nat.eqb (nrows df) 0 then
    Raise (ValueError "cannot set a frame with no defined index and a scalar")
  else Ok (set_column key v df).

Fixpoint label_pos (label : nat) (idx : list nat) : option nat :=
  match idx with
  | [] => None
  | i :: idx' => if Nat.eqb i label then Some 0 else S <$> label_pos label idx'
  end.

(** [df.loc[label, key] = v] for an existing column [key]: the cell of the
    row with that label is set; when no row has the label, a row is added
    that holds [v] there and NaN in the other columns. *)
Definition loc_set_cell (label : nat) (key : string) (v : num)
    (df : DataFrame num) : DataFrame num :=
  match label_pos label (index df) with
  | Some i =>
      {| index := index df;
         columns :=
           map (fun c : string * list num =>
                  if String.eqb c.1 key then (c.1, <[i := v]> c.2) else c)
               (columns df) |}
  | None =>
      {| index := index df ++ [label];
         columns :=
           map (fun c : string * list num =>
                  (c.1, c.2 ++ [if String.eqb c.1 key then v else nnan]))
               (columns df) |}
  end.

(** [df.drop(keys, axis=1)]: every key has to be a column. *)
Definition drop_columns (keys : list string) (df : DataFrame num)
  : result (DataFrame num) :=
  match List.find (fun k => negb (in_keys k (odict_keys (columns df)))) keys with
  | Some k => Raise (KeyError k)
  | None =>
      Ok {| index := index df;
            columns :=
              List.filter (fun c : string * list num => negb (in_keys c.1 keys))
                          (columns df) |}
  end.

(** Row [i] of [df.values]. *)
Definition row_values (df : DataFrame num) (i : nat) : list num :=
  map (fun c : string * list num => at_ c.2 i) (columns df).

(** [df.values.sum(1) > 0] *)
Definition row_sums_positive (df : DataFrame num) : list bool :=
  map (fun i => nlt nzero (nsum (row_values df i))) (seq 0 (nrows df)).

(** [a[mask]] *)
Fixpoint mask_select {A} (mask : list bool) (a : list A) : list A :=
  match mask, a with
  | b :: mask', v :: a' =>
      if b then v :: mask_select mask' a' else mask_select mask' a'
  | _, _ => []
  end.

(** [df.loc[mask]]: the rows keep their labels. *)
Definition loc_mask (mask : list bool) (df : DataFrame num) : DataFrame num :=
  {| index := mask_select mask (index df);
     columns :=
       map (fun c : string * list num => (c.1, mask_select mask c.2))
           (columns df) |}.

(** *** Vertical.__init__

    [csv] is the frame [pd.read_csv(csvpath, **read_kwds)] returned. *)

(** The mask of the layers that are kept. *)
Definition layerused (prune : bool) (metakeys : list string)
    (outdf : DataFrame num) : result (list bool) :=
  dropped <- drop_columns metakeys outdf ;;
  let used := row_sums_positive dropped in
  match used with
  | [] => Raise IndexError
  | _ :: used' =>
      let used := true :: used' in
      Ok (if negb prune then map (fun _ => true) used else used)
  end.

Definition Vertical_init (csv : DataFrame num) (outvglvls : list num)
    (outvgtop : num) (pressurekey sigmakey : string) (csvvgtop : num)
    (metakeys : option (list string)) (psfc : num) (prune : bool)
  : result Vertical :=
  let metakeys := default [sigmakey; pressurekey; "Alt"; "L"] metakeys in
  indf <- (if negb (in_keys pressurekey (odict_keys (columns csv))) then
             add_pressure csv csvvgtop psfc sigmakey pressurekey
           else Ok csv) ;;
  outdf <- interp_va indf (List.tl outvglvls) outvgtop psfc (Some metakeys) ;;
  outdf <- loc_set_column "LAYER1" nzero outdf ;;
  let outdf := loc_set_cell 0 "LAYER1" none outdf in
  used <- layerused prune metakeys outdf ;;
  Ok {| pressurekey := pressurekey;
        sigmakey := sigmakey;
        outvglvls := outvglvls;
        outvgtop := outvgtop;
        psfc := psfc;
        indf := indf;
        metakeys := metakeys;
        outdf := loc_mask used outdf |}.

(** *** Vertical.allocate *)

(** The [alloc_keys] argument: one sector name, or a dictionary from sector
    names to lists of variable names or [None]. *)
Definition alloc_dict : Type := list (string * option (list string)).

Inductive alloc_arg : Type :=
| SectorName (s : string)
| SectorMap (d : alloc_dict).

(** [repr] of a list of strings, as the f-string prints it. *)
Definition repr_list (l : list string) : string :=
  String.append "["
    (String.append
       (String.concat ", "
          (map (fun s => String.append "'" (String.append s "'")) l))
       "]").

(** The variables that carry the LAY dimension. *)
Fixpoint lay_keys (vars : list (string * loc)) : M num (list string) :=
  match vars with
  | [] => mret []
  | (k, l) :: vars' =>
      v <~ load l ;;
      rest <~ lay_keys vars' ;;
      mret (if in_keys "LAY" (dimensions v) then k :: rest else rest)
  end.

(** The first loop over [alloc_keys.items()]. *)
Fixpoint scan_sectors (d : alloc_dict) (assigned_keys isnone : list string)
  : list string * list string :=
  match d with
  | [] => (assigned_keys, isnone)
  | (sector, None) :: d' => scan_sectors d' assigned_keys (isnone ++ [sector])
  | (sector, Some varkeys) :: d' =>
      scan_sectors d' (assigned_keys ++ varkeys) isnone
  end.

(** [list(set(all_keys).difference(assigned_keys))] *)
Definition set_difference (all_keys assigned_keys : list string) : list string :=
  elements ((list_to_set all_keys : gset string) ∖ list_to_set assigned_keys).

(** Lines 281 to 294: the sectors with [None] are found, more than one is an
    error, and a single one is given the variables no sector lists. *)
Definition resolve_default (all_keys : list string) (d : alloc_dict)
  : result alloc_dict :=
  let '(assigned_keys, isnone) := scan_sectors d [] [] in
  let unassigned_keys := set_difference all_keys assigned_keys in
  if Nat.ltb 1 (length isnone) then
    Raise (ValueError (String.append "Can only have 1 None sector; got "
                                     (repr_list isnone)))
  else if Nat.eqb (length isnone) 1 then
    Ok (odict_set (List.hd "" isnone) (Some unassigned_keys) d)
  else Ok d.

Section Allocate.
(** The two PseudoNetCDF calls of [allocate]: [infile.subset(varkeys)] and
    [first.stack(others, stackdim='TSTEP')]. *)
Variable subset : File num -> option (list string) -> M num (File num).
Variable stack : File num -> list (File num) -> M num (File num).

(** The second loop over [alloc_keys.items()]. *)
Fixpoint allocate_sectors (self : Vertical) (infile : File num)
    (d : alloc_dict) : M num (list (File num)) :=
  match d with
  | [] => mret []
  | (sector, varkeys) :: d' =>
      match odict_get sector (columns (outdf self)) with
      | None => mraise (KeyError sector)
      | Some layerfractions =>
          sub <~ subset infile varkeys ;;
          sectorfile <~ make3d sub layerfractions (outvglvls self) ;;
          rest <~ allocate_sectors self infile d' ;;
          mret (sectorfile :: rest)
      end
  end.

(** [sectorfiles[0].stack(sectorfiles[1:], stackdim='TSTEP')] *)
Definition stack_sectors (sectorfiles : list (File num)) : M num (File num) :=
  match sectorfiles with
  | [] => mraise IndexError
  | first :: others => stack first others
  end.

(** [allocate(infile, alloc_keys)] with [infile] an open file and
    [outpath=None]. The result comes with the store and with the caller's
    [alloc_keys] object as the call leaves them: a string stays as it is, a
    dictionary is updated in place. *)
Definition allocate (self : Vertical) (infile : File num)
    (alloc_keys : alloc_arg)
  : heap num -> result (File num) * heap num * alloc_arg :=
  fun h =>
    let d :=
      match alloc_keys with
      | SectorName s => [(s, None)]
      | SectorMap d => d
      end in
    match lay_keys (variables infile) h with
    | (Raise e, h) => (Raise e, h, alloc_keys)
    | (Ok all_keys, h) =>
        match resolve_default all_keys d with
        | Raise e => (Raise e, h, alloc_keys)
        | Ok d =>
            let alloc_keys :=
              match alloc_keys with
              | SectorName s => SectorName s
              | SectorMap _ => SectorMap d
              end in
            let '(r, h) :=
              (sectorfiles <~ allocate_sectors self infile d ;;
               stack_sectors sectorfiles) h in
            (r, h, alloc_keys)
        end
    end.

End Allocate.
End VerticalClass.

Arguments Vertical num : clear implicits.

(** ** PseudoNetCDF: subset and stack

    A model of the two calls after their contract, to run [allocate] on
    concrete inputs: [subset] keeps the named variables and the time stamp and
    shares their arrays with the file it is taken from; [stack] concatenates,
    variable by variable, the arrays of the files along TSTEP into new arrays
    and keeps the attributes of the first file; every file has to have the
    variables of the first. *)

Section PseudoNetCDF.
Context {num : Type} `{Arith num}.

Definition pnc_subset (f : File num) (varkeys : option (list string))
  : M num (File num) :=
  match varkeys with
  | None => mraise (TypeError "'NoneType' object is not iterable")
  | Some ks =>
      match List.find (fun k => negb (in_keys k (odict_keys (variables f)))) ks with
      | Some k => mraise (KeyError k)
      | None =>
          mret {| variables :=
                    List.filter
                      (fun v : string * loc =>
                         in_keys v.1 ks || String.eqb v.1 "TFLAG")
                      (variables f);
                  VGLVLS := VGLVLS f;
                  NLAYS := NLAYS f |}
      end
  end.

Definition concat_tstep (a b : ndarray num) : result (ndarray num) :=
  match a, b with
  | Float4 x, Float4 y => Ok (Float4 (x ++ y))
  | Int3 x, Int3 y => Ok (Int3 (x ++ y))
  | _, _ => Raise (ValueError "arrays of different dimensions")
  end.

Fixpoint pnc_stack_var (key : string) (acc : ndarray num)
    (others : list (File num)) : M num (ndarray num) :=
  match others with
  | [] => mret acc
  | f :: others' =>
      match odict_get key (variables f) with
      | None => mraise (KeyError key)
      | Some l =>
          b <~ load l ;;
          c <~ lift (concat_tstep acc b) ;;
          pnc_stack_var key c others'
      end
  end.

Fixpoint pnc_stack_vars (vars : list (string * loc))
    (others : list (File num)) : M num (list (string * loc)) :=
  match vars with
  | [] => mret []
  | (key, l) :: vars' =>
      a <~ load l ;;
      c <~ pnc_stack_var key a others ;;
      l' <~ alloc c ;;
      rest <~ pnc_stack_vars vars' others ;;
      mret ((key, l') :: rest)
  end.

Definition pnc_stack (first : File num) (others : list (File num))
  : M num (File num) :=
  vars <~ pnc_stack_vars (variables first) others ;;
  mret {| variables := vars; VGLVLS := VGLVLS first; NLAYS := NLAYS first |}.

End PseudoNetCDF.

(** * Specification vocabulary *)

Section Vocabulary.
Context {num : Type} `{Arith num}.

(** The interpolated values of a column [fp] of a table with pressure column
    [pressure], before renormalization: the [np.interp] call of [interp_va]. *)
Definition interpolated (vglvls : list num) (vgtop psfc : num)
    (pressure fp : list num) : result (list num) :=
  let xp := normalize vgtop psfc pressure in
  np_interp (List.tl vglvls) (orient (inverted xp) xp)
            (orient (inverted xp) fp) nzero.

(** The same values as a total function, and the column of the returned
    table they end in. *)
Definition interp_values (vglvls : list num) (vgtop psfc : num)
    (pressure fp : list num) : list num :=
  let xp := normalize vgtop psfc pressure in
  let fp := orient (inverted xp) fp in
  map (interp_point (orient (inverted xp) xp) fp nzero (List.last fp nnan))
      (List.tl vglvls).

Definition out_column (metakeys : list string) (vglvls : list num)
    (vgtop psfc : num) (pressure : list num) (c : string * list num)
  : string * list num :=
  let v := interp_values vglvls vgtop psfc pressure c.2 in
  (c.1, if in_keys c.1 metakeys then v else renormalize v).

(** A table [interp_va] accepts: it has a pressure column with at least one
    row, its column names differ, and its columns have one value per row. *)
Definition wf_table (df : DataFrame num) (pressure : list num) : Prop :=
  odict_get "Pressure" (columns df) = Some pressure
  /\ pressure ≠ []
  /\ NoDup (odict_keys (columns df))
  /\ Forall (fun c : string * list num => length c.2 = length pressure)
            (columns df).

(** The same table with its rows in the opposite order. *)
Definition reverse_rows (df : DataFrame num) : DataFrame num :=
  {| index := index df;
     columns := map (fun c : string * list num => (c.1, rev c.2)) (columns df) |}.

(** Every column has one value per row. *)
Definition rectangular (df : DataFrame num) : Prop :=
  Forall (fun c : string * list num => length c.2 = nrows df) (columns df).

(** The interpolated table with the LAYER1 column, before pruning. *)
Definition candidate_rows (interp : DataFrame num) : DataFrame num :=
  loc_set_cell 0 "LAYER1" none (set_column "LAYER1" nzero interp).


(** The number of layers of a gridded array. *)
Definition layers_of (n : nat) (a : ndarray num) : Prop :=
  match a with
  | Float4 d => Forall (fun layers => length layers = n) d
  | Int3 _ => True
  end.

(** Every variable of the file has its array, with [n] layers. *)
Definition has_layers (h : heap num) (n : nat) (f : File num) : Prop :=
  Forall (fun v : string * loc => exists a, h !! v.2 = Some a /\ layers_of n a)
         (variables f).

(** What [make3d] does to one variable. *)
Definition expand_array (lf : list num) (key : string) (a : ndarray num)
  : result (ndarray num) :=
  a' <- slice_array (length lf) a ;;
  if String.eqb key "TFLAG" then Ok a' else imul_layers lf a'.


(** A file with IOAPI structure in the store: every variable has its array,
    a gridded array has at least one layer at every time step, and the only
    integer array is the time stamp. *)
Definition ioapi_field (h : heap num) (f : File num) : Prop :=
  Forall (fun v : string * loc =>
            exists a, h !! v.2 = Some a
              /\ match a with
                 | Float4 d => Forall (fun layers => layers ≠ []) d
                 | Int3 _ => v.1 = "TFLAG"
                 end) (variables f).

(** [p + q] on planes and [var.sum(axis=1)] at one time step. *)
Definition plane_add (p q : plane num) : plane num :=
  zip_with (zip_with nadd) p q.

Definition sum_lay (layers : list (plane num)) : plane num :=
  match layers with
  | [] => []
  | p :: ps => foldl plane_add p ps
  end.

(** The variables of a file that carry the LAY dimension. *)
Definition eligible (h : heap num) (f : File num) (k : string) : Prop :=
  exists l d, (k, l) ∈ variables f /\ h !! l = Some (Float4 d).

(** The array of a variable of a file a computation returned. *)
Definition array_of (run : result (File num) * heap num) (key : string)
  : option (ndarray num) :=
  match run with
  | (Ok f, h) => l ← odict_get key (variables f); h !! l
  | (Raise _, _) => None
  end.

End Vocabulary.

(** What a computation returned, or raised. *)
Definition is_ok {A} (r : result A) : bool :=
  match r with Ok _ => true | Raise _ => false end.

Definition returned {A} (d : A) (r : result A) : A :=
  match r with Ok a => a | Raise _ => d end.

Definition raised {A} (r : result A) : option exn :=
  match r with Ok _ => None | Raise e => Some e end.

(** The sectors of a dictionary whose value is [None], and the variables some
    sector lists. *)
Definition none_sectors (d : alloc_dict) : list string :=
  (List.filter
     (fun c : string * option (list string) => bool_decide (c.2 = None)) d).*1.

Definition explicitly_assigned (d : alloc_dict) (k : string) : Prop :=
  exists sector varkeys, (sector, Some varkeys) ∈ d /\ k ∈ varkeys.

(** The dictionary [allocate] works on, and its sectors in order. *)
Definition dict_of (alloc_keys : alloc_arg) : alloc_dict :=
  match alloc_keys with
  | SectorName s => [(s, None)]
  | SectorMap d => d
  end.

Definition sectors_of (alloc_keys : alloc_arg) : list string :=
  (dict_of alloc_keys).*1.

(** ** Exact arithmetic *)

Definition Qcsum (qs : list Qc) : Qc := foldr Qcplus 0%Qc qs.

Definition finite (a : xq) : Prop := exists q, a = Fin q.

Definition nonfinite (a : xq) : Prop := a = NaN \/ a = PInf \/ a = NInf.

Definition qplane (p : list (list Qc)) : plane xq := map (map Fin) p.

(** Non-negative finite values, as a test. *)
Definition is_weight (a : xq) : bool :=
  match a with Fin q => Qcleb 0 q | _ => false end.

(** The gridded variables of the input have one layer, and finite values. *)
Definition single_layer (h : heap xq) (f : File xq) : Prop :=
  forall v d, v ∈ variables f -> h !! v.2 = Some (Float4 d) ->
    Forall (fun layers => length layers = 1) d.

Definition finite_data (h : heap xq) (f : File xq) : Prop :=
  forall v d, v ∈ variables f -> h !! v.2 = Some (Float4 d) ->
    Forall (Forall (Forall (Forall finite))) d.

(** An exact value [n/d]. *)
Definition qc (n : Z) (d : positive) : xq := Fin (Q2Qc (n # d)).

(** Exact values without the proof that the fraction is reduced, to compare
    computed values. *)
Inductive xview : Type :=
| VFin (n : Z) (d : positive)
| VPInf
| VNInf
| VNaN.

Definition view (a : xq) : xview :=
  match a with
  | Fin q => VFin (Qnum q) (Qden q)
  | PInf => VPInf
  | NInf => VNInf
  | NaN => VNaN
  end.

Definition view_array (a : option (ndarray xq))
  : list (list (list (list xview))) :=
  match a with
  | Some (Float4 d) => map (map (map (map view))) d
  | _ => []
  end.

(** ** Concrete inputs *)

(** A table on three levels, stored from the surface up (sigma 1, 1/2, 0,
    with the top of the model at pressure 0 and the surface at pressure 1):
    the sector S, the empty sector Z, and a column M of mixed sign. *)
Definition table3 : DataFrame xq :=
  {| index := [0; 1; 2];
     columns :=
       [("Sigma", [qc 1 1; qc 1 2; qc 0 1]);
        ("Pressure", [qc 1 1; qc 1 2; qc 0 1]);
        ("Alt", [qc 0 1; qc 1 1; qc 2 1]);
        ("L", [qc 1 1; qc 2 1; qc 3 1]);
        ("S", [qc 1 4; qc 1 4; qc 1 2]);
        ("Z", [qc 0 1; qc 0 1; qc 0 1]);
        ("M", [qc 0 1; qc 1 1; qc (-1) 1])] |}.

Definition pressure3 : list xq := [qc 1 1; qc 1 2; qc 0 1].

(** Edges 1, 1/2, 0: as the [vglvls] of [interp_va], the target points 1/2
    and 0. *)
Definition edges3 : list xq := [qc 1 1; qc 1 2; qc 0 1].

(** A table with the sectors onroad, all at the surface, and other, all at
    the top, and the edges of a grid given to the constructor. *)
Definition sectors3 : DataFrame xq :=
  {| index := [0; 1; 2];
     columns :=
       [("Sigma", [qc 1 1; qc 1 2; qc 0 1]);
        ("Pressure", [qc 1 1; qc 1 2; qc 0 1]);
        ("Alt", [qc 0 1; qc 1 1; qc 2 1]);
        ("L", [qc 1 1; qc 2 1; qc 3 1]);
        ("onroad", [qc 1 1; qc 0 1; qc 0 1]);
        ("other", [qc 0 1; qc 0 1; qc 1 1])] |}.


Definition edges5 : list xq := [qc 1 1; qc 1 1; qc 3 4; qc 1 2; qc 0 1].

(** A file with the time stamp and two gridded variables on one layer and a
    grid of one row and two columns. *)
Definition store2 : heap xq :=
  <[3%positive := Float4 [[[[qc 4 1; qc 0 1]]]]]>
    (<[2%positive := Float4 [[[[qc 10 1; qc 3 1]]]]]>
       (<[1%positive := Int3 [[[2024001%Z; 0%Z]]]]> ∅)).

Definition field2 : File xq :=
  {| variables := [("TFLAG", 1%positive); ("NOX", 2%positive);
                   ("CO", 3%positive)];
     VGLVLS := None;
     NLAYS := None |}.

Definition onroad_other : alloc_dict :=
  [("onroad", Some ["NOX"]); ("other", None)].

(** The same table and file in binary64. *)
Definition sectors3_f64 : DataFrame float :=
  {| index := [0; 1; 2];
     columns :=
       [("Sigma", [1; 0.5; 0]%float);
        ("Pressure", [1; 0.5; 0]%float);
        ("Alt", [0; 1; 2]%float);
        ("L", [1; 2; 3]%float);
        ("onroad", [1; 0; 0]%float);
        ("other", [0; 0; 1]%float)] |}.

Definition surface3_f64 : DataFrame float :=
  {| index := [0; 1; 2];
     columns :=
       [("Sigma", [1; 0.5; 0]%float);
        ("Alt", [0; 1; 2]%float);
        ("L", [1; 2; 3]%float);
        ("onroad", [1; 0; 0]%float)] |}.

Definition store2_f64 : heap float :=
  <[3%positive := Float4 [[[[4; 0]%float]]]]>
    (<[2%positive := Float4 [[[[10; 3]%float]]]]>
       (<[1%positive := Int3 [[[2024001%Z; 0%Z]]]]> ∅)).

Definition field2_f64 : File float :=
  {| variables := [("TFLAG", 1%positive); ("NOX", 2%positive);
                   ("CO", 3%positive)];
     VGLVLS := None;
     NLAYS := None |}.

(** A table without the columns Alt and L. *)
Definition profile_only3 : DataFrame xq :=
  {| index := [0; 1; 2];
     columns :=
       [("Sigma", [qc 1 1; qc 1 2; qc 0 1]);
        ("Pressure", [qc 1 1; qc 1 2; qc 0 1]);
        ("onroad", [qc 1 1; qc 0 1; qc 0 1])] |}.

(** The table [table3] with the sector S doubled. *)
Definition table3_doubled : DataFrame xq :=
  {| index := [0; 1; 2];
     columns :=
       [("Sigma", [qc 1 1; qc 1 2; qc 0 1]);
        ("Pressure", [qc 1 1; qc 1 2; qc 0 1]);
        ("Alt", [qc 0 1; qc 1 1; qc 2 1]);
        ("L", [qc 1 1; qc 2 1; qc 3 1]);
        ("S", map Fin (map (Qcmult (Q2Qc 2))
                           [Q2Qc (1 # 4); Q2Qc (1 # 4); Q2Qc (1 # 2)]));
        ("Z", [qc 0 1; qc 0 1; qc 0 1]);
        ("M", [qc 0 1; qc 1 1; qc (-1) 1])] |}.

(** A file whose variable has a time step without layers. *)
Definition store_nolay : heap xq := <[1%positive := Float4 [[]]]> ∅.

Definition field_nolay : File xq :=
  {| variables := [("NOX", 1%positive)]; VGLVLS := None; NLAYS := None |}.

(** * Properties *)

(** ** Ordered dictionaries *)

Section OdictFacts.
Context {V : Type}.
Implicit Types (d : list (string * V)) (k : string) (v : V).

Lemma odict_get_set_eq d k v : odict_get k (odict_set k v d) = Some v.
Proof.
  induction d as [|[k' v'] d IH]; simpl.
  - by rewrite String.eqb_refl.
  - destruct (String.eqb k k') eqn:E; simpl.
    + by rewrite String.eqb_refl.
    + by rewrite E.
Qed.

Lemma odict_get_set_ne d k k' v :
  k ≠ k' -> odict_get k (odict_set k' v d) = odict_get k d.
Proof.
  intros Hne. induction d as [|[k0 v0] d IH]; simpl.
  - destruct (String.eqb_spec k k'); congruence.
  - destruct (String.eqb_spec k' k0) as [->|Hk0]; simpl.
    + destruct (String.eqb_spec k k0); congruence.
    + destruct (String.eqb_spec k k0); congruence.
Qed.

Lemma odict_get_Some_elem d k v : odict_get k d = Some v -> (k, v) ∈ d.
Proof.
  induction d as [|[k0 v0] d IH]; simpl; [done|].
  destruct (String.eqb_spec k k0) as [->|].
  - intros [= ->]. left.
  - intros. right. auto.
Qed.

Lemma odict_get_NoDup d k v :
  NoDup (odict_keys d) -> (k, v) ∈ d -> odict_get k d = Some v.
Proof.
  unfold odict_keys.
  induction d as [|[k0 v0] d IH]; simpl; intros Hnd Hin.
  - by apply elem_of_nil in Hin.
  - apply NoDup_cons in Hnd as [Hk0 Hnd].
    apply elem_of_cons in Hin as [[= -> ->]|Hin].
    + by rewrite String.eqb_refl.
    + destruct (String.eqb_spec k k0) as [->|]; [|auto].
      exfalso. apply Hk0. apply list_elem_of_fmap. by exists (k0, v).
Qed.

Lemma odict_get_None d k : k ∉ odict_keys d -> odict_get k d = None.
Proof.
  unfold odict_keys.
  induction d as [|[k0 v0] d IH]; simpl; [done|].
  intros Hk. apply not_elem_of_cons in Hk as [Hne Hk].
  destruct (String.eqb_spec k k0); [done|auto].
Qed.

Lemma in_keys_true k ks : in_keys k ks = true <-> k ∈ ks.
Proof.
  unfold in_keys. rewrite existsb_exists. split.
  - intros (k' & Hin & ->%String.eqb_eq). by apply list_elem_of_In.
  - intros Hin. exists k. split; [by apply list_elem_of_In|apply String.eqb_refl].
Qed.

Lemma in_keys_false k ks : in_keys k ks = false <-> k ∉ ks.
Proof.
  rewrite <- in_keys_true. destruct (in_keys k ks); naive_solver.
Qed.

End OdictFacts.

Lemma odict_set_keys {V} (d : list (string * V)) k v :
  odict_keys (odict_set k v d)
  = if in_keys k (odict_keys d) then odict_keys d else odict_keys d ++ [k].
Proof.
  unfold odict_keys, in_keys. induction d as [|[k' v'] d IH]; [done|].
  cbn [odict_set]. destruct (String.eqb k k') eqn:E.
  - rewrite !fmap_cons. cbn [fst existsb]. rewrite E.
    apply String.eqb_eq in E. by subst.
  - rewrite !fmap_cons. cbn [fst existsb]. rewrite E. cbn [orb].
    rewrite IH. by destruct (existsb (String.eqb k) d.*1).
Qed.



(** ** The order of the exact arithmetic *)

Lemma Qcltb_lt a b : Qcltb a b = true <-> (a < b)%Qc.
Proof.
  unfold Qcltb. rewrite Qclt_alt. destruct (a ?= b)%Qc; naive_solver.
Qed.

Lemma Qceqb_eq a b : Qceqb a b = true <-> a = b.
Proof.
  unfold Qceqb. rewrite Qceq_alt. destruct (a ?= b)%Qc; naive_solver.
Qed.

Lemma Qceqb_neq a b : Qceqb a b = false <-> a ≠ b.
Proof.
  rewrite <- Qceqb_eq. destruct (Qceqb a b); naive_solver.
Qed.

#[export] Instance xq_order : ArithOrder xq.
Proof.
  split.
  - intros [p| | |] [q| | |]; simpl; try done.
    intros Hlt%Qcltb_lt. apply not_true_is_false. intros Hgt%Qcltb_lt.
    exact (Qclt_not_le _ _ Hlt (Qclt_le_weak _ _ Hgt)).
  - intros [p| | |] [q| | |] [r| | |]; simpl; try done.
    rewrite !Qcltb_lt. apply Qclt_trans.
  - intros [p| | |] [q| | |]; simpl; done.
Qed.

(** ** Interpolation *)

Section InterpFacts.
Context {num : Type} `{ArithOrder num}.
Implicit Types (x xp fp : list num).

Lemma last_rev (l : list num) d : List.last (rev l) d = List.hd d l.
Proof. destruct l as [|a l]; [done|]. simpl. apply last_last. Qed.

Lemma hd_rev (l : list num) d : List.hd d (rev l) = List.last l d.
Proof. rewrite <- (rev_involutive l) at 2. by rewrite last_rev. Qed.

Lemma inverted_rev xp : inverted xp = true -> inverted (rev xp) = false.
Proof.
  unfold inverted. rewrite last_rev, hd_rev. apply nlt_asym.
Qed.

Lemma inverted_rev' xp :
  nlt (List.hd nnan xp) (List.last xp nnan) = true ->
  inverted xp = false /\ inverted (rev xp) = true.
Proof.
  unfold inverted. rewrite last_rev, hd_rev. intros Hlt. split; [|done].
  by apply nlt_asym.
Qed.

(** After orientation the source coordinate does not end below its start. *)
Lemma oriented_not_inverted xp : inverted (orient (inverted xp) xp) = false.
Proof.
  destruct (inverted xp) eqn:E; simpl; [by apply inverted_rev|done].
Qed.

Lemma hd_elem_of (l : list num) d : l ≠ [] -> List.hd d l ∈ l.
Proof. destruct l; [done|]. intros _. left. Qed.

Lemma orient_elem_of b (l : list num) a : a ∈ orient b l <-> a ∈ l.
Proof.
  destruct b; simpl; [|done].
  rewrite !list_elem_of_In. symmetry. apply in_rev.
Qed.

Lemma orient_nil b (l : list num) : orient b l = [] <-> l = [].
Proof.
  destruct b; simpl; [|done]. split; [|by intros ->].
  intros Hr. apply (f_equal (@length _)) in Hr. rewrite length_rev in Hr.
  by destruct l.
Qed.

Lemma length_orient b (l : list num) : length (orient b l) = length l.
Proof. destruct b; simpl; [apply length_rev|done]. Qed.

(** Below the first point of a source coordinate that is not inverted,
    [np.interp] returns [left]. *)
Lemma interp_point_below xp fp lval rval (x : num) :
  xp ≠ [] ->
  inverted xp = false ->
  nlt x (List.hd nnan xp) = true ->
  interp_point xp fp lval rval x = lval.
Proof.
  intros Hne Hinv Hlt. unfold interp_point.
  destruct xp as [|xp0 [|xp1 xp']]; [done| |].
  - simpl in Hlt. by rewrite Hlt.
  - rewrite (nlt_not_nan _ _ Hlt). unfold binary_search.
    destruct (nlt (List.last (xp0 :: xp1 :: xp') nnan) x) eqn:Habove.
    + unfold inverted in Hinv. by rewrite (nlt_trans _ _ _ Habove Hlt) in Hinv.
    + by rewrite Hlt.
Qed.

Lemma np_interp_ok x xp fp lval :
  xp ≠ [] -> length fp = length xp ->
  np_interp x xp fp lval
  = Ok (map (interp_point xp fp lval (List.last fp nnan)) x).
Proof.
  intros Hne Hlen. unfold np_interp.
  destruct xp; [done|]. simpl length. rewrite Hlen. simpl.
  by rewrite Nat.eqb_refl.
Qed.

End InterpFacts.

Section InterpVa.
Context {num : Type} `{ArithOrder num}.

Lemma interp_column_interpolated vglvls vgtop psfc pressure metakeys key fp :
  let xp := normalize vgtop psfc pressure in
  interp_column (List.tl vglvls) (orient (inverted xp) xp) (inverted xp)
                metakeys key fp
  = (v <- interpolated vglvls vgtop psfc pressure fp ;;
     Ok (if in_keys key metakeys then v else renormalize v)).
Proof. reflexivity. Qed.

Lemma length_normalize vgtop psfc (p : list num) :
  length (normalize vgtop psfc p) = length p.
Proof. apply length_map. Qed.

Lemma odict_get_map {V W} (f : V -> W) (d : list (string * V)) k :
  odict_get k (map (fun c : string * V => (c.1, f c.2)) d)
  = f <$> odict_get k d.
Proof.
  induction d as [|[k' v] d IH]; simpl; [done|].
  by destruct (String.eqb k k').
Qed.

Lemma interp_columns_reversed x xp inv inv' mk cols out :
  (forall fp : list num, orient inv' (rev fp) = orient inv fp) ->
  interp_columns x xp inv' mk
    (map (fun c : string * list num => (c.1, rev c.2)) cols) out
  = interp_columns x xp inv mk cols out.
Proof.
  intros Ho. revert out. induction cols as [|[k fp] cols IH]; intros out.
  - done.
  - simpl. unfold interp_column. rewrite Ho.
    destruct (np_interp x xp (orient inv fp) nzero); simpl; [apply IH|done].
Qed.

(** C5. Orientation invariance. For a table whose normalized pressure differs
    between the first and the last row, as it does when the pressure column
    is increasing or decreasing, [interp_va] on the table with its rows in
    the opposite order returns what it returns on the table. *)
Theorem interp_va_orientation_invariant
    (df : DataFrame num) (vglvls : list num) (vgtop psfc : num)
    (metakeys : option (list string)) (pressure : list num) :
  odict_get "Pressure" (columns df) = Some pressure ->
  (let xp := normalize vgtop psfc pressure in
   nlt (List.hd nnan xp) (List.last xp nnan) = true
   \/ nlt (List.last xp nnan) (List.hd nnan xp) = true) ->
  interp_va (reverse_rows df) vglvls vgtop psfc metakeys
  = interp_va df vglvls vgtop psfc metakeys.
Proof.
  intros Hp Hends. unfold interp_va. simpl.
  rewrite odict_get_map, Hp. simpl.
  assert (Hn : normalize vgtop psfc (rev pressure)
               = rev (normalize vgtop psfc pressure)) by apply map_rev.
  rewrite Hn. set (xp := normalize vgtop psfc pressure) in *.
  destruct xp as [|xp0 xp'] eqn:Exp.
  { simpl in Hends. destruct Hends as [Hl|Hl];
      by rewrite (nlt_asym _ _ Hl) in Hl. }
  rewrite <- Exp in *. clear Exp.
  assert (Hr : rev xp ≠ []).
  { intros E. apply (f_equal (@length _)) in E. rewrite length_rev in E.
    destruct xp; [|done]. simpl in Hends.
    destruct Hends as [Hl|Hl]; by rewrite (nlt_asym _ _ Hl) in Hl. }
  destruct (rev xp) as [|r0 r'] eqn:Er; [done|]. rewrite <- Er. clear Er Hr.
  assert (Hcase : exists b, inverted xp = b /\ inverted (rev xp) = negb b).
  { destruct Hends as [Hl|Hl].
    - exists false. by apply inverted_rev'.
    - exists true. split; [done|]. by apply inverted_rev. }
  destruct Hcase as (b & -> & ->).
  assert (Hxp : orient (negb b) (rev xp) = orient b xp).
  { destruct b; simpl; [done|apply rev_involutive]. }
  rewrite Hxp. rewrite (interp_columns_reversed _ _ b (negb b)); [done|].
  intros fp. destruct b; simpl; [done|apply rev_involutive].
Qed.

End InterpVa.

(** ** The order of binary64 *)

Lemma SFcompare_antisym (a b : spec_float) :
  SFcompare b a = CompOpp <$> SFcompare a b.
Proof.
  destruct a as [s1|s1| |s1 m1 e1], b as [s2|s2| |s2 m2 e2]; simpl;
    try reflexivity; try (by destruct s1); try (by destruct s2);
    try (by destruct s1, s2).
  f_equal. destruct s1, s2; try reflexivity;
    rewrite (Z.compare_antisym e1 e2);
    destruct (e1 ?= e2)%Z; simpl; try reflexivity;
    pose proof (Pos.compare_cont_antisym m1 m2 Eq) as Hp; simpl in Hp;
    rewrite <- Hp; by destruct (Pos.compare_cont Eq m1 m2).
Qed.

Lemma SFltb_asym (a b : spec_float) : SFltb a b = true -> SFltb b a = false.
Proof.
  unfold SFltb. rewrite (SFcompare_antisym a b).
  destruct (SFcompare a b) as [[]|]; simpl; done.
Qed.

Lemma SFltb_trans (a b c : spec_float) :
  SFltb a b = true -> SFltb b c = true -> SFltb a c = true.
Proof.
  unfold SFltb.
  destruct a as [s1|s1| |s1 m1 e1], b as [s2|s2| |s2 m2 e2],
           c as [s3|s3| |s3 m3 e3]; simpl;
    try (destruct s1); try (destruct s2); try (destruct s3); simpl;
    try done;
    change (Pos.compare_cont Eq) with Pos.compare;
    destruct (Z.compare_spec e1 e2), (Z.compare_spec e2 e3),
             (Z.compare_spec e1 e3); try done; try lia;
    destruct (Pos.compare_spec m1 m2), (Pos.compare_spec m2 m3),
             (Pos.compare_spec m1 m3); simpl; try done; try lia.
Qed.

Lemma SFltb_not_nan (a b : spec_float) : SFltb a b = true -> SFeqb a a = true.
Proof.
  unfold SFltb, SFeqb.
  destruct a as [s1|s1| |s1 m1 e1]; simpl; try done.
  - by destruct s1.
  - intros _. destruct s1; rewrite Z.compare_refl;
      change (Pos.compare_cont Eq m1 m1) with (Pos.compare m1 m1);
      by rewrite Pos.compare_refl.
Qed.

#[export] Instance f64_order : ArithOrder float.
Proof.
  split; simpl.
  - intros a b. rewrite !FloatAxioms.ltb_spec. apply SFltb_asym.
  - intros a b c. rewrite !FloatAxioms.ltb_spec. apply SFltb_trans.
  - intros a b. unfold PrimFloat.is_nan. rewrite FloatAxioms.ltb_spec, FloatAxioms.eqb_spec.
    intros Hlt. by rewrite (SFltb_not_nan _ _ Hlt).
Qed.

(** ** The store: what slice and the in-place product change *)

Section StoreFacts.
Context {num : Type} `{Arith num}.
Implicit Types (h : heap num).

Lemma mbind_inv {A B} (m : M num A) (k : A -> M num B) h r h' :
  mbind m k h = (r, h') ->
  (exists e, m h = (Raise e, h') /\ r = Raise e)
  \/ (exists x h1, m h = (Ok x, h1) /\ k x h1 = (r, h')).
Proof.
  unfold mbind. destruct (m h) as [[x|e] h1]; intros Hk.
  - right. eauto.
  - left. inversion Hk; subst. eauto.
Qed.

Lemma load_inv (l : loc) h r h' :
  load l h = (r, h') ->
  h' = h /\ (forall a, r = Ok a -> h !! l = Some a).
Proof.
  unfold load. destruct (h !! l) as [a|] eqn:E; intros [= <- <-]; split; try done.
  by intros a' [= ->].
Qed.

Lemma alloc_inv (a : ndarray num) h r h' :
  alloc a h = (r, h') ->
  exists l, r = Ok l /\ (l ∉ dom h) /\ h' = (<[l := a]> h).
Proof.
  unfold alloc. intros [= <- <-]. eexists. split; [done|]. split; [|done].
  apply is_fresh.
Qed.

Lemma insert_fresh_subseteq h (l : loc) (a : ndarray num) :
  l ∉ dom h -> h ⊆ <[l := a]> h.
Proof. intros Hl. apply insert_subseteq. by apply not_elem_of_dom. Qed.

Lemma mapR_Forall2 {A B} (f : A -> result B) (l : list A) (l' : list B) :
  mapR f l = Ok l' <-> Forall2 (fun a b => f a = Ok b) l l'.
Proof.
  revert l'. induction l as [|a l IH]; intros l'; simpl.
  - split; [intros [= <-]; constructor|]. by intros ->%Forall2_nil_inv_l.
  - destruct (f a) as [b|e] eqn:Ea; simpl.
    + destruct (mapR f l) as [bs|e] eqn:El; simpl.
      * split.
        -- intros [= <-]. constructor; [done|]. by apply IH.
        -- intros (b' & bs' & Hb & Hbs & ->)%Forall2_cons_inv_l.
           apply IH in Hbs. congruence.
      * split; [done|].
        intros (b' & bs' & Hb & Hbs & ->)%Forall2_cons_inv_l.
        apply IH in Hbs. congruence.
    + split; [done|].
      intros (b' & bs' & Hb & Hbs & ->)%Forall2_cons_inv_l. congruence.
Qed.

Lemma rep_first_inv {A} nz (l : list A) l' :
  rep_first nz l = Ok l' ->
  length l' = nz /\ forall a, a ∈ l' -> List.hd_error l = Some a.
Proof.
  unfold rep_first. destruct nz as [|nz].
  - done.
  - destruct l as [|a0 l]; [done|]. intros [= <-]. split.
    + apply (length_replicate (S nz)).
    + intros a Ha. change (a ∈ replicate (S nz) a0) in Ha.
      apply elem_of_replicate in Ha as [-> _]. done.
Qed.

Lemma slice_array_layers nz (a a' : ndarray num) :
  slice_array nz a = Ok a' -> layers_of nz a'.
Proof.
  destruct a as [d|d]; simpl.
  - destruct (mapR (rep_first nz) d) as [d'|] eqn:E; [|done].
    intros [= <-]. simpl. apply mapR_Forall2 in E.
    induction E as [|x y l l' Hxy _ IH]; constructor; [|done].
    by apply rep_first_inv in Hxy as [? _].
  - by intros [= <-].
Qed.

Lemma scale_layers_length lf layers layers' :
  scale_layers lf layers = Ok layers' -> length layers' = length layers.
Proof.
  unfold scale_layers.
  destruct (Nat.eqb_spec (length layers) (length lf)) as [E|_].
  - intros [= <-]. rewrite length_zip_with. lia.
  - destruct (length lf =? 1)%nat; [|done]. intros [= <-]. apply length_map.
Qed.

Lemma imul_layers_layers lf n (a a' : ndarray num) :
  imul_layers lf a = Ok a' -> layers_of n a -> layers_of n a'.
Proof.
  destruct a as [d|d]; simpl; [|done].
  destruct (mapR (scale_layers lf) d) as [d'|] eqn:E; [|done].
  intros [= <-]. simpl. apply mapR_Forall2 in E.
  induction E as [|x y l l' Hxy _ IH]; intros Hd; [constructor|].
  apply Forall_cons in Hd as [Hx Hl]. constructor; [|auto].
  apply scale_layers_length in Hxy. congruence.
Qed.

(** [slice] gives every variable an array object of its own, not in the
    store before, and leaves the store it found unchanged. *)
Lemma slice_vars_frame nz vars h r h' :
  slice_vars nz vars h = (r, h') ->
  h ⊆ h'
  /\ forall vars', r = Ok vars' ->
       vars'.*1 = vars.*1
       /\ NoDup vars'.*2
       /\ Forall (fun v : string * loc =>
                    (v.2 ∉ dom h)
                    /\ exists a, h' !! v.2 = Some a /\ layers_of nz a) vars'.
Proof.
  revert h r h'. induction vars as [|[key l] vars IH]; intros h r h'; simpl.
  - intros [= <- <-]. split; [done|]. intros vars' [= <-].
    split; [done|]. split; constructor.
  - intros Hrun.
    apply mbind_inv in Hrun as [(e & Hld & ->)|(a & h1 & Hld & Hrun)].
    { apply load_inv in Hld as [-> _]. done. }
    apply load_inv in Hld as [-> Ha].
    apply mbind_inv in Hrun as [(e & Hsl & ->)|(a' & h1 & Hsl & Hrun)].
    { inversion Hsl; subst. done. }
    inversion Hsl as [[Hsl' Hh]]; subst h1. clear Hsl.
    apply mbind_inv in Hrun as [(e & Hal & ->)|(l' & h1 & Hal & Hrun)].
    { apply alloc_inv in Hal as (? & ? & _). done. }
    apply alloc_inv in Hal as (l0 & [= <-] & Hfresh & ->).
    apply mbind_inv in Hrun as [(e & Hrest & ->)|(rest & h2 & Hrest & Hrun)].
    { apply IH in Hrest as [Hsub _]. split; [|done].
      etrans; [by apply insert_fresh_subseteq|done]. }
    inversion Hrun; subst. clear Hrun.
    apply IH in Hrest as [Hsub Hrest].
    destruct (Hrest rest eq_refl) as (Hkeys & Hnd & Hall).
    assert (Hsub' : h ⊆ h').
    { etrans; [by apply insert_fresh_subseteq|done]. }
    split; [done|]. intros vars' [= <-]. rewrite !fmap_cons.
    split; [by rewrite Hkeys|]. split.
    + apply NoDup_cons. simpl. split; [|done].
      intros Hin. apply list_elem_of_fmap in Hin as (v & -> & Hv).
      rewrite Forall_forall in Hall. apply Hall in Hv as [Hv _].
      apply Hv. rewrite dom_insert. set_solver.
    + constructor.
      * simpl. split; [done|]. exists a'. split.
        -- eapply lookup_weaken; [|exact Hsub]. apply lookup_insert_eq.
        -- by eapply slice_array_layers.
      * eapply Forall_impl; [done|]. intros v [Hv Hex]. split; [|done].
        intros Hin. apply Hv. rewrite dom_insert. set_solver.
Qed.

(** The in-place product writes to the arrays of the variables it is given
    and to no other. *)
Lemma scale_vars_frame lf vars h r h' :
  scale_vars lf vars h = (r, h') ->
  dom h' = dom h
  /\ (forall l, l ∉ vars.*2 -> h' !! l = h !! l)
  /\ (forall n l a, h !! l = Some a -> layers_of n a ->
        exists a', h' !! l = Some a' /\ layers_of n a').
Proof.
  revert h r h'. induction vars as [|[key l] vars IH]; intros h r h'; simpl.
  - intros [= <- <-]. eauto.
  - intros Hrun.
    assert (Hstep : forall r1 h1,
      (if String.eqb key "TFLAG" then mret tt
       else mbind (load l) (fun a =>
            mbind (lift (imul_layers lf a)) (fun a' => store l a'))) h
      = (r1, h1) ->
      dom h1 = dom h
      /\ (forall l', l' ≠ l -> h1 !! l' = h !! l')
      /\ (forall n l' a, h !! l' = Some a -> layers_of n a ->
            exists a', h1 !! l' = Some a' /\ layers_of n a')).
    { intros r1 h1. destruct (String.eqb key "TFLAG").
      { intros [= <- <-]. eauto. }
      intros Hs.
      apply mbind_inv in Hs as [(e & Hld & ->)|(a & h2 & Hld & Hs)].
      { apply load_inv in Hld as [-> _]. eauto. }
      apply load_inv in Hld as [-> Ha]. specialize (Ha a eq_refl).
      apply mbind_inv in Hs as [(e & Hm & ->)|(a' & h2 & Hm & Hs)].
      { inversion Hm; subst. eauto. }
      inversion Hm as [[Hm' Hh]]; subst h2. clear Hm.
      inversion Hs; subst. clear Hs. split; [|split].
      - rewrite dom_insert_L. apply elem_of_dom_2 in Ha. set_solver.
      - intros l' Hne. by apply lookup_insert_ne.
      - intros n l' b Hb Hn. destruct (decide (l' = l)) as [->|Hne].
        + rewrite lookup_insert_eq. eexists. split; [done|].
          eapply imul_layers_layers; [done|]. congruence.
        + rewrite lookup_insert_ne; [eauto|done]. }
    apply mbind_inv in Hrun as [(e & Hs & ->)|([] & h1 & Hs & Hrun)].
    + apply Hstep in Hs as (Hd & Hne & Hl). split; [done|]. split; [|done].
      intros l' Hl'. apply Hne. set_solver.
    + apply Hstep in Hs as (Hd & Hne & Hl).
      apply IH in Hrun as (Hd' & Hne' & Hl'). split; [congruence|]. split.
      * intros l' Hnot. rewrite Hne'; [|set_solver]. apply Hne. set_solver.
      * intros n l' a Ha Hn. destruct (Hl n l' a Ha Hn) as (a1 & Ha1 & Hn1).
        eauto.
Qed.

Lemma make3d_frame infile lf vglvls h r h' :
  make3d infile lf vglvls h = (r, h') ->
  h ⊆ h'
  /\ forall out, r = Ok out ->
       NLAYS out = Some (length lf)
       /\ VGLVLS out = Some (map to_single vglvls)
       /\ (variables out).*1 = (variables infile).*1
       /\ Forall (fun v : string * loc =>
                    (v.2 ∉ dom h)
                    /\ exists a, h' !! v.2 = Some a /\ layers_of (length lf) a)
                 (variables out).
Proof.
  unfold make3d, slice. intros Hrun.
  apply mbind_inv in Hrun as [(e & Hs & ->)|(f & h1 & Hs & Hrun)].
  { apply mbind_inv in Hs as [(e' & Hs & _)|(vs & h1 & Hs & Hr)].
    - apply slice_vars_frame in Hs as [Hsub _]. done.
    - inversion Hr. }
  apply mbind_inv in Hs as [(e' & Hs & [=])|(vs & h0 & Hs & Hr)].
  inversion Hr; subst. clear Hr. simpl in Hrun.
  apply slice_vars_frame in Hs as [Hsub Hvs].
  destruct (Hvs vs eq_refl) as (Hkeys & Hnd & Hall). clear Hvs.
  assert (Hscale : forall r2 h2, scale_vars lf vs h1 = (r2, h2) ->
            h ⊆ h2
            /\ Forall (fun v : string * loc =>
                    (v.2 ∉ dom h)
                    /\ exists a, h2 !! v.2 = Some a /\ layers_of (length lf) a) vs).
  { intros r2 h2 Hsc. apply scale_vars_frame in Hsc as (Hdom & Hne & Hlay).
    split.
    - apply map_subseteq_spec. intros l a Hl. rewrite Hne.
      + by eapply lookup_weaken.
      + intros Hin. apply list_elem_of_fmap in Hin as (v & -> & Hv).
        rewrite Forall_forall in Hall. apply Hall in Hv as [Hv _].
        apply Hv. by apply elem_of_dom_2 in Hl.
    - eapply Forall_impl; [exact Hall|]. intros v (Hv & a & Ha & Hn).
      split; [done|]. eauto. }
  apply mbind_inv in Hrun as [(e & Hsc & ->)|([] & h2 & Hsc & Hrun)].
  - apply Hscale in Hsc as [? _]. done.
  - inversion Hrun; subst. clear Hrun. apply Hscale in Hsc as [Hsub' Hall'].
    split; [done|]. intros out [= <-]. simpl. done.
Qed.

Lemma slice_vars_run nz vars h :
  Forall (fun v : string * loc =>
            exists a a', h !! v.2 = Some a /\ slice_array nz a = Ok a') vars ->
  exists vars' h1,
    slice_vars nz vars h = (Ok vars', h1)
    /\ Forall2 (fun v v' : string * loc =>
                  v'.1 = v.1
                  /\ exists a a', h !! v.2 = Some a /\ slice_array nz a = Ok a'
                                  /\ h1 !! v'.2 = Some a') vars vars'.
Proof.
  revert h. induction vars as [|[key l] vars IH]; intros h Hall.
  - exists [], h. split; [done|constructor].
  - apply Forall_cons in Hall as [(a & a' & Ha & Hsl) Hall]. simpl in Ha, Hsl.
    set (l' := fresh (dom h)). set (h0 := <[l' := a']> h).
    assert (Hfresh : l' ∉ dom h) by apply is_fresh.
    assert (Hsub : h ⊆ h0) by by apply insert_fresh_subseteq.
    destruct (IH h0) as (rest & h1 & Hrest & Hrel).
    { eapply Forall_impl; [exact Hall|]. intros v (b & b' & Hb & Hb').
      exists b, b'. split; [|done]. by eapply lookup_weaken. }
    exists ((key, l') :: rest), h1. split.
    + simpl. unfold mbind at 1. unfold load. rewrite Ha.
      unfold mbind at 1. unfold lift. rewrite Hsl.
      unfold mbind at 1. unfold alloc. fold l'. fold h0.
      unfold mbind at 1. by rewrite Hrest.
    + pose proof Hrest as Hfr. apply slice_vars_frame in Hfr as [Hsub1 _].
      constructor.
      * simpl. split; [done|]. exists a, a'. split; [done|]. split; [done|].
        eapply lookup_weaken; [|exact Hsub1]. apply lookup_insert_eq.
      * clear Hrest IH. induction Hrel as [|v v' vs vs' Hv _ IHrel];
          [constructor|].
        apply Forall_cons in Hall as [(b & b' & Hb & Hb') Hall].
        constructor; [|by apply IHrel].
        destruct Hv as (Hk & c & c' & Hc & Hc' & Hc1). split; [done|].
        exists b, b'. split; [done|]. split; [done|].
        pose proof (lookup_weaken _ _ _ _ Hb Hsub) as Hb0.
        rewrite Hc in Hb0. injection Hb0 as ->. congruence.
Qed.

Lemma scale_vars_run lf vars h :
  NoDup vars.*2 ->
  Forall (fun v : string * loc =>
            exists a b, h !! v.2 = Some a
              /\ (if String.eqb v.1 "TFLAG" then Ok a else imul_layers lf a)
                 = Ok b) vars ->
  exists h2,
    scale_vars lf vars h = (Ok tt, h2)
    /\ Forall (fun v : string * loc =>
                 exists a b, h !! v.2 = Some a
                   /\ (if String.eqb v.1 "TFLAG" then Ok a else imul_layers lf a)
                      = Ok b
                   /\ h2 !! v.2 = Some b) vars.
Proof.
  revert h. induction vars as [|[key l] vars IH]; intros h Hnd Hall.
  - exists h. split; [done|constructor].
  - rewrite fmap_cons in Hnd. apply NoDup_cons in Hnd as [Hl Hnd]. simpl in Hl.
    apply Forall_cons in Hall as [(a & b & Ha & Hb) Hall]. simpl in Ha, Hb.
    set (h0 := if String.eqb key "TFLAG" then h else <[l := b]> h).
    assert (Hh0 : forall l', l' ≠ l -> h0 !! l' = h !! l').
    { intros l' Hne. unfold h0. destruct (String.eqb key "TFLAG"); [done|].
      by apply lookup_insert_ne. }
    assert (Hh0l : h0 !! l = Some b).
    { unfold h0. destruct (String.eqb key "TFLAG").
      - congruence.
      - apply lookup_insert_eq. }
    assert (Hin : forall v : string * loc, v ∈ vars -> v.2 ≠ l).
    { intros v Hv Heq. apply Hl. apply list_elem_of_fmap. by exists v. }
    destruct (IH h0 Hnd) as (h2 & Hrun & Hrel).
    { rewrite Forall_forall in Hall. apply Forall_forall. intros v Hv.
      destruct (Hall v Hv) as (c & d & Hc & Hd). exists c, d.
      split; [|done]. rewrite Hh0; [done|by apply Hin]. }
    exists h2. split.
    + simpl. unfold mbind at 1.
      assert (Hstep :
        (if String.eqb key "TFLAG" then mret tt
         else mbind (load l) (fun a0 =>
              mbind (lift (imul_layers lf a0)) (fun a' => store l a'))) h
        = (Ok tt, h0)).
      { unfold h0. destruct (String.eqb key "TFLAG"); [done|].
        unfold mbind at 1. unfold load. rewrite Ha.
        unfold mbind, lift. by rewrite Hb. }
      by rewrite Hstep.
    + pose proof Hrun as Hfr. apply scale_vars_frame in Hfr as (_ & Hne & _).
      constructor.
      * simpl. exists a, b. split; [done|]. split; [done|].
        by rewrite Hne.
      * rewrite Forall_forall in Hrel. apply Forall_forall. intros v Hv.
        destruct (Hrel v Hv) as (c & d & Hc & Hd & Hd2). exists c, d.
        split; [|done]. rewrite <- Hh0; [done|by apply Hin].
Qed.

Lemma make3d_run infile lf vglvls h :
  Forall (fun v : string * loc =>
            exists a b, h !! v.2 = Some a /\ expand_array lf v.1 a = Ok b)
         (variables infile) ->
  exists out h',
    make3d infile lf vglvls h = (Ok out, h')
    /\ Forall2 (fun v v' : string * loc =>
                  v'.1 = v.1
                  /\ exists a b, h !! v.2 = Some a
                                 /\ expand_array lf v.1 a = Ok b
                                 /\ h' !! v'.2 = Some b)
               (variables infile) (variables out).
Proof.
  intros Hall.
  destruct (slice_vars_run (length lf) (variables infile) h)
    as (vs & h1 & Hslice & Hrel).
  { eapply Forall_impl; [exact Hall|]. intros v (a & b & Ha & Hb).
    unfold expand_array in Hb.
    destruct (slice_array (length lf) a) as [a'|] eqn:Hs; [|done]. eauto. }
  pose proof Hslice as Hfr. apply slice_vars_frame in Hfr as [Hsub Hfr].
  destruct (Hfr vs eq_refl) as (Hkeys & Hnd & Hfresh). clear Hfr.
  destruct (scale_vars_run lf vs h1 Hnd) as (h2 & Hscale & Hrel2).
  { clear Hkeys Hnd Hfresh Hslice.
    induction Hrel as [|v v' l l' Hv _ IH]; [constructor|].
    apply Forall_cons in Hall as [(a & b & Ha & Hb) Hall].
    constructor; [|by apply IH].
    destruct Hv as (Hk & c & c' & Hc & Hc' & Hc1).
    assert (c = a) as -> by congruence.
    unfold expand_array in Hb. rewrite Hc' in Hb. simpl in Hb.
    exists c', b. rewrite Hk. done. }
  exists {| variables := vs; VGLVLS := Some (map to_single vglvls);
            NLAYS := Some (length lf) |}, h2.
  split.
  - unfold make3d, slice. unfold mbind at 1. unfold mbind at 1.
    rewrite Hslice. unfold mret at 1. simpl.
    unfold mbind at 1. by rewrite Hscale.
  - simpl. clear Hscale Hslice Hkeys Hnd Hfresh.
    induction Hrel as [|v v' l l' Hv _ IH]; [constructor|].
    apply Forall_cons in Hall as [(a & b & Ha & Hb) Hall].
    apply Forall_cons in Hrel2 as [(a1 & b1 & Ha1 & Hb1 & Hb2) Hrel2].
    constructor; [|by apply IH].
    destruct Hv as (Hk & c & c' & Hc & Hc' & Hc1). split; [done|].
    exists a, b. split; [done|]. split; [done|].
    assert (c = a) as -> by congruence.
    assert (a1 = c') as -> by congruence.
    unfold expand_array in Hb. rewrite Hc' in Hb. simpl in Hb.
    rewrite Hk in Hb1. congruence.
Qed.

End StoreFacts.

(** ** Sums and renormalization in exact arithmetic *)

Lemma xq_add_Fin_inv a b s :
  xq_add a b = Fin s -> exists p q, a = Fin p /\ b = Fin q /\ s = (p + q)%Qc.
Proof. destruct a, b; simpl; intros [=]; eauto. Qed.

Lemma foldl_add_Fin (a : Qc) (qs : list Qc) :
  foldl xq_add (Fin a) (map Fin qs) = Fin (a + Qcsum qs).
Proof.
  revert a. induction qs as [|q qs IH]; intros a; simpl.
  - by rewrite Qcplus_0_r.
  - rewrite IH. by rewrite Qcplus_assoc.
Qed.

Lemma foldl_add_Fin_inv (a : xq) (l : list xq) s :
  foldl xq_add a l = Fin s ->
  exists p qs, a = Fin p /\ l = map Fin qs.
Proof.
  revert a. induction l as [|b l IH]; intros a; simpl.
  - intros ->. by exists s, [].
  - intros Hs. apply IH in Hs as (p & qs & Hp & ->).
    apply xq_add_Fin_inv in Hp as (p1 & q1 & -> & -> & _).
    by exists p1, (q1 :: qs).
Qed.

Lemma nsum_Fin (qs : list Qc) : nsum (map Fin qs) = Fin (Qcsum qs).
Proof. destruct qs as [|q qs]; [done|]. simpl. apply foldl_add_Fin. Qed.

(** A sum is finite only when every term is. *)
Lemma nsum_Fin_inv (l : list xq) s :
  nsum l = Fin s -> exists qs, l = map Fin qs /\ s = Qcsum qs.
Proof.
  intros Hs. assert (exists qs, l = map Fin qs) as [qs ->].
  { destruct l as [|a l]; [by exists []|]. simpl in Hs.
    apply foldl_add_Fin_inv in Hs as (p & qs & -> & ->). by exists (p :: qs). }
  exists qs. split; [done|]. rewrite nsum_Fin in Hs. congruence.
Qed.

Lemma Qcsum_div (qs : list Qc) (s : Qc) :
  Qcsum (map (fun q => q / s)%Qc qs) = (Qcsum qs / s)%Qc.
Proof.
  induction qs as [|q qs IH]; simpl.
  - unfold Qcdiv. by rewrite Qcmult_0_l.
  - rewrite IH. unfold Qcdiv. by rewrite Qcmult_plus_distr_l.
Qed.

Lemma renormalize_Fin (qs : list Qc) :
  Qcsum qs <> 0%Qc ->
  renormalize (map Fin qs) = map (fun q => Fin (q / Qcsum qs)) qs.
Proof.
  intros Hs. unfold renormalize. rewrite nsum_Fin, map_map.
  apply map_ext. intros q. simpl.
  apply Qceqb_neq in Hs. by rewrite Hs.
Qed.

(** Renormalization in exact arithmetic: a column with a finite sum other
    than zero is rescaled to sum 1. *)
Lemma nsum_renormalize (v : list xq) (s : Qc) :
  nsum v = Fin s -> s <> 0%Qc -> nsum (renormalize v) = Fin 1.
Proof.
  intros Hv Hs. apply nsum_Fin_inv in Hv as (qs & -> & ->).
  rewrite renormalize_Fin by done.
  rewrite <- (map_map (fun q => (q / Qcsum qs)%Qc) Fin).
  rewrite nsum_Fin, Qcsum_div. f_equal.
  unfold Qcdiv. by apply Qcmult_inv_r.
Qed.

(** With sum zero every entry is divided by zero: the outcome is NaN for an
    entry 0 and an infinity for any other. *)
Lemma renormalize_zero_sum (v : list xq) :
  nsum v = Fin 0 ->
  Forall nonfinite (renormalize v)
  /\ (forall i, v !! i = Some (Fin 0) -> renormalize v !! i = Some NaN)
  /\ length (renormalize v) = length v.
Proof.
  intros Hv. unfold renormalize. rewrite Hv. split; [|split].
  - apply nsum_Fin_inv in Hv as (qs & -> & _).
    apply Forall_forall. intros a Ha.
    apply list_elem_of_fmap in Ha as (b & -> & Hb).
    apply list_elem_of_fmap in Hb as (q & -> & _). simpl.
    change (Qceqb 0 0) with true. simpl.
    destruct (Qceqb q 0); [by left|]. right.
    destruct (Qcltb q 0); simpl; auto.
  - intros i Hi. rewrite list_lookup_fmap, Hi. done.
  - apply length_map.
Qed.

(** ** The table [interp_va] returns *)

Section InterpVaTable.
Context {num : Type} `{ArithOrder num}.

Lemma interpolated_values vglvls vgtop psfc pressure fp :
  pressure ≠ [] -> length fp = length pressure ->
  interpolated vglvls vgtop psfc pressure fp
  = Ok (interp_values vglvls vgtop psfc pressure fp).
Proof.
  intros Hne Hlen. unfold interpolated, interp_values.
  apply np_interp_ok.
  - rewrite orient_nil. intros E. apply (f_equal (@length _)) in E.
    rewrite length_normalize in E. by destruct pressure.
  - by rewrite !length_orient, length_normalize.
Qed.

Lemma odict_set_new {V} (d : list (string * V)) k v :
  k ∉ d.*1 -> odict_set k v d = d ++ [(k, v)].
Proof.
  induction d as [|[k' v'] d IH]; simpl; [done|].
  intros Hk. apply not_elem_of_cons in Hk as [Hne Hk].
  destruct (String.eqb_spec k k'); [done|]. by rewrite IH.
Qed.

Lemma interp_columns_run vglvls vgtop psfc pressure mk cols out :
  pressure ≠ [] ->
  Forall (fun c : string * list num => length c.2 = length pressure) cols ->
  NoDup (out.*1 ++ cols.*1) ->
  let xp := normalize vgtop psfc pressure in
  interp_columns (List.tl vglvls) (orient (inverted xp) xp) (inverted xp)
                 mk cols out
  = Ok (out ++ map (out_column mk vglvls vgtop psfc pressure) cols).
Proof.
  intros Hne Hlen Hnd xp. revert out Hnd.
  induction cols as [|[k fp] cols IH]; intros out Hnd.
  - simpl. by rewrite app_nil_r.
  - apply Forall_cons in Hlen as [Hfp Hlen]. simpl in Hfp.
    cbn [interp_columns]. unfold xp at 1 2 3.
    rewrite (interp_column_interpolated vglvls vgtop psfc pressure).
    rewrite interpolated_values by done. cbn [rbind map].
    rewrite fmap_cons in Hnd. simpl in Hnd.
    rewrite odict_set_new.
    2:{ apply NoDup_app in Hnd as (_ & Hd & _). intros Hin.
        apply (Hd k Hin). left. }
    rewrite IH; [|done|].
    + by rewrite <- app_assoc.
    + rewrite fmap_app. simpl. rewrite <- app_assoc. done.
Qed.

Lemma interp_va_run df vglvls vgtop psfc metakeys pressure :
  wf_table df pressure ->
  interp_va df vglvls vgtop psfc metakeys
  = Ok {| index := seq 0 (length (List.tl vglvls));
          columns :=
            odict_set "Sigma" (List.tl vglvls)
              (map (out_column (default default_metakeys metakeys)
                               vglvls vgtop psfc pressure) (columns df)) |}.
Proof.
  intros (Hp & Hne & Hnd & Hlen). unfold interp_va. rewrite Hp.
  destruct (normalize vgtop psfc pressure) as [|n0 ns] eqn:En.
  { apply (f_equal (@length _)) in En. rewrite length_normalize in En.
    by destruct pressure. }
  rewrite <- En.
  rewrite (interp_columns_run vglvls vgtop psfc pressure); try done.
Qed.

Lemma out_column_keys mk vglvls vgtop psfc pressure cols :
  (map (out_column mk vglvls vgtop psfc pressure) cols).*1 = cols.*1.
Proof. induction cols as [|c cols IH]; [done|]. rewrite !fmap_cons. by f_equal. Qed.

(** The column of the returned table for a column of the input other than
    Sigma. *)
Lemma interp_va_column df vglvls vgtop psfc metakeys pressure key fp :
  wf_table df pressure ->
  (key, fp) ∈ columns df ->
  key ≠ "Sigma" ->
  exists outdf,
    interp_va df vglvls vgtop psfc metakeys = Ok outdf
    /\ odict_get key (columns outdf)
       = Some (out_column (default default_metakeys metakeys)
                          vglvls vgtop psfc pressure (key, fp)).2.
Proof.
  intros Hwf Hin Hkey. eexists. split; [by apply interp_va_run|]. simpl.
  rewrite odict_get_set_ne by done.
  destruct Hwf as (_ & _ & Hnd & _).
  apply odict_get_NoDup.
  - unfold odict_keys. by rewrite out_column_keys.
  - apply list_elem_of_fmap.
    exists (key, fp). split; [done|done].
Qed.

(** C6. For a target point that lies below every normalized coordinate of the
    table, the interpolation of [interp_va] (its [np.interp] call with
    [left=0]) yields 0 at that point, for every column of the table other
    than Sigma, before the renormalization: the column of the returned table
    is the interpolated column for a metakey, and the interpolated column
    divided by its sum for any other column, so that its entry at that point
    is 0, or 0 divided by the sum. *)
Theorem interp_va_zero_below_table
    (df : DataFrame num) (vglvls : list num) (vgtop psfc : num)
    (metakeys : option (list string)) (pressure : list num)
    (key : string) (fp : list num) (i : nat) (xi : num) :
  wf_table df pressure ->
  (key, fp) ∈ columns df ->
  key ≠ "Sigma" ->
  List.tl vglvls !! i = Some xi ->
  Forall (fun p => nlt xi p = true) (normalize vgtop psfc pressure) ->
  exists outdf col v,
    interp_va df vglvls vgtop psfc metakeys = Ok outdf
    /\ odict_get key (columns outdf) = Some col
    /\ np_interp (List.tl vglvls)
                 (orient (inverted (normalize vgtop psfc pressure))
                         (normalize vgtop psfc pressure))
                 (orient (inverted (normalize vgtop psfc pressure)) fp)
                 nzero = Ok v
    /\ v !! i = Some nzero
    /\ col = (if in_keys key (default default_metakeys metakeys)
              then v else renormalize v)
    /\ col !! i
       = Some (if in_keys key (default default_metakeys metakeys)
               then nzero else ndiv nzero (nsum v)).
Proof.
  intros Hwf Hin Hkey Hi Hbelow.
  destruct (interp_va_column df vglvls vgtop psfc metakeys pressure key fp
              Hwf Hin Hkey) as (outdf & Hrun & Hcol).
  destruct Hwf as (_ & Hne & _ & Hlens).
  rewrite Forall_forall in Hlens. pose proof (Hlens _ Hin) as Hlen.
  cbn [snd] in Hlen.
  pose proof (interpolated_values vglvls vgtop psfc pressure fp Hne Hlen)
    as Hval.
  unfold interpolated in Hval.
  set (xp := normalize vgtop psfc pressure) in *.
  set (v := interp_values vglvls vgtop psfc pressure fp) in *.
  assert (Hxp : xp ≠ []).
  { intros E. apply (f_equal (@length _)) in E.
    unfold xp in E. rewrite length_normalize in E. by destruct pressure. }
  assert (Hv : v !! i = Some nzero).
  { unfold v, interp_values. fold xp.
    rewrite list_lookup_fmap, Hi. simpl. f_equal.
    apply interp_point_below;
      [by rewrite orient_nil|apply oriented_not_inverted|].
    rewrite Forall_forall in Hbelow. apply Hbelow.
    apply orient_elem_of with (b := inverted xp). apply hd_elem_of.
    by rewrite orient_nil. }
  exists outdf. eexists. exists v. split; [done|]. split; [exact Hcol|].
  split; [done|]. split; [done|].
  unfold out_column. cbn zeta. cbn [fst snd]. fold v. split; [done|].
  destruct (in_keys key (default default_metakeys metakeys)); [done|].
  unfold renormalize. by rewrite list_lookup_fmap, Hv.
Qed.

End InterpVaTable.

(** C2, amended. In exact arithmetic, for a column of the table that is not
    listed in [metakeys] and is not named Sigma: if its interpolated values
    have a finite sum other than zero, the column of the table [interp_va]
    returns is the interpolated column divided by that sum, and it sums to 1
    over the output rows. *)
Theorem interp_va_renormalized_sum
    (df : DataFrame xq) (vglvls : list xq) (vgtop psfc : xq)
    (metakeys : option (list string)) (pressure : list xq)
    (key : string) (fp v : list xq) (s : Qc) :
  wf_table df pressure ->
  (key, fp) ∈ columns df ->
  in_keys key (default default_metakeys metakeys) = false ->
  key ≠ "Sigma" ->
  interpolated vglvls vgtop psfc pressure fp = Ok v ->
  nsum v = Fin s ->
  s ≠ 0%Qc ->
  exists outdf col,
    interp_va df vglvls vgtop psfc metakeys = Ok outdf
    /\ odict_get key (columns outdf) = Some col
    /\ col = renormalize v
    /\ nsum col = Fin 1.
Proof.
  intros Hwf Hin Hmeta Hkey Hv Hs Hs0.
  destruct (interp_va_column df vglvls vgtop psfc metakeys pressure key fp)
    as (outdf & Hrun & Hcol); try done.
  exists outdf, (renormalize v). split; [done|].
  assert (Hval : interp_values vglvls vgtop psfc pressure fp = v).
  { destruct Hwf as (_ & Hne & _ & Hlen). rewrite Forall_forall in Hlen.
    rewrite interpolated_values in Hv; [congruence|done|].
    by apply (Hlen (key, fp)). }
  split.
  - rewrite Hcol. simpl. by rewrite Hmeta, Hval.
  - split; [done|]. by eapply nsum_renormalize.
Qed.

(** ** The expansion of a gridded array *)

Section Expand.
Context {num : Type} `{Arith num}.

Lemma mapR_map {A B} (f : A -> result B) (g : A -> B) (l : list A) :
  Forall (fun a => f a = Ok (g a)) l -> mapR f l = Ok (map g l).
Proof.
  induction 1 as [|a l Ha _ IH]; simpl; [done|]. by rewrite Ha, IH.
Qed.

Lemma zip_with_replicate_r {A B C} (f : A -> B -> C) (l : list A) (b : B) :
  zip_with f l (replicate (length l) b) = map (fun a => f a b) l.
Proof. induction l as [|a l IH]; simpl; [done|]. by rewrite IH. Qed.

Lemma slice_array_gridded nz (d : list (list (plane num))) :
  nz ≠ 0 ->
  Forall (fun layers => layers ≠ []) d ->
  slice_array nz (Float4 d)
  = Ok (Float4 (map (fun layers => replicate nz (List.hd [] layers)) d)).
Proof.
  intros Hnz Hd. cbn [slice_array].
  rewrite (mapR_map _ (fun layers => replicate nz (List.hd [] layers))).
  - done.
  - eapply Forall_impl; [exact Hd|]. intros [|p ps] Hne; [done|].
    by destruct nz.
Qed.

Lemma expand_array_gridded lf key (d : list (list (plane num))) :
  lf ≠ [] ->
  Forall (fun layers => layers ≠ []) d ->
  String.eqb key "TFLAG" = false ->
  expand_array lf key (Float4 d)
  = Ok (Float4 (map (fun layers =>
                       map (fun f => scale_plane f (List.hd [] layers)) lf) d)).
Proof.
  intros Hlf Hd Hkey. unfold expand_array.
  rewrite slice_array_gridded by (try done; by destruct lf).
  cbn [rbind]. rewrite Hkey.
  cbn [imul_layers].
  rewrite (mapR_map _ (fun layers => zip_with scale_plane lf layers)).
  - cbn [rbind]. do 2 f_equal. rewrite map_map. apply map_ext.
    intros layers. apply zip_with_replicate_r.
  - apply Forall_forall. intros layers Hin.
    apply list_elem_of_fmap in Hin as (l0 & -> & _).
    unfold scale_layers. by rewrite length_replicate, Nat.eqb_refl.
Qed.

Lemma expand_array_stamp lf key (a : ndarray num) :
  lf ≠ [] ->
  String.eqb key "TFLAG" = true ->
  match a with Float4 d => Forall (fun layers => layers ≠ []) d | Int3 _ => True end ->
  exists b, expand_array lf key a = Ok b.
Proof.
  intros Hlf Hkey Ha. unfold expand_array. destruct a as [d|d].
  - rewrite slice_array_gridded by (try done; by destruct lf).
    cbn [rbind]. rewrite Hkey. eauto.
  - simpl. rewrite Hkey. eauto.
Qed.

(** On a file with IOAPI structure [make3d] returns, given a fraction. *)
Lemma ioapi_field_expands lf h f :
  lf ≠ [] ->
  ioapi_field h f ->
  Forall (fun v : string * loc =>
            exists a b, h !! v.2 = Some a /\ expand_array lf v.1 a = Ok b)
         (variables f).
Proof.
  intros Hlf Hf. eapply Forall_impl; [exact Hf|]. intros [k l] (a & Ha & Hk).
  simpl in *. exists a. destruct (String.eqb k "TFLAG") eqn:E.
  - destruct (expand_array_stamp lf k a Hlf E) as [b Hb]; [|by eauto].
    by destruct a.
  - destruct a as [d|d].
    + rewrite expand_array_gridded by done. eauto.
    + apply String.eqb_neq in E. done.
Qed.

End Expand.

(** ** Conservation in exact arithmetic *)

Lemma Forall_finite (l : list xq) :
  Forall finite l -> exists qs, l = map Fin qs.
Proof.
  induction 1 as [|a l [q ->] _ [qs ->]]; [by exists []|]. by exists (q :: qs).
Qed.

Lemma plane_finite (p : plane xq) :
  Forall (Forall finite) p -> exists pq, p = qplane pq.
Proof.
  induction 1 as [|r p Hr _ [pq ->]]; [by exists []|].
  apply Forall_finite in Hr as [qs ->]. by exists (qs :: pq).
Qed.

Lemma scale_qplane (f : Qc) (pq : list (list Qc)) :
  scale_plane (Fin f) (qplane pq) = qplane (map (map (fun v => v * f)%Qc) pq).
Proof.
  unfold scale_plane, qplane. rewrite !map_map. apply map_ext. intros r.
  rewrite !map_map. by apply map_ext.
Qed.

Lemma zip_with_map_same {A B C D} (f : B -> C -> D) (g1 : A -> B) (g2 : A -> C)
    (l : list A) :
  zip_with f (map g1 l) (map g2 l) = map (fun a => f (g1 a) (g2 a)) l.
Proof. induction l as [|a l IH]; simpl; [done|]. by rewrite IH. Qed.

Lemma plane_add_scaled (a b : Qc) (pq : list (list Qc)) :
  plane_add (qplane (map (map (fun v => v * a)%Qc) pq))
            (qplane (map (map (fun v => v * b)%Qc) pq))
  = qplane (map (map (fun v => v * (a + b))%Qc) pq).
Proof.
  unfold plane_add, qplane. rewrite !map_map.
  rewrite zip_with_map_same. apply map_ext. intros r.
  rewrite !map_map. rewrite zip_with_map_same. apply map_ext. intros v.
  simpl. by rewrite Qcmult_plus_distr_r.
Qed.

Lemma foldl_plane_add_scaled (a : Qc) (qs : list Qc) (pq : list (list Qc)) :
  foldl plane_add (qplane (map (map (fun v => v * a)%Qc) pq))
        (map (fun f => scale_plane f (qplane pq)) (map Fin qs))
  = qplane (map (map (fun v => v * (a + Qcsum qs))%Qc) pq).
Proof.
  revert a. induction qs as [|q qs IH]; intros a; simpl.
  - by rewrite Qcplus_0_r.
  - rewrite scale_qplane, plane_add_scaled, IH. by rewrite Qcplus_assoc.
Qed.

(** The layers [v * f_k] of a finite plane add up to [v * sum f]. *)
Lemma sum_lay_scaled (lf : list xq) (p : plane xq) :
  nsum lf = Fin 1 ->
  Forall (Forall finite) p ->
  sum_lay (map (fun f => scale_plane f p) lf) = p.
Proof.
  intros Hsum Hp. apply nsum_Fin_inv in Hsum as (qs & -> & Hqs).
  apply plane_finite in Hp as [pq ->].
  destruct qs as [|q qs]; [done|]. simpl.
  rewrite scale_qplane, foldl_plane_add_scaled.
  simpl in Hqs. rewrite <- Hqs. unfold qplane. rewrite map_map.
  apply map_ext. intros r. rewrite map_map.
  apply map_ext. intros v. by rewrite Qcmult_1_r.
Qed.

Lemma Forall2_Forall_l {A B} (P : A -> Prop) (R Q : A -> B -> Prop) l l' :
  Forall P l -> Forall2 R l l' ->
  (forall a b, P a -> R a b -> Q a b) ->
  Forall2 Q l l'.
Proof.
  intros HP HR HQ. induction HR as [|a b l l' Hab _ IH]; [constructor|].
  apply Forall_cons in HP as [Ha HP]. constructor; auto.
Qed.

(** C1, amended. Conservation, in exact arithmetic (no rounding). For a field
    with IOAPI structure whose gridded variables have one layer and finite
    values, and layer fractions that sum to 1, [make3d] returns a field with
    NLAYS the number of fractions in which every variable other than the time
    stamp holds, at every time step, one layer per fraction, the layer of the
    input times that fraction, and summed over the LAY axis is the variable
    of the input; so 10 with the fractions 1/4 and 3/4 gives the layers 5/2
    and 15/2 ([make3d_quarters]). In binary64 the products are rounded and
    the sum can miss the input ([make3d_conserves_counterexample]). *)
Theorem make3d_conserves
    (infile : File xq) (layerfractions vglvls : list xq) (h : heap xq) :
  ioapi_field h infile ->
  single_layer h infile ->
  finite_data h infile ->
  nsum layerfractions = Fin 1 ->
  exists outfile h',
    make3d infile layerfractions vglvls h = (Ok outfile, h')
    /\ NLAYS outfile = Some (length layerfractions)
    /\ Forall2 (fun v v' : string * loc =>
                  v'.1 = v.1
                  /\ (v.1 ≠ "TFLAG" ->
                      exists d d',
                        h !! v.2 = Some (Float4 d)
                        /\ h' !! v'.2 = Some (Float4 d')
                        /\ d' = map (fun layers =>
                                       map (fun f =>
                                              scale_plane f (List.hd [] layers))
                                           layerfractions) d
                        /\ map (fun layers => [sum_lay layers]) d' = d))
               (variables infile) (variables outfile).
Proof.
  intros Hio Hone Hfin Hsum.
  assert (Hlf : layerfractions ≠ []).
  { intros ->. apply (f_equal view) in Hsum. vm_compute in Hsum.
    discriminate. }
  destruct (make3d_run infile layerfractions vglvls h) as (out & h' & Hrun & Hrel).
  { by apply ioapi_field_expands. }
  exists out, h'. split; [done|].
  apply make3d_frame in Hrun as [_ Hfr].
  destruct (Hfr out eq_refl) as (Hn & _). split; [done|]. clear Hfr Hn.
  eapply (Forall2_Forall_l (fun v => v ∈ variables infile)); [|exact Hrel|].
  { apply Forall_forall. auto. }
  intros v v' Hvin Hv.
  unfold ioapi_field in Hio. rewrite Forall_forall in Hio.
  destruct (Hio v Hvin) as (a0 & Ha0 & Hkind).
  destruct Hv as (Hk & a & b & Ha & Hb & Hb'). split; [done|].
  intros Hkey. assert (a0 = a) as -> by congruence.
  destruct a as [d|d]; [|done].
  apply String.eqb_neq in Hkey.
  rewrite expand_array_gridded in Hb by done. injection Hb as <-.
  exists d. eexists. split; [done|]. split; [done|]. split; [done|].
  specialize (Hone v d Hvin Ha). specialize (Hfin v d Hvin Ha).
  rewrite map_map. rewrite <- (map_id d) at 2. apply map_ext_Forall.
  rewrite Forall_forall in Hone, Hfin. apply Forall_forall.
  intros layers Hl. specialize (Hone layers Hl). specialize (Hfin layers Hl).
  destruct layers as [|p [|]]; try done. simpl List.hd.
  apply Forall_cons in Hfin as [Hp _]. by rewrite sum_lay_scaled.
Qed.

(** ** A sector whose interpolated values sum to zero *)

Lemma xq_mul_nonfinite (v f : xq) : nonfinite f -> nonfinite (xq_mul v f).
Proof.
  unfold nonfinite. intros [->|[->| ->]]; destruct v as [q| | |]; simpl; auto;
    destruct (Qceqb q 0); auto; destruct (Qcltb q 0); simpl; auto.
Qed.

Lemma scale_plane_nonfinite (f : xq) (p : plane xq) :
  nonfinite f -> Forall (Forall nonfinite) (scale_plane f p).
Proof.
  intros Hf. unfold scale_plane. apply Forall_forall. intros r Hr.
  apply list_elem_of_fmap in Hr as (r0 & -> & _).
  apply Forall_forall. intros c Hc.
  apply list_elem_of_fmap in Hc as (v & -> & _). by apply xq_mul_nonfinite.
Qed.

(** C3, amended. In exact arithmetic with the IEEE special values, for a
    column that is not listed in [metakeys] and is not named Sigma and whose
    interpolated values, at one target point or more, sum to 0: [interp_va]
    returns without an exception, and every entry of the renormalized column
    is NaN or an infinity, NaN wherever the interpolated value is 0; with
    that column as layer fractions, [make3d] returns on every field with
    IOAPI structure, and every cell of every layer of every data variable is
    NaN or an infinity. *)
Theorem zero_sum_sector_yields_nan
    (df : DataFrame xq) (vglvls : list xq) (vgtop psfc : xq)
    (metakeys : option (list string)) (pressure : list xq)
    (key : string) (fp v : list xq) :
  wf_table df pressure ->
  (key, fp) ∈ columns df ->
  in_keys key (default default_metakeys metakeys) = false ->
  key ≠ "Sigma" ->
  interpolated vglvls vgtop psfc pressure fp = Ok v ->
  v ≠ [] ->
  nsum v = Fin 0 ->
  exists outdf col,
    interp_va df vglvls vgtop psfc metakeys = Ok outdf
    /\ odict_get key (columns outdf) = Some col
    /\ length col = length v
    /\ Forall nonfinite col
    /\ (forall i, v !! i = Some (Fin 0) -> col !! i = Some NaN)
    /\ forall (infile : File xq) (vglvls' : list xq) (h : heap xq),
         ioapi_field h infile ->
         exists outfile h',
           make3d infile col vglvls' h = (Ok outfile, h')
           /\ Forall2 (fun x x' : string * loc =>
                         x'.1 = x.1
                         /\ (x.1 ≠ "TFLAG" ->
                             exists d',
                               h' !! x'.2 = Some (Float4 d')
                               /\ Forall (fun layers => length layers = length col) d'
                               /\ Forall (Forall (Forall (Forall nonfinite))) d'))
                      (variables infile) (variables outfile).
Proof.
  intros Hwf Hin Hmeta Hkey Hv Hvne Hs.
  destruct (interp_va_column df vglvls vgtop psfc metakeys pressure key fp)
    as (outdf & Hrun & Hcol); try done.
  assert (Hval : interp_values vglvls vgtop psfc pressure fp = v).
  { destruct Hwf as (_ & Hne & _ & Hlen). rewrite Forall_forall in Hlen.
    rewrite interpolated_values in Hv; [congruence|done|].
    by apply (Hlen (key, fp)). }
  simpl in Hcol. rewrite Hmeta, Hval in Hcol.
  destruct (renormalize_zero_sum v Hs) as (Hnf & Hnan & Hlen).
  exists outdf, (renormalize v). do 5 (split; [done|]).
  intros infile vglvls' h Hio.
  assert (Hlf : renormalize v ≠ []).
  { intros E. apply (f_equal (@length _)) in E. rewrite Hlen in E.
    by destruct v. }
  destruct (make3d_run infile (renormalize v) vglvls' h)
    as (out & h' & Hmk & Hrel).
  { by apply ioapi_field_expands. }
  exists out, h'. split; [done|].
  eapply (Forall2_Forall_l (fun x => x ∈ variables infile)); [|exact Hrel|].
  { apply Forall_forall. auto. }
  intros x x' Hxin (Hk & a & b & Ha & Hb & Hb'). split; [done|].
  intros Hx. unfold ioapi_field in Hio. rewrite Forall_forall in Hio.
  destruct (Hio x Hxin) as (a0 & Ha0 & Hkind).
  assert (a0 = a) as -> by congruence.
  destruct a as [d|d]; [|done].
  apply String.eqb_neq in Hx.
  rewrite expand_array_gridded in Hb by done. injection Hb as <-.
  eexists. split; [done|]. split.
  - apply Forall_forall. intros layers Hl.
    apply list_elem_of_fmap in Hl as (l0 & -> & _). apply length_map.
  - apply Forall_forall. intros layers Hl.
    apply list_elem_of_fmap in Hl as (l0 & -> & _).
    apply Forall_forall. intros p Hp.
    apply list_elem_of_fmap in Hp as (f & -> & Hf).
    apply scale_plane_nonfinite. rewrite Forall_forall in Hnf. auto.
Qed.

(** ** The resident profile *)

Section Profile.
Context {num : Type} `{Arith num}.

Lemma rbind_Ok {A B} (r : result A) (k : A -> result B) b :
  rbind r k = Ok b -> exists a, r = Ok a /\ k a = Ok b.
Proof. destruct r as [a|e]; simpl; [eauto|done]. Qed.

Lemma interp_va_index (df : DataFrame num) vglvls vgtop psfc mk outdf :
  interp_va df vglvls vgtop psfc mk = Ok outdf ->
  index outdf = seq 0 (length (List.tl vglvls)).
Proof.
  unfold interp_va. destruct (odict_get "Pressure" (columns df)); [|done].
  destruct (normalize vgtop psfc l); [done|].
  intros (out & _ & [= <-])%rbind_Ok. done.
Qed.

Lemma candidate_rows_index (interp : DataFrame num) n :
  index interp = seq 0 n ->
  index (candidate_rows interp) = seq 0 (nrows (candidate_rows interp))
  /\ 0 < nrows (candidate_rows interp).
Proof.
  intros Hidx. unfold candidate_rows, loc_set_cell, nrows. simpl. rewrite Hidx.
  destruct n as [|n]; simpl.
  - split; [done|lia].
  - rewrite length_seq. split; [done|lia].
Qed.

Lemma drop_columns_index keys (df dropped : DataFrame num) :
  drop_columns keys df = Ok dropped -> index dropped = index df.
Proof.
  unfold drop_columns. destruct (List.find _ keys); [done|]. by intros [= <-].
Qed.

Lemma layerused_lookup prune keys (df dropped : DataFrame num) mask :
  drop_columns keys df = Ok dropped ->
  layerused prune keys df = Ok mask ->
  length mask = nrows df
  /\ forall i, i < nrows df ->
       mask !! i
       = Some (negb prune || Nat.eqb i 0
               || nlt nzero (nsum (row_values dropped i))).
Proof.
  intros Hdrop. unfold layerused. rewrite Hdrop. simpl.
  pose proof (drop_columns_index _ _ _ Hdrop) as Hidx.
  unfold row_sums_positive, nrows. rewrite Hidx.
  destruct (length (index df)) as [|n] eqn:En; [done|].
  cbn [seq map]. intros [= <-]. split.
  - destruct prune; simpl; by rewrite ?length_map, ?length_seq.
  - intros i Hi. destruct prune; simpl.
    + destruct i as [|i]; [done|]. simpl.
      rewrite list_lookup_fmap, lookup_seq_lt by lia. done.
    + change (true :: map (fun _ => true) (map (fun i => nlt nzero (nsum (row_values dropped i))) (seq 1 n)))
        with (map (fun _ : bool => true) (true :: map (fun i => nlt nzero (nsum (row_values dropped i))) (seq 1 n))).
      rewrite list_lookup_fmap.
      destruct (lookup_lt_is_Some_2
        (true :: map (fun i => nlt nzero (nsum (row_values dropped i))) (seq 1 n)) i)
        as [b ->]; [|done].
      simpl. rewrite length_map, length_seq. lia.
Qed.

Lemma elem_of_mask_select_seq mask s n i :
  length mask = n ->
  i ∈ mask_select mask (seq s n) <-> s <= i < s + n /\ mask !! (i - s) = Some true.
Proof.
  revert s n. induction mask as [|b mask IH]; intros s n Hlen.
  - simpl in Hlen. subst n. simpl. split; [by intros ?%elem_of_nil|lia].
  - destruct n as [|n]; [done|]. simpl in Hlen. injection Hlen as Hlen.
    cbn [seq mask_select].
    assert (Hrest : i ∈ mask_select mask (seq (S s) n)
                    <-> S s <= i < S s + n /\ mask !! (i - S s) = Some true)
      by by apply IH.
    destruct (decide (i = s)) as [->|Hne].
    + replace (s - s) with 0 by lia. simpl. destruct b.
      * split; [intros _; split; [lia|done]|]. intros _. left.
      * rewrite Hrest. split; [lia|]. by intros [_ [=]].
    + assert (Hi : forall (P : Prop), (S s <= i < S s + n /\ P) <-> (s <= i < s + S n /\ P))
        by (intros P; split; intros [? ?]; split; (lia || done)).
      destruct (decide (s < i)) as [Hlt|Hge].
      * replace (i - s) with (S (i - S s)) by lia. simpl. rewrite <- Hi, <- Hrest.
        destruct b; [|done]. rewrite elem_of_cons. naive_solver.
      * split; [|lia]. intros Hin.
        assert (Hin' : i ∈ mask_select mask (seq (S s) n)).
        { destruct b; [|done]. apply elem_of_cons in Hin as [?|?]; done. }
        apply Hrest in Hin'. lia.
Qed.




Lemma loc_set_column_Ok key v (df df' : DataFrame num) :
  loc_set_column key v df = Ok df' ->
  nrows df ≠ 0 /\ df' = set_column key v df.
Proof.
  unfold loc_set_column. destruct (Nat.eqb_spec (nrows df) 0); [done|].
  by intros [= <-].
Qed.


End Profile.

Section ProfileShape.
Context {num : Type} `{Arith num}.

Lemma odict_set_Forall {V} (P : string * V -> Prop) k v d :
  P (k, v) -> Forall P d -> Forall P (odict_set k v d).
Proof.
  intros Hkv. induction 1 as [|[k' v'] d Hc Hd IH]; simpl.
  - by constructor.
  - destruct (String.eqb k k'); constructor; auto.
Qed.

Lemma np_interp_length (x xp fp : list num) lval v :
  np_interp x xp fp lval = Ok v -> length v = length x.
Proof.
  unfold np_interp. destruct (Nat.eqb (length xp) 0); [done|].
  destruct (negb _); [done|]. intros [= <-]. apply length_map.
Qed.

Lemma interp_column_length (x xp : list num) inv mk key fp v :
  interp_column x xp inv mk key fp = Ok v -> length v = length x.
Proof.
  unfold interp_column. intros (v0 & Hv0 & [= <-])%rbind_Ok.
  apply np_interp_length in Hv0.
  destruct (in_keys key mk); [done|]. unfold renormalize.
  by rewrite length_map.
Qed.

Lemma interp_columns_length (x xp : list num) inv mk cols out out' :
  Forall (fun c : string * list num => length c.2 = length x) out ->
  interp_columns x xp inv mk cols out = Ok out' ->
  Forall (fun c : string * list num => length c.2 = length x) out'.
Proof.
  revert out. induction cols as [|[k fp] cols IH]; intros out Hout; simpl.
  - by intros [= <-].
  - intros (v & Hv & Hrest)%rbind_Ok. eapply IH; [|exact Hrest].
    apply odict_set_Forall; [|done]. simpl. by eapply interp_column_length.
Qed.

Lemma interp_va_rectangular (df : DataFrame num) vglvls vgtop psfc mk outdf :
  interp_va df vglvls vgtop psfc mk = Ok outdf -> rectangular outdf.
Proof.
  unfold interp_va. destruct (odict_get "Pressure" (columns df)); [|done].
  destruct (normalize vgtop psfc l) eqn:En; [done|]. rewrite <- En.
  intros (out & Hout & [= <-])%rbind_Ok. unfold rectangular, nrows. simpl.
  rewrite length_seq. apply odict_set_Forall; [done|].
  eapply interp_columns_length; [|exact Hout]. constructor.
Qed.

Lemma candidate_rows_rectangular (interp : DataFrame num) n :
  index interp = seq 0 n ->
  rectangular interp -> rectangular (candidate_rows interp).
Proof.
  intros Hidx Hrect. unfold rectangular, candidate_rows, loc_set_cell.
  set (df := set_column "LAYER1" nzero interp).
  assert (Hdf : Forall (fun c : string * list num => length c.2 = nrows df)
                       (columns df)).
  { unfold df, set_column, nrows. simpl.
    apply odict_set_Forall; [simpl; by rewrite length_replicate|done]. }
  destruct (label_pos 0 (index df)) as [i|]; unfold nrows in *; simpl.
  - apply Forall_forall. intros c Hc.
    apply list_elem_of_fmap in Hc as (c0 & -> & Hc0).
    rewrite Forall_forall in Hdf. specialize (Hdf c0 Hc0).
    destruct (String.eqb c0.1 "LAYER1"); simpl in *; [|done].
    by rewrite length_insert.
  - apply Forall_forall. intros c Hc.
    apply list_elem_of_fmap in Hc as (c0 & -> & Hc0).
    rewrite Forall_forall in Hdf. specialize (Hdf c0 Hc0). simpl.
    rewrite !length_app. simpl in *. lia.
Qed.

Lemma length_mask_select {A B} (mask : list bool) (a : list A) (b : list B) :
  length a = length b ->
  length (mask_select mask a) = length (mask_select mask b).
Proof.
  revert a b. induction mask as [|m mask IH]; intros [|x a] [|y b]; try done.
  simpl. intros [= Hlen]. destruct m; simpl; auto.
Qed.

Lemma loc_mask_rectangular mask (df : DataFrame num) :
  rectangular df -> rectangular (loc_mask mask df).
Proof.
  unfold rectangular, loc_mask, nrows. simpl. intros Hdf.
  apply Forall_forall. intros c Hc.
  apply list_elem_of_fmap in Hc as (c0 & -> & Hc0). simpl.
  rewrite Forall_forall in Hdf. by apply length_mask_select, Hdf.
Qed.

(** What the constructor leaves in the object. *)
Lemma Vertical_init_inv csv edges outvgtop pressurekey sigmakey csvvgtop
    mk psfc prune (self : Vertical num) :
  Vertical_init csv edges outvgtop pressurekey sigmakey csvvgtop
                mk psfc prune = Ok self ->
  outvglvls self = edges
  /\ exists interp mask,
       interp_va (indf self) (List.tl edges) outvgtop psfc
                 (Some (metakeys self)) = Ok interp
       /\ layerused prune (metakeys self) (candidate_rows interp) = Ok mask
       /\ outdf self = loc_mask mask (candidate_rows interp).
Proof.
  unfold Vertical_init. intros Hinit.
  apply rbind_Ok in Hinit as (indf0 & _ & Hinit).
  apply rbind_Ok in Hinit as (interp & Hinterp & Hinit).
  apply rbind_Ok in Hinit as (cand & Hcand & Hinit).
  apply rbind_Ok in Hinit as (mask & Hmask & [= <-]).
  apply loc_set_column_Ok in Hcand as [_ ->].
  simpl. split; [done|]. by exists interp, mask.
Qed.


Lemma Vertical_init_rectangular csv outvglvls outvgtop pressurekey sigmakey
    csvvgtop mk psfc prune (self : Vertical num) :
  Vertical_init csv outvglvls outvgtop pressurekey sigmakey csvvgtop
                mk psfc prune = Ok self ->
  rectangular (outdf self).
Proof.
  intros (_ & interp & mask & Hinterp & _ & ->)%Vertical_init_inv.
  apply loc_mask_rectangular.
  eapply candidate_rows_rectangular.
  - by eapply interp_va_index.
  - by eapply interp_va_rectangular.
Qed.

End ProfileShape.

(** ** Sector resolution *)

Section Sectors.
Context {num : Type} `{Arith num}.

Lemma scan_sectors_spec d assigned isnone :
  (scan_sectors d assigned isnone).2 = isnone ++ none_sectors d
  /\ forall k, k ∈ (scan_sectors d assigned isnone).1
               <-> k ∈ assigned \/ explicitly_assigned d k.
Proof.
  revert assigned isnone.
  induction d as [|[sector [varkeys|]] d IH]; intros assigned isnone; simpl.
  - split; [by rewrite app_nil_r|]. intros k. split; [auto|].
    intros [?|(s & vs & Hin & _)]; [done|]. by apply elem_of_nil in Hin.
  - destruct (IH (assigned ++ varkeys) isnone) as [Hn Ha].
    split; [done|]. intros k. rewrite Ha, elem_of_app. split.
    + intros [[?|?]|(s & vs & Hin & Hk)]; [by left| |].
      * right. exists sector, varkeys. split; [left|done].
      * right. exists s, vs. split; [by right|done].
    + intros [?|(s & vs & Hin & Hk)]; [by left; left|].
      apply elem_of_cons in Hin as [[= -> ->]|Hin]; [by left; right|].
      right. by exists s, vs.
  - destruct (IH assigned (isnone ++ [sector])) as [Hn Ha].
    split.
    + rewrite Hn. unfold none_sectors. simpl. by rewrite <- app_assoc.
    + intros k. rewrite Ha. split.
      * intros [?|(s & vs & Hin & Hk)]; [by left|].
        right. exists s, vs. split; [by right|done].
      * intros [?|(s & vs & Hin & Hk)]; [by left|].
        apply elem_of_cons in Hin as [[=]|Hin]. right. by exists s, vs.
Qed.

Lemma lay_keys_frame vars (h : heap num) r h' :
  lay_keys vars h = (r, h') -> h' = h.
Proof.
  revert r h'. induction vars as [|[k l] vars IH]; intros r h'; simpl.
  - by intros [= _ <-].
  - intros Hrun.
    apply mbind_inv in Hrun as [(e & Hld & _)|(a & h1 & Hld & Hrun)].
    { by apply load_inv in Hld as [-> _]. }
    apply load_inv in Hld as [-> _].
    apply mbind_inv in Hrun as [(e & Hr & _)|(rest & h1 & Hr & Hrun)].
    { by apply IH in Hr. }
    apply IH in Hr as ->. by inversion Hrun.
Qed.

Lemma lay_keys_run vars (h : heap num) :
  Forall (fun v : string * loc => is_Some (h !! v.2)) vars ->
  exists all_keys,
    lay_keys vars h = (Ok all_keys, h)
    /\ forall k, k ∈ all_keys
                 <-> exists l d, (k, l) ∈ vars /\ h !! l = Some (Float4 d).
Proof.
  induction 1 as [|[k l] vars [a Ha] _ (rest & Hrest & Hspec)]; simpl in *.
  - exists []. split; [done|]. intros k. split; [by intros ?%elem_of_nil|].
    intros (l & d & Hin & _). by apply elem_of_nil in Hin.
  - exists (if in_keys "LAY" (dimensions a) then k :: rest else rest). split.
    { unfold mbind at 1. unfold load. rewrite Ha.
      unfold mbind at 1. by rewrite Hrest. }
    intros k'. destruct a as [d|d]; simpl.
    + rewrite elem_of_cons, Hspec. split.
      * intros [->|(l' & d' & Hin & Hl')].
        -- exists l, d. split; [left|done].
        -- exists l', d'. split; [by right|done].
      * intros (l' & d' & Hin & Hl').
        apply elem_of_cons in Hin as [[= -> ->]|Hin]; [by left|].
        right. eauto.
    + rewrite Hspec. split.
      * intros (l' & d' & Hin & Hl'). exists l', d'. split; [by right|done].
      * intros (l' & d' & Hin & Hl').
        apply elem_of_cons in Hin as [[= -> ->]|Hin]; [congruence|]. eauto.
Qed.

Lemma elem_of_set_difference all_keys assigned_keys k :
  k ∈ set_difference all_keys assigned_keys
  <-> k ∈ all_keys /\ k ∉ assigned_keys.
Proof.
  unfold set_difference.
  rewrite elem_of_elements, elem_of_difference, !elem_of_list_to_set. done.
Qed.

End Sectors.

Section ResolveFacts.
Context {num : Type} `{Arith num}.

Lemma resolve_default_many all_keys d :
  1 < length (none_sectors d) ->
  exists msg, resolve_default all_keys d = Raise (ValueError msg).
Proof.
  intros Hmany. unfold resolve_default.
  destruct (scan_sectors d [] []) as [assigned isnone] eqn:E.
  destruct (scan_sectors_spec d [] []) as [Hn _]. rewrite E in Hn.
  simpl in Hn. subst isnone.
  destruct (Nat.ltb_spec 1 (length (none_sectors d))); [eauto|lia].
Qed.

Lemma resolve_default_one all_keys d sector :
  none_sectors d = [sector] ->
  exists varkeys,
    resolve_default all_keys d = Ok (odict_set sector (Some varkeys) d)
    /\ forall k, k ∈ varkeys <-> k ∈ all_keys /\ ~ explicitly_assigned d k.
Proof.
  intros Hone. unfold resolve_default.
  destruct (scan_sectors d [] []) as [assigned isnone] eqn:E.
  destruct (scan_sectors_spec d [] []) as [Hn Ha]. rewrite E in Hn, Ha.
  simpl in Hn, Ha. subst isnone. rewrite Hone. simpl.
  eexists. split; [done|]. intros k.
  rewrite elem_of_set_difference, Ha. split.
  - intros [Hk Hnot]. split; [done|]. intros Hex. apply Hnot. by right.
  - intros [Hk Hnot]. split; [done|]. intros [Hnil|Hex]; [|done].
    by apply elem_of_nil in Hnil.
Qed.

Lemma none_sectors_lookup d sector :
  NoDup d.*1 -> none_sectors d = [sector] -> odict_get sector d = Some None.
Proof.
  intros Hnd Hone. apply odict_get_NoDup; [done|].
  assert (Hin : sector ∈ none_sectors d) by (rewrite Hone; left).
  unfold none_sectors in Hin.
  apply list_elem_of_fmap in Hin as ([s v] & -> & Hin).
  apply list_elem_of_In, filter_In in Hin as [Hin Hv].
  apply bool_decide_eq_true in Hv. simpl in Hv. subst v.
  by apply list_elem_of_In.
Qed.

End ResolveFacts.

(** ** allocate *)

Section Allocation.
Context {num : Type} `{Arith num}.
Variable subset : File num -> option (list string) -> M num (File num).
Variable stack : File num -> list (File num) -> M num (File num).

(** The contract of the two PseudoNetCDF calls: they change no array that is
    in the store, and stacking along TSTEP keeps the attributes of the first
    file and the number of layers. *)
Hypothesis subset_frame :
  forall f varkeys h r h', subset f varkeys h = (r, h') -> h ⊆ h'.
Hypothesis stack_frame :
  forall first others h r h', stack first others h = (r, h') -> h ⊆ h'.
Hypothesis stack_attrs :
  forall first others h out h',
    stack first others h = (Ok out, h') ->
    VGLVLS out = VGLVLS first /\ NLAYS out = NLAYS first.
Hypothesis stack_layers :
  forall n first others h out h',
    stack first others h = (Ok out, h') ->
    Forall (has_layers h n) (first :: others) ->
    has_layers h' n out.

Lemma has_layers_weaken h h' n f : h ⊆ h' -> has_layers h n f -> has_layers h' n f.
Proof.
  intros Hsub Hl. eapply Forall_impl; [exact Hl|].
  intros v (a & Ha & Hn). exists a.
  split; [|done]. by eapply lookup_weaken.
Qed.

Lemma allocate_sectors_frame self infile d h r h' :
  allocate_sectors subset self infile d h = (r, h') -> h ⊆ h'.
Proof.
  revert h r h'. induction d as [|[sector varkeys] d IH]; intros h r h'; simpl.
  - by intros [= _ <-].
  - destruct (odict_get sector (columns (outdf self))) as [lf|];
      [|by intros [= _ <-]].
    intros Hrun.
    apply mbind_inv in Hrun as [(e & Hs & _)|(sub & h1 & Hs & Hrun)].
    { by eapply subset_frame. }
    apply subset_frame in Hs.
    apply mbind_inv in Hrun as [(e & Hm & _)|(sf & h2 & Hm & Hrun)].
    { apply make3d_frame in Hm as [Hm _]. by etrans. }
    apply make3d_frame in Hm as [Hm _].
    apply mbind_inv in Hrun as [(e & Hr & _)|(rest & h3 & Hr & Hrun)].
    { apply IH in Hr. etrans; [done|]. by etrans. }
    apply IH in Hr. inversion Hrun; subst. etrans; [done|]. by etrans.
Qed.

Lemma allocate_sectors_layers self infile d h files h' n :
  Forall (fun c : string * list num => length c.2 = n) (columns (outdf self)) ->
  allocate_sectors subset self infile d h = (Ok files, h') ->
  Forall (fun f => NLAYS f = Some n
                   /\ VGLVLS f = Some (map to_single (outvglvls self))
                   /\ has_layers h' n f) files.
Proof.
  intros Hrect. revert h files h'.
  induction d as [|[sector varkeys] d IH]; intros h files h'; simpl.
  - intros [= <- _]. constructor.
  - destruct (odict_get sector (columns (outdf self))) as [lf|] eqn:Hlf;
      [|by intros [=]].
    assert (Hn : length lf = n).
    { apply odict_get_Some_elem in Hlf. rewrite Forall_forall in Hrect.
      by apply (Hrect (sector, lf)). }
    intros Hrun.
    apply mbind_inv in Hrun as [(e & _ & [=])|(sub & h1 & Hs & Hrun)].
    apply mbind_inv in Hrun as [(e & _ & [=])|(sf & h2 & Hm & Hrun)].
    apply mbind_inv in Hrun as [(e & _ & [=])|(rest & h3 & Hr & Hrun)].
    inversion Hrun; subst. clear Hrun.
    apply make3d_frame in Hm as [_ Hm].
    destruct (Hm sf eq_refl) as (Hnl & Hvg & _ & Hall).
    constructor; [|by eapply IH].
    split; [done|]. split; [done|].
    apply (has_layers_weaken h2); [by eapply allocate_sectors_frame|].
    eapply Forall_impl; [exact Hall|]. by intros v [_ ?].
Qed.

(** [allocate] changes no array that is in the store. *)
Lemma allocate_frame self infile alloc_keys h :
  h ⊆ (allocate subset stack self infile alloc_keys h).1.2.
Proof.
  unfold allocate.
  destruct (lay_keys (variables infile) h) as [[all_keys|e] h0] eqn:Hlay;
    apply lay_keys_frame in Hlay as ->; [|done].
  destruct (resolve_default all_keys _) as [d|e]; [|done].
  destruct (mbind _ _ h) as [r h'] eqn:Hrun. simpl.
  apply mbind_inv in Hrun as [(e & Hs & _)|(files & h1 & Hs & Hrun)].
  { by eapply allocate_sectors_frame. }
  apply allocate_sectors_frame in Hs. etrans; [done|].
  unfold stack_sectors in Hrun. destruct files as [|first others].
  - by inversion Hrun.
  - by eapply stack_frame.
Qed.

Lemma allocate_Ok_inv self infile alloc_keys h out h' alloc_keys' :
  allocate subset stack self infile alloc_keys h = (Ok out, h', alloc_keys') ->
  exists d first others h1,
    allocate_sectors subset self infile d h = (Ok (first :: others), h1)
    /\ stack first others h1 = (Ok out, h').
Proof.
  unfold allocate.
  destruct (lay_keys (variables infile) h) as [[all_keys|e] h0] eqn:Hlay;
    apply lay_keys_frame in Hlay as ->; [|done].
  destruct (resolve_default all_keys _) as [d|e]; [|done].
  destruct (mbind _ _ h) as [r h2] eqn:Hrun. intros [= -> -> _].
  apply mbind_inv in Hrun as [(e & _ & [=])|(files & h1 & Hs & Hrun)].
  unfold stack_sectors in Hrun. destruct files as [|first others]; [done|].
  eauto 10.
Qed.

(** C4, amended. For every field [allocate] returns, from an allocator that
    [Vertical.__init__] built: NLAYS is the number of rows of the resident
    profile, every gridded variable has that many layers at every time step,
    VGLVLS holds the edges [outvglvls] given to the constructor, each cast to
    a 32 bit float, and the resident profile consists of the rows that the
    mask of used layers (the one the constructor computes, [layerused])
    selects, in order, from the table that the constructor's call of
    [interp_va] returned, with its LAYER1 column. *)
Theorem allocate_vertical_metadata
    (csv : DataFrame num) (outvglvls : list num) (outvgtop : num)
    (pressurekey sigmakey : string) (csvvgtop : num)
    (mk : option (list string)) (psfc : num) (prune : bool)
    (self : Vertical num) (infile : File num) (alloc_keys : alloc_arg)
    (h : heap num) (outfile : File num) (h' : heap num)
    (alloc_keys' : alloc_arg) :
  Vertical_init csv outvglvls outvgtop pressurekey sigmakey csvvgtop
                mk psfc prune = Ok self ->
  allocate subset stack self infile alloc_keys h
  = (Ok outfile, h', alloc_keys') ->
  NLAYS outfile = Some (nrows (outdf self))
  /\ has_layers h' (nrows (outdf self)) outfile
  /\ VGLVLS outfile = Some (map to_single outvglvls)
  /\ exists interp mask,
       interp_va (indf self) (List.tl outvglvls) outvgtop psfc
                 (Some (metakeys self)) = Ok interp
       /\ layerused prune (metakeys self) (candidate_rows interp) = Ok mask
       /\ outdf self = loc_mask mask (candidate_rows interp).
Proof.
  intros Hinit Halloc.
  pose proof (Vertical_init_rectangular _ _ _ _ _ _ _ _ _ _ Hinit) as Hrect.
  apply Vertical_init_inv in Hinit as (Hvg & interp & mask & Hinterp & Hused & Hout).
  apply allocate_Ok_inv in Halloc as (d & first & others & h1 & Hsec & Hstack).
  pose proof (allocate_sectors_layers self infile d h
                (first :: others) h1 (nrows (outdf self)) Hrect Hsec) as Hfiles.
  destruct (stack_attrs _ _ _ _ _ Hstack) as [Hv Hn].
  pose proof Hfiles as Hfirst.
  apply Forall_cons in Hfirst as [(Hn1 & Hv1 & _) _].
  split; [congruence|]. split.
  - eapply stack_layers; [exact Hstack|].
    eapply Forall_impl; [exact Hfiles|]. by intros f (_ & _ & ?).
  - split; [congruence|]. by exists interp, mask.
Qed.

(** C9. [make3d] leaves every array of the store as it was, those of the input
    field among them, and the arrays of the field it returns are new;
    [allocate] leaves every array of the store as it was, given that subset
    and stack do. *)
Theorem input_field_unchanged :
  (forall (infile : File num) (layerfractions vglvls : list num)
          (h : heap num) r h',
     make3d infile layerfractions vglvls h = (r, h') ->
     h ⊆ h'
     /\ forall outfile, r = Ok outfile ->
          Forall (fun v : string * loc => v.2 ∉ dom h) (variables outfile))
  /\ (forall (self : Vertical num) (infile : File num) (alloc_keys : alloc_arg)
             (h : heap num),
        h ⊆ (allocate subset stack self infile alloc_keys h).1.2).
Proof.
  split.
  - intros infile lf vglvls h r h' Hrun.
    apply make3d_frame in Hrun as [Hsub Hout]. split; [done|].
    intros out ->. destruct (Hout out eq_refl) as (_ & _ & _ & Hall).
    eapply Forall_impl; [exact Hall|]. by intros v [? _].
  - intros. by apply allocate_frame.
Qed.

(** C7. On an open input file: if more than one sector of [alloc_keys] has
    [None], [allocate] raises a ValueError and leaves the store and the
    dictionary as they were; if exactly one sector has [None], the call leaves
    that sector with a list whose members are the variables that carry the
    LAY dimension and that no sector lists. With onroad: NOX, other: None and
    the variables NOX and CO, CO goes to other ([allocate_onroad_other]). *)
Theorem allocate_default_sector
    (self : Vertical num) (infile : File num) (d : alloc_dict) (h : heap num) :
  Forall (fun v : string * loc => is_Some (h !! v.2)) (variables infile) ->
  (1 < length (none_sectors d) ->
   exists msg,
     allocate subset stack self infile (SectorMap d) h
     = (Raise (ValueError msg), h, SectorMap d))
  /\ (forall sector, none_sectors d = [sector] ->
      exists varkeys,
        (allocate subset stack self infile (SectorMap d) h).2
        = SectorMap (odict_set sector (Some varkeys) d)
        /\ forall k, k ∈ varkeys
                     <-> eligible h infile k /\ ~ explicitly_assigned d k).
Proof.
  intros Hrefs.
  destruct (lay_keys_run (variables infile) h Hrefs) as (all_keys & Hlay & Hall).
  split.
  - intros Hmany.
    destruct (resolve_default_many all_keys d Hmany) as [msg Hres].
    exists msg. unfold allocate. by rewrite Hlay, Hres.
  - intros sector Hone.
    destruct (resolve_default_one all_keys d sector Hone) as (varkeys & Hres & Hk).
    exists varkeys. split.
    + unfold allocate. rewrite Hlay, Hres.
      by destruct (mbind _ _ h).
    + intros k. rewrite Hk. unfold eligible. by rewrite Hall.
Qed.

(** C10. When the dictionary passed to [allocate] has exactly one sector with
    [None], the call leaves the caller's dictionary changed: the sector, which
    had [None], has the list that was computed, which holds exactly the
    variables that carry the LAY dimension and that no sector lists; the
    other entries are as they were. *)
Theorem allocate_mutates_alloc_keys
    (self : Vertical num) (infile : File num) (d : alloc_dict) (h : heap num)
    (sector : string) :
  Forall (fun v : string * loc => is_Some (h !! v.2)) (variables infile) ->
  NoDup d.*1 ->
  none_sectors d = [sector] ->
  exists d' varkeys,
    (allocate subset stack self infile (SectorMap d) h).2 = SectorMap d'
    /\ odict_get sector d = Some None
    /\ odict_get sector d' = Some (Some varkeys)
    /\ d' ≠ d
    /\ d' = odict_set sector (Some varkeys) d
    /\ (forall k, k ∈ varkeys
                  <-> eligible h infile k /\ ~ explicitly_assigned d k)
    /\ (forall other, other ≠ sector ->
          odict_get other d' = odict_get other d).
Proof.
  intros Hrefs Hnd Hone.
  destruct (lay_keys_run (variables infile) h Hrefs) as (all_keys & Hlay & Hall).
  destruct (resolve_default_one all_keys d sector Hone) as (varkeys & Hres & Hk).
  pose proof (none_sectors_lookup d sector Hnd Hone) as Hget.
  exists (odict_set sector (Some varkeys) d), varkeys. split; [|split; [done|]].
  - unfold allocate. rewrite Hlay, Hres. by destruct (mbind _ _ h).
  - split; [apply odict_get_set_eq|]. split.
    { intros Heq.
      pose proof (odict_get_set_eq d sector (Some varkeys)) as Hset.
      rewrite Heq in Hset. congruence. }
    split; [done|]. split.
    + intros k. rewrite Hk. unfold eligible. by rewrite Hall.
    + intros other Hne. by apply odict_get_set_ne.
Qed.

End Allocation.

(** ** The model of subset and stack meets the contract *)

Section PncContract.
Context {num : Type} `{Arith num}.

Lemma pnc_subset_frame (f : File num) varkeys (h : heap num) r h' :
  pnc_subset f varkeys h = (r, h') -> h ⊆ h'.
Proof.
  unfold pnc_subset. destruct varkeys as [ks|]; [|by intros [= _ <-]].
  destruct (List.find _ ks); by intros [= _ <-].
Qed.

Lemma concat_tstep_layers n (a b c : ndarray num) :
  concat_tstep a b = Ok c -> layers_of n a -> layers_of n b -> layers_of n c.
Proof.
  destruct a as [x|x], b as [y|y]; simpl; try done; intros [= <-]; simpl.
  - intros. by apply Forall_app.
  - done.
Qed.

Lemma pnc_stack_var_spec n key (acc : ndarray num) others (h : heap num) r h' :
  pnc_stack_var key acc others h = (r, h') ->
  h' = h
  /\ (Forall (has_layers h n) others -> layers_of n acc ->
      forall c, r = Ok c -> layers_of n c).
Proof.
  revert acc r h'. induction others as [|f others IH]; intros acc r h'; simpl.
  - intros [= <- <-]. split; [done|]. by intros _ Hacc c [= <-].
  - destruct (odict_get key (variables f)) as [l|] eqn:Hl.
    + intros Hrun.
      apply mbind_inv in Hrun as [(e & Hld & ->)|(b & h1 & Hld & Hrun)].
      { apply load_inv in Hld as [-> _]. done. }
      apply load_inv in Hld as [-> Hb]. specialize (Hb b eq_refl).
      apply mbind_inv in Hrun as [(e & Hc & ->)|(c & h1 & Hc & Hrun)].
      { inversion Hc as [[Hc' Hh]]. subst h'. split; [done|].
        intros _ _ c0 Hc0. unfold lift in Hc. congruence. }
      inversion Hc as [[Hc' Hh]]. subst h1. clear Hc.
      apply IH in Hrun as [-> Hrest]. split; [done|].
      intros Hall Hacc c0 Hr. apply Forall_cons in Hall as [Hf Hall].
      apply (Hrest Hall); [|done].
      eapply concat_tstep_layers; [done|done|].
      apply odict_get_Some_elem in Hl. unfold has_layers in Hf.
      rewrite Forall_forall in Hf. destruct (Hf _ Hl) as (b' & Hb' & Hn).
      simpl in Hb'. congruence.
    + intros [= <- <-]. split; [done|]. by intros.
Qed.

Lemma pnc_stack_vars_spec n vars others (h : heap num) r h' :
  pnc_stack_vars vars others h = (r, h') ->
  h ⊆ h'
  /\ (Forall (has_layers h n) others ->
      Forall (fun v : string * loc =>
                exists a, h !! v.2 = Some a /\ layers_of n a) vars ->
      forall vars', r = Ok vars' ->
        Forall (fun v : string * loc =>
                  exists a, h' !! v.2 = Some a /\ layers_of n a) vars').
Proof.
  revert h r h'. induction vars as [|[key l] vars IH]; intros h r h'; simpl.
  - intros [= <- <-]. split; [done|]. intros _ _ vars' [= <-]. constructor.
  - intros Hrun.
    apply mbind_inv in Hrun as [(e & Hld & ->)|(a & h1 & Hld & Hrun)].
    { apply load_inv in Hld as [-> _]. done. }
    apply load_inv in Hld as [-> Ha]. specialize (Ha a eq_refl).
    apply mbind_inv in Hrun as [(e & Hc & ->)|(c & h1 & Hc & Hrun)].
    { apply (pnc_stack_var_spec n) in Hc as [-> _]. done. }
    apply (pnc_stack_var_spec n) in Hc as [-> Hc].
    apply mbind_inv in Hrun as [(e & Hal & ->)|(l' & h1 & Hal & Hrun)].
    { apply alloc_inv in Hal as (? & ? & _). done. }
    apply alloc_inv in Hal as (l0 & [= <-] & Hfresh & ->).
    assert (Hsub : h ⊆ <[l' := c]> h) by by apply insert_fresh_subseteq.
    apply mbind_inv in Hrun as [(e & Hrest & ->)|(rest & h2 & Hrest & Hrun)].
    { apply IH in Hrest as [Hsub' _]. split; [by etrans|done]. }
    inversion Hrun; subst. clear Hrun.
    apply IH in Hrest as [Hsub' Hrest]. split; [by etrans|].
    intros Hothers Hvars vars' [= <-].
    apply Forall_cons in Hvars as [(a0 & Ha0 & Hn0) Hvars]. simpl in Ha0.
    assert (a0 = a) as -> by congruence.
    constructor.
    + simpl. exists c. split.
      * eapply lookup_weaken; [|exact Hsub']. apply lookup_insert_eq.
      * by apply Hc.
    + apply Hrest; [| |done].
      * eapply Forall_impl; [exact Hothers|]. intros f.
        by apply has_layers_weaken.
      * eapply Forall_impl; [exact Hvars|]. intros v (b & Hb & Hnb).
        exists b. split; [|done]. by eapply lookup_weaken.
Qed.

Lemma pnc_stack_frame (first : File num) others (h : heap num) r h' :
  pnc_stack first others h = (r, h') -> h ⊆ h'.
Proof.
  unfold pnc_stack. intros Hrun.
  apply mbind_inv in Hrun as [(e & Hs & _)|(vars & h1 & Hs & Hrun)].
  - by apply (pnc_stack_vars_spec 0) in Hs as [? _].
  - apply (pnc_stack_vars_spec 0) in Hs as [? _]. by inversion Hrun; subst.
Qed.

Lemma pnc_stack_attrs (first : File num) others (h : heap num) out h' :
  pnc_stack first others h = (Ok out, h') ->
  VGLVLS out = VGLVLS first /\ NLAYS out = NLAYS first.
Proof.
  unfold pnc_stack. intros Hrun.
  apply mbind_inv in Hrun as [(e & _ & [=])|(vars & h1 & _ & Hrun)].
  by inversion Hrun.
Qed.

Lemma pnc_stack_layers n (first : File num) others (h : heap num) out h' :
  pnc_stack first others h = (Ok out, h') ->
  Forall (has_layers h n) (first :: others) ->
  has_layers h' n out.
Proof.
  unfold pnc_stack. intros Hrun Hall.
  apply Forall_cons in Hall as [Hfirst Hothers].
  apply mbind_inv in Hrun as [(e & _ & [=])|(vars & h1 & Hs & Hrun)].
  inversion Hrun; subst. clear Hrun.
  apply (pnc_stack_vars_spec n) in Hs as [_ Hs].
  unfold has_layers. simpl. by apply Hs.
Qed.

End PncContract.

Lemma view_inj (a b : xq) : view a = view b -> a = b.
Proof.
  destruct a as [[[n d] Hq]| | |], b as [[[n' d'] Hq']| | |]; simpl; try done.
  intros [= -> ->]. f_equal. by apply Qc_decomp.
Qed.

Example interp_va_table3 :
  (df <- interp_va table3 edges3 (qc 0 1) (qc 1 1) None ;;
   Ok (map (fun c : string * list xq => (c.1, map view c.2)) (columns df)))
  = Ok [("Sigma", [VFin 1 2; VFin 0 1]);
        ("Pressure", [VFin 1 1; VFin 0 1]);
        ("Alt", [VFin 1 1; VFin 2 1]);
        ("L", [VFin 2 1; VFin 3 1]);
        ("S", [VFin 1 3; VFin 2 3]);
        ("Z", [VNaN; VNaN]);
        ("M", [VPInf; VNInf])].
Proof. vm_compute. reflexivity. Qed.

Lemma ioapi_field2 : ioapi_field store2 field2.
Proof.
  unfold ioapi_field, field2. simpl.
  repeat constructor; eexists; (split; [reflexivity|]); simpl;
    try done; repeat constructor; done.
Qed.

Lemma field2_lookup v :
  v ∈ variables field2 ->
  v = ("TFLAG", 1%positive) \/ v = ("NOX", 2%positive) \/ v = ("CO", 3%positive).
Proof.
  unfold field2. simpl. rewrite !elem_of_cons. intros [?|[?|[?|?%elem_of_nil]]]; auto. done.
Qed.

Lemma single_layer_field2 : single_layer store2 field2.
Proof.
  intros v d [->|[->| ->]]%field2_lookup; vm_compute; intros [= <-];
    repeat constructor.
Qed.

Lemma finite_data_field2 : finite_data store2 field2.
Proof.
  intros v d [->|[->| ->]]%field2_lookup; vm_compute; intros [= <-];
    repeat constructor; eexists; reflexivity.
Qed.

Lemma make3d_conserves_witness :
  exists outfile h',
    make3d field2 [qc 1 4; qc 3 4] edges3 store2 = (Ok outfile, h')
    /\ NLAYS outfile = Some 2
    /\ Forall2 (fun v v' : string * loc =>
                  v'.1 = v.1
                  /\ (v.1 ≠ "TFLAG" ->
                      exists d d',
                        store2 !! v.2 = Some (Float4 d)
                        /\ h' !! v'.2 = Some (Float4 d')
                        /\ d' = map (fun layers =>
                                       map (fun f =>
                                              scale_plane f (List.hd [] layers))
                                           [qc 1 4; qc 3 4]) d
                        /\ map (fun layers => [sum_lay layers]) d' = d))
               (variables field2) (variables outfile).
Proof.
  apply (make3d_conserves field2 [qc 1 4; qc 3 4] edges3 store2).
  - exact ioapi_field2.
  - exact single_layer_field2.
  - exact finite_data_field2.
  - apply view_inj. vm_compute. reflexivity.
Defined.

(** The example of the conservation law: 10 on the one layer and the
    fractions 1/4, 3/4 give the layers 5/2 and 15/2. *)
Example make3d_quarters :
  view_array (array_of (make3d field2 [qc 1 4; qc 3 4] edges3 store2) "NOX")
  = [[[[VFin 5 2; VFin 3 4]]; [[VFin 15 2; VFin 9 4]]]].
Proof. vm_compute. reflexivity. Qed.

(** In binary64 the fractions 0.2 and 0.8 sum to 1, yet the layers
    [make3d] writes for the value 3 are 0.6000000000000001 and
    2.4000000000000004, whose sum 3.0000000000000004 is not 3. *)
Lemma make3d_conserves_counterexample :
  nsum [0x1.999999999999ap-3; 0x1.999999999999ap-1]%float = 1%float
  /\ array_of (make3d field2_f64
                      [0x1.999999999999ap-3; 0x1.999999999999ap-1]%float
                      [1; 0.5; 0]%float store2_f64) "NOX"
     = Some (Float4 [[[[2; 0x1.3333333333334p-1]];
                      [[8; 0x1.3333333333334p+1]]]]%float)
  /\ sum_lay [[[2; 0x1.3333333333334p-1]]; [[8; 0x1.3333333333334p+1]]]%float
     = [[10; 0x1.8000000000001p+1]]%float
  /\ PrimFloat.eqb 0x1.8000000000001p+1 3 = false.
Proof. vm_compute. repeat split; reflexivity. Qed.

Lemma wf_table3 : wf_table table3 pressure3.
Proof.
  split; [reflexivity|]. split; [done|]. split.
  - apply (bool_decide_unpack _). vm_compute. exact I.
  - repeat constructor.
Qed.

Lemma Q2Qc_nonzero (n : Z) (d : positive) : n ≠ 0%Z -> Q2Qc (n # d) ≠ 0%Qc.
Proof.
  intros Hn E. apply (f_equal (fun q : Qc => (q : Q))) in E. simpl in E.
  assert (Hq : (n # d == 0)%Q) by (rewrite <- (Qred_correct (n # d)), E; reflexivity).
  unfold Qeq in Hq. simpl in Hq. lia.
Qed.

Lemma interp_va_renormalized_sum_witness :
  exists outdf col,
    interp_va table3 edges3 (qc 0 1) (qc 1 1) None = Ok outdf
    /\ odict_get "S" (columns outdf) = Some col
    /\ col = renormalize
               (interp_values edges3 (qc 0 1) (qc 1 1) pressure3
                              [qc 1 4; qc 1 4; qc 1 2])
    /\ nsum col = Fin 1.
Proof.
  apply (interp_va_renormalized_sum table3 edges3 (qc 0 1) (qc 1 1) None
           pressure3 "S" [qc 1 4; qc 1 4; qc 1 2] _ (Q2Qc (3 # 4))).
  - exact wf_table3.
  - unfold table3. simpl. do 4 right. left.
  - reflexivity.
  - done.
  - apply interpolated_values; done.
  - apply view_inj. vm_compute. reflexivity.
  - by apply Q2Qc_nonzero.
Defined.

(** The column M of [table3] is interpolated to 1 and -1: its values are not
    all zero, they sum to zero, and the column of the returned table sums to
    NaN. With Sigma left out of [metakeys], the Sigma column of the returned
    table holds the target layer tops 1/2 and 0, which sum to 1/2. *)
Lemma renormalized_sum_counterexample :
  (v <- interpolated edges3 (qc 0 1) (qc 1 1) pressure3
                     [qc 0 1; qc 1 1; qc (-1) 1] ;;
   Ok (map view v))
  = Ok [VFin 1 1; VFin (-1) 1]
  /\ (df <- interp_va table3 edges3 (qc 0 1) (qc 1 1) None ;;
      Ok (view ∘ nsum <$> odict_get "M" (columns df)))
     = Ok (Some VNaN)
  /\ in_keys "Sigma" ["Alt"; "L"] = false
  /\ (df <- interp_va table3 edges3 (qc 0 1) (qc 1 1) (Some ["Alt"; "L"]) ;;
      Ok (view ∘ nsum <$> odict_get "Sigma" (columns df)))
     = Ok (Some (VFin 1 2)).
Proof. vm_compute. repeat split; reflexivity. Qed.

Lemma zero_sum_sector_yields_nan_witness :
  exists outdf col,
    interp_va table3 edges3 (qc 0 1) (qc 1 1) None = Ok outdf
    /\ odict_get "Z" (columns outdf) = Some col
    /\ length col
       = length (interp_values edges3 (qc 0 1) (qc 1 1) pressure3
                               [qc 0 1; qc 0 1; qc 0 1])
    /\ Forall nonfinite col
    /\ (forall i,
          interp_values edges3 (qc 0 1) (qc 1 1) pressure3
                        [qc 0 1; qc 0 1; qc 0 1] !! i = Some (Fin 0) ->
          col !! i = Some NaN)
    /\ forall (infile : File xq) (vglvls' : list xq) (h : heap xq),
         ioapi_field h infile ->
         exists outfile h',
           make3d infile col vglvls' h = (Ok outfile, h')
           /\ Forall2 (fun x x' : string * loc =>
                         x'.1 = x.1
                         /\ (x.1 ≠ "TFLAG" ->
                             exists d',
                               h' !! x'.2 = Some (Float4 d')
                               /\ Forall (fun layers => length layers = length col) d'
                               /\ Forall (Forall (Forall (Forall nonfinite))) d'))
                      (variables infile) (variables outfile).
Proof.
  apply (zero_sum_sector_yields_nan table3 edges3 (qc 0 1) (qc 1 1) None
           pressure3 "Z" [qc 0 1; qc 0 1; qc 0 1]).
  - exact wf_table3.
  - unfold table3. simpl. do 5 right. left.
  - reflexivity.
  - done.
  - apply interpolated_values; done.
  - intros E. apply (f_equal (@length _)) in E. vm_compute in E.
    discriminate.
  - apply view_inj. vm_compute. reflexivity.
Defined.

(** The sector Z of [table3] is zero on every level. Its interpolated values
    are zero and sum to zero; the renormalized column is NaN on every row, and
    [make3d] with it gives NaN, not 0, in every cell of every layer. *)
Lemma zero_sum_sector_counterexample :
  (v <- interpolated edges3 (qc 0 1) (qc 1 1) pressure3
                     [qc 0 1; qc 0 1; qc 0 1] ;;
   Ok (map view v, view (nsum v)))
  = Ok ([VFin 0 1; VFin 0 1], VFin 0 1)
  /\ (df <- interp_va table3 edges3 (qc 0 1) (qc 1 1) None ;;
      Ok (map view <$> odict_get "Z" (columns df)))
     = Ok (Some [VNaN; VNaN])
  /\ view_array (array_of (make3d field2 [NaN; NaN] edges3 store2) "NOX")
     = [[[[VNaN; VNaN]]; [[VNaN; VNaN]]]].
Proof. vm_compute. repeat split; reflexivity. Qed.

Lemma interp_va_orientation_invariant_witness :
  interp_va (reverse_rows table3) edges3 (qc 0 1) (qc 1 1) None
  = interp_va table3 edges3 (qc 0 1) (qc 1 1) None.
Proof.
  apply (interp_va_orientation_invariant table3 edges3 (qc 0 1) (qc 1 1) None
           pressure3).
  - reflexivity.
  - right. vm_compute. reflexivity.
Defined.

Lemma interp_va_zero_below_table_witness :
  exists outdf col v,
    interp_va table3 [qc 1 1; qc 1 2; qc (-1) 10] (qc 0 1) (qc 1 1) None
    = Ok outdf
    /\ odict_get "Alt" (columns outdf) = Some col
    /\ np_interp [qc 1 2; qc (-1) 10]
                 (orient (inverted (normalize (qc 0 1) (qc 1 1) pressure3))
                         (normalize (qc 0 1) (qc 1 1) pressure3))
                 (orient (inverted (normalize (qc 0 1) (qc 1 1) pressure3))
                         [qc 0 1; qc 1 1; qc 2 1])
                 nzero = Ok v
    /\ v !! 1 = Some nzero
    /\ col = v
    /\ col !! 1 = Some nzero.
Proof.
  assert (Hin : ("Alt", [qc 0 1; qc 1 1; qc 2 1]) ∈ columns table3).
  { unfold table3. simpl. do 2 right. left. }
  assert (Hbelow : Forall (fun p => nlt (qc (-1) 10) p = true)
                          (normalize (qc 0 1) (qc 1 1) pressure3)).
  { unfold pressure3, normalize. simpl map.
    repeat constructor; vm_compute; reflexivity. }
  assert (Hkey : "Alt" ≠ "Sigma") by done.
  exact (interp_va_zero_below_table table3 [qc 1 1; qc 1 2; qc (-1) 10]
           (qc 0 1) (qc 1 1) None pressure3 "Alt" [qc 0 1; qc 1 1; qc 2 1] 1
           (qc (-1) 10) wf_table3 Hin Hkey eq_refl Hbelow).
Defined.



(** With pruning the middle layer, which no sector uses, is dropped. *)
Example init_prunes_unused :
  (self <- Vertical_init sectors3 edges5 (qc 0 1) "Pressure" "Sigma" (qc 0 1)
                         None (qc 1 1) true ;;
   Ok (index (outdf self),
       map (fun c : string * list xq => (c.1, map view c.2))
           (columns (outdf self))))
  = Ok ([0; 2],
        [("Sigma", [VFin 3 4; VFin 0 1]);
         ("Pressure", [VFin 3 4; VFin 0 1]);
         ("Alt", [VFin 1 2; VFin 2 1]);
         ("L", [VFin 3 2; VFin 3 1]);
         ("onroad", [VFin 1 1; VFin 0 1]);
         ("other", [VFin 0 1; VFin 1 1]);
         ("LAYER1", [VFin 1 1; VFin 0 1])]).
Proof. vm_compute. reflexivity. Qed.

Lemma run_returned {A B C} (x : result A * B * C) (d : A) :
  is_ok x.1.1 = true -> x = (Ok (returned d x.1.1), x.1.2, x.2).
Proof. destruct x as [[[a|e] b] c]; simpl; [done|discriminate]. Qed.

Lemma allocate_vertical_metadata_witness :
  exists self : Vertical float,
    Vertical_init sectors3_f64 [1; 1; 0.75; 0.5; 0]%float 0%float "Pressure"
                  "Sigma" 0%float None 1%float true = Ok self
    /\ let run := allocate pnc_subset pnc_stack self field2_f64
                           (SectorName "onroad") store2_f64 in
       let outfile := returned field2_f64 run.1.1 in
       is_ok run.1.1 = true
       /\ NLAYS outfile = Some (nrows (outdf self))
       /\ has_layers run.1.2 (nrows (outdf self)) outfile
       /\ VGLVLS outfile = Some (map to_single [1; 1; 0.75; 0.5; 0]%float)
       /\ exists interp mask,
            interp_va (indf self) (List.tl [1; 1; 0.75; 0.5; 0]%float) 0%float
                      1%float (Some (metakeys self)) = Ok interp
            /\ layerused true (metakeys self) (candidate_rows interp)
               = Ok mask
            /\ outdf self = loc_mask mask (candidate_rows interp).
Proof.
  eexists. split; [vm_compute; reflexivity|].
  intros run outfile.
  assert (Hok : is_ok run.1.1 = true) by (vm_compute; reflexivity).
  split; [exact Hok|].
  eapply (allocate_vertical_metadata pnc_subset pnc_stack pnc_subset_frame
            pnc_stack_attrs pnc_stack_layers sectors3_f64
            [1; 1; 0.75; 0.5; 0]%float 0%float "Pressure" "Sigma" 0%float None
            1%float true _ field2_f64 (SectorName "onroad") store2_f64
            outfile run.1.2 run.2).
  - vm_compute. reflexivity.
  - exact (run_returned run field2_f64 Hok).
Defined.

(** Pruning drops layers by design. The edges 1, 1, 0.75, 0.5, 0 leave the
    target points 0.75, 0.5, 0. Without pruning the resident profile has the
    three rows, and the field that [allocate] returns has NLAYS 3. With
    pruning the row of the target point 0.5, where no sector has a value, is
    dropped: the profile holds the rows 0 and 2 (Sigma 0.75 and 0), the field
    has NLAYS 2 and two layers of data, and in both cases VGLVLS holds the
    five edges. *)
Lemma vertical_metadata_counterexample :
  (self <- Vertical_init sectors3_f64 [1; 1; 0.75; 0.5; 0]%float 0%float
                         "Pressure" "Sigma" 0%float None 1%float false ;;
   Ok (index (outdf self),
       match allocate pnc_subset pnc_stack self field2_f64
                      (SectorName "onroad") store2_f64 with
       | (Ok outfile, h', _) => (NLAYS outfile, length <$> VGLVLS outfile)
       | _ => (None, None)
       end))
  = Ok ([0; 1; 2], (Some 3, Some 5))
  /\ (self <- Vertical_init sectors3_f64 [1; 1; 0.75; 0.5; 0]%float 0%float
                            "Pressure" "Sigma" 0%float None 1%float true ;;
      Ok (index (outdf self),
          odict_get "Sigma" (columns (outdf self)),
          match allocate pnc_subset pnc_stack self field2_f64
                         (SectorName "onroad") store2_f64 with
          | (Ok outfile, h', _) =>
              (NLAYS outfile, length <$> VGLVLS outfile,
               array_of (Ok outfile, h') "NOX")
          | _ => (None, None, None)
          end))
     = Ok ([0; 2], Some [0.75; 0]%float,
           (Some 2, Some 5, Some (Float4 [[[[10; 3]]; [[0; 0]]]]%float))).
Proof. vm_compute. split; reflexivity. Qed.

Lemma input_field_unchanged_witness :
  (forall (infile : File xq) (layerfractions vglvls : list xq)
          (h : heap xq) r h',
     make3d infile layerfractions vglvls h = (r, h') ->
     h ⊆ h'
     /\ forall outfile, r = Ok outfile ->
          Forall (fun v : string * loc => v.2 ∉ dom h) (variables outfile))
  /\ (forall (self : Vertical xq) (infile : File xq) (alloc_keys : alloc_arg)
             (h : heap xq),
        h ⊆ (allocate pnc_subset pnc_stack self infile alloc_keys h).1.2).
Proof.
  apply (input_field_unchanged pnc_subset pnc_stack).
  - exact pnc_subset_frame.
  - exact pnc_stack_frame.
Defined.

(** The arrays of the input after a call are the arrays before it. *)
Example make3d_keeps_input :
  (let '(_, h') := make3d field2 [qc 1 4; qc 3 4] edges3 store2 in
   (view_array (h' !! 2%positive), view_array (h' !! 3%positive)))
  = ([[[[VFin 10 1; VFin 3 1]]]], [[[[VFin 4 1; VFin 0 1]]]]).
Proof. vm_compute. reflexivity. Qed.

Lemma field2_refs :
  Forall (fun v : string * loc => is_Some (store2 !! v.2)) (variables field2).
Proof. repeat constructor; eexists; reflexivity. Qed.

Lemma allocate_default_sector_witness :
  exists self : Vertical xq,
    Vertical_init sectors3 edges5 (qc 0 1) "Pressure" "Sigma" (qc 0 1) None
                  (qc 1 1) true = Ok self
    /\ (1 < length (none_sectors onroad_other) ->
        exists msg,
          allocate pnc_subset pnc_stack self field2 (SectorMap onroad_other)
                   store2
          = (Raise (ValueError msg), store2, SectorMap onroad_other))
    /\ (forall sector, none_sectors onroad_other = [sector] ->
        exists varkeys,
          (allocate pnc_subset pnc_stack self field2 (SectorMap onroad_other)
                    store2).2
          = SectorMap (odict_set sector (Some varkeys) onroad_other)
          /\ forall k, k ∈ varkeys
                       <-> eligible store2 field2 k
                           /\ ~ explicitly_assigned onroad_other k).
Proof.
  eexists. split; [vm_compute; reflexivity|].
  apply (allocate_default_sector pnc_subset pnc_stack).
  exact field2_refs.
Defined.

(** The two examples of the sector assignment. *)
Example allocate_onroad_other :
  (self <- Vertical_init sectors3 edges5 (qc 0 1) "Pressure" "Sigma" (qc 0 1)
                         None (qc 1 1) true ;;
   Ok (allocate pnc_subset pnc_stack self field2 (SectorMap onroad_other)
                store2).2)
  = Ok (SectorMap [("onroad", Some ["NOX"]); ("other", Some ["CO"])]).
Proof. vm_compute. reflexivity. Qed.

Example allocate_two_defaults :
  (self <- Vertical_init sectors3 edges5 (qc 0 1) "Pressure" "Sigma" (qc 0 1)
                         None (qc 1 1) true ;;
   Ok (raised (allocate pnc_subset pnc_stack self field2
                        (SectorMap [("onroad", None); ("other", None)])
                        store2).1.1))
  = Ok (Some (ValueError
                "Can only have 1 None sector; got ['onroad', 'other']")).
Proof. vm_compute. reflexivity. Qed.

Lemma allocate_mutates_alloc_keys_witness :
  exists self : Vertical xq,
    Vertical_init sectors3 edges5 (qc 0 1) "Pressure" "Sigma" (qc 0 1) None
                  (qc 1 1) true = Ok self
    /\ exists d' varkeys,
         (allocate pnc_subset pnc_stack self field2 (SectorMap onroad_other)
                   store2).2 = SectorMap d'
         /\ odict_get "other" onroad_other = Some None
         /\ odict_get "other" d' = Some (Some varkeys)
         /\ d' ≠ onroad_other
         /\ d' = odict_set "other" (Some varkeys) onroad_other
         /\ (forall k, k ∈ varkeys
                       <-> eligible store2 field2 k
                           /\ ~ explicitly_assigned onroad_other k)
         /\ (forall other, other ≠ "other" ->
               odict_get other d' = odict_get other onroad_other).
Proof.
  eexists. split; [vm_compute; reflexivity|].
  apply (allocate_mutates_alloc_keys pnc_subset pnc_stack).
  - exact field2_refs.
  - apply (bool_decide_unpack _). vm_compute. exact I.
  - reflexivity.
Defined.

(** ** The code run in binary64 *)

(** The example of the conservation law: 10.0 and the fractions 0.25, 0.75. *)
Example make3d_quarters_f64 :
  array_of (make3d field2_f64 [0.25; 0.75]%float [1; 0.5; 0]%float store2_f64)
           "NOX"
  = Some (Float4 [[[[2.5; 0.75]]; [[7.5; 2.25]]]]%float).
Proof. vm_compute. reflexivity. Qed.

(** A column of zeros is renormalized to NaN. *)
Example renormalize_zeros_f64 :
  renormalize [0; 0]%float = [PrimFloat.nan; PrimFloat.nan].
Proof. vm_compute. reflexivity. Qed.

(** A profile that is all at the surface, interpolated to the edges 1, 0.8,
    0.5, 0 with the top of the model at 5000 Pa and the surface at 101325 Pa:
    all weight goes to the first layer. *)
Example interp_va_surface_f64 :
  (df <- add_pressure surface3_f64 5000%float 101325%float "Sigma" "Pressure" ;;
   out <- interp_va df [1; 0x1.999999999999ap-1; 0.5; 0]%float 5000%float
                    101325%float None ;;
   Ok (odict_get "onroad" (columns out)))
  = Ok (Some [1; 0; 0]%float).
Proof. vm_compute. reflexivity. Qed.

(** * Further properties of the code *)

(** ** add_pressure and the outcomes of interp_va *)

Section PressureFacts.
Context {num : Type} `{ArithOrder num}.




Lemma rectangular_wf_table (df : DataFrame num) pressure :
  NoDup (odict_keys (columns df)) ->
  rectangular df ->
  odict_get "Pressure" (columns df) = Some pressure ->
  nrows df ≠ 0 ->
  wf_table df pressure.
Proof.
  intros Hnd Hrect Hp Hn. unfold rectangular in Hrect.
  pose proof Hrect as Hall. rewrite Forall_forall in Hall.
  pose proof (Hall _ (odict_get_Some_elem _ _ _ Hp)) as Hlen. simpl in Hlen.
  split; [done|]. split; [by destruct pressure|]. split; [done|].
  eapply Forall_impl; [exact Hrect|]. intros c Hc. congruence.
Qed.

(** X1. The outcomes of [interp_va] on a table with distinct column names
    and one value per row. Without a Pressure column it raises an
    AttributeError, with a Pressure column and no row an IndexError.
    Otherwise it returns a table with one row per edge after the first,
    labelled from 0, whose columns are those of the input in their order
    (Sigma added last when the input has none) and whose Sigma column holds
    the edges after the first. *)
Theorem interp_va_outcomes
    (df : DataFrame num) (vglvls : list num) (vgtop psfc : num)
    (metakeys : option (list string)) :
  NoDup (odict_keys (columns df)) ->
  rectangular df ->
  match odict_get "Pressure" (columns df) with
  | None =>
      interp_va df vglvls vgtop psfc metakeys
      = Raise (AttributeError "Pressure")
  | Some _ =>
      if Nat.eqb (nrows df) 0 then
        interp_va df vglvls vgtop psfc metakeys = Raise IndexError
      else
        exists outdf,
          interp_va df vglvls vgtop psfc metakeys = Ok outdf
          /\ index outdf = seq 0 (length vglvls - 1)
          /\ rectangular outdf
          /\ odict_get "Sigma" (columns outdf) = Some (List.tl vglvls)
          /\ odict_keys (columns outdf)
             = if in_keys "Sigma" (odict_keys (columns df))
               then odict_keys (columns df)
               else odict_keys (columns df) ++ ["Sigma"]
  end.
Proof.
  intros Hnd Hrect.
  destruct (odict_get "Pressure" (columns df)) as [pressure|] eqn:Hp.
  2:{ unfold interp_va. by rewrite Hp. }
  destruct (Nat.eqb_spec (nrows df) 0) as [Hz|Hnz].
  - unfold interp_va. rewrite Hp.
    assert (pressure = []) as ->; [|done].
    unfold rectangular in Hrect. rewrite Forall_forall in Hrect.
    pose proof (Hrect _ (odict_get_Some_elem _ _ _ Hp)) as Hlen. simpl in Hlen.
    rewrite Hz in Hlen. by destruct pressure.
  - pose proof (rectangular_wf_table df pressure Hnd Hrect Hp Hnz) as Hwf.
    pose proof (interp_va_run df vglvls vgtop psfc metakeys pressure Hwf) as Hrun.
    eexists. split; [exact Hrun|].
    split. { simpl. f_equal. destruct vglvls; simpl; lia. }
    split. { by eapply interp_va_rectangular. }
    split. { simpl. apply odict_get_set_eq. }
    simpl. rewrite odict_set_keys. unfold odict_keys.
    by rewrite out_column_keys.
Qed.

End PressureFacts.

(** ** What make3d writes, and when it raises *)

Section Make3dFacts.
Context {num : Type} `{Arith num}.




Lemma mapR_rep_first_Raise {A} nz (d : list (list A)) e :
  mapR (rep_first nz) d = Raise e -> e = IndexError.
Proof.
  induction d as [|l d IH]; simpl; [done|].
  destruct (rep_first nz l) as [l'|e'] eqn:El; simpl.
  - destruct (mapR (rep_first nz) d); simpl; [done|]. intros [= <-]. auto.
  - intros [= <-]. unfold rep_first in El.
    destruct nz; [by injection El|]. destruct l; [|done]. by injection El.
Qed.

Lemma mapR_rep_first_empty {A} nz (d : list (list A)) :
  nz ≠ 0 -> [] ∈ d -> mapR (rep_first nz) d = Raise IndexError.
Proof.
  intros Hnz Hin. induction d as [|l d IH]; [by apply elem_of_nil in Hin|].
  simpl. destruct (rep_first nz l) as [l'|e] eqn:El; simpl.
  - apply elem_of_cons in Hin as [<-|Hin].
    + unfold rep_first in El. by destruct nz.
    + by rewrite IH.
  - f_equal. unfold rep_first in El. destruct nz; [by injection El|].
    destruct l; [|done]. by injection El.
Qed.

Lemma slice_array_Raise nz (a : ndarray num) e :
  slice_array nz a = Raise e -> e = IndexError.
Proof.
  destruct a as [d|d]; simpl; [|done].
  destruct (mapR (rep_first nz) d) eqn:E; simpl; [done|].
  intros [= <-]. by eapply mapR_rep_first_Raise.
Qed.

Lemma slice_vars_empty_layers nz vars (h : heap num) key l d :
  nz ≠ 0 ->
  Forall (fun v : string * loc => is_Some (h !! v.2)) vars ->
  (key, l) ∈ vars -> h !! l = Some (Float4 d) -> [] ∈ d ->
  exists h', slice_vars nz vars h = (Raise IndexError, h').
Proof.
  intros Hnz. revert h. induction vars as [|[k0 l0] vars IH]; intros h Hrefs Hin Hl Hd.
  { by apply elem_of_nil in Hin. }
  apply Forall_cons in Hrefs as [[a Ha] Hrefs]. simpl in Ha.
  cbn [slice_vars]. unfold mbind at 1. unfold load. rewrite Ha.
  unfold mbind at 1. unfold lift.
  destruct (slice_array nz a) as [a'|e] eqn:Ea.
  - assert (Hin' : (key, l) ∈ vars).
    { apply elem_of_cons in Hin as [[= -> ->]|Hin]; [|done].
      assert (a = Float4 d) as -> by congruence.
      simpl in Ea. by rewrite mapR_rep_first_empty in Ea. }
    unfold mbind at 1. unfold alloc.
    set (l' := fresh (dom h)). set (h1 := <[l' := a']> h).
    assert (Hsub : h ⊆ h1) by (apply insert_fresh_subseteq, is_fresh).
    destruct (IH h1) as [h' Hrest]; try done.
    + eapply Forall_impl; [exact Hrefs|]. intros v [b Hb]. exists b.
      by eapply lookup_weaken.
    + by eapply lookup_weaken.
    + exists h'. unfold mbind. by rewrite Hrest.
  - apply slice_array_Raise in Ea as ->. by exists h.
Qed.

(** X7. [make3d] needs a layer to replicate: if a variable of the input has
    a time step without layers (a LAY dimension of size 0) and there is at
    least one fraction, the call raises an IndexError. *)
Theorem make3d_raises_without_layers
    (infile : File num) (layerfractions vglvls : list num) (h : heap num)
    (key : string) (l : loc) (d : list (list (plane num))) :
  Forall (fun v : string * loc => is_Some (h !! v.2)) (variables infile) ->
  layerfractions ≠ [] ->
  (key, l) ∈ variables infile ->
  h !! l = Some (Float4 d) ->
  [] ∈ d ->
  (make3d infile layerfractions vglvls h).1 = Raise IndexError.
Proof.
  intros Hrefs Hlf Hin Hl Hd.
  destruct (slice_vars_empty_layers (length layerfractions) (variables infile)
              h key l d) as [h' Hs]; try done.
  { by destruct layerfractions. }
  unfold make3d, slice. unfold mbind at 1. unfold mbind at 1.
  by rewrite Hs.
Qed.

(** X8. [dfmake3d] is [make3d] on the column [frackey] with the edges
    [1, sigma...]: a missing [sigmakey] raises KeyError before [frackey] is
    looked at, a missing [frackey] raises KeyError, and a file that is
    returned has as many layers as the table has rows and one more edge in
    VGLVLS than it has layers. *)
Theorem dfmake3d_grid_matches_layers
    (infile : File num) (va_df : DataFrame num) (frackey sigmakey : string)
    (h : heap num) :
  rectangular va_df ->
  match odict_get sigmakey (columns va_df), odict_get frackey (columns va_df) with
  | None, _ =>
      dfmake3d infile va_df frackey sigmakey h = (Raise (KeyError sigmakey), h)
  | Some _, None =>
      dfmake3d infile va_df frackey sigmakey h = (Raise (KeyError frackey), h)
  | Some sigma, Some frac =>
      dfmake3d infile va_df frackey sigmakey h
      = make3d infile frac (none :: sigma) h
      /\ forall outfile h',
           dfmake3d infile va_df frackey sigmakey h = (Ok outfile, h') ->
           NLAYS outfile = Some (nrows va_df)
           /\ VGLVLS outfile = Some (to_single none :: map to_single sigma)
           /\ length <$> VGLVLS outfile = Some (nrows va_df + 1)
           /\ has_layers h' (nrows va_df) outfile
  end.
Proof.
  intros Hrect. unfold dfmake3d.
  destruct (odict_get sigmakey (columns va_df)) as [sigma|] eqn:Hs; [|done].
  destruct (odict_get frackey (columns va_df)) as [frac|] eqn:Hf; [|done].
  split; [done|]. intros out h' Hrun.
  unfold rectangular in Hrect. rewrite Forall_forall in Hrect.
  pose proof (Hrect _ (odict_get_Some_elem _ _ _ Hs)) as Hls.
  pose proof (Hrect _ (odict_get_Some_elem _ _ _ Hf)) as Hlf.
  simpl in Hls, Hlf.
  apply make3d_frame in Hrun as [_ Hrun].
  destruct (Hrun out eq_refl) as (Hn & Hv & _ & Hall).
  rewrite Hn, Hv, Hlf. split; [done|]. split; [done|]. split.
  - simpl. rewrite length_map, Hls. f_equal. lia.
  - unfold has_layers. eapply Forall_impl; [exact Hall|].
    intros v (_ & a & Ha & Hlay). exists a. split; [done|]. congruence.
Qed.

End Make3dFacts.


(** ** The constructor: layers of the profile, and the columns it needs *)

Section InitFacts.
Context {num : Type} `{ArithOrder num}.

Lemma interp_va_Sigma (df : DataFrame num) vglvls vgtop psfc mk outdf :
  interp_va df vglvls vgtop psfc mk = Ok outdf ->
  odict_get "Sigma" (columns outdf) = Some (List.tl vglvls).
Proof.
  unfold interp_va.
  destruct (odict_get "Pressure" (columns df)) as [pressure|]; [|done].
  destruct (normalize vgtop psfc pressure) eqn:En; [done|].
  intros Hr. apply rbind_Ok in Hr as (out & _ & [= <-]). simpl.
  apply odict_get_set_eq.
Qed.

Lemma loc_set_cell_keys label key v (df : DataFrame num) :
  odict_keys (columns (loc_set_cell label key v df)) = odict_keys (columns df).
Proof.
  unfold loc_set_cell, odict_keys.
  destruct (label_pos label (index df)); simpl.
  - rewrite <- list_fmap_compose. apply list_fmap_ext. intros i c _. simpl.
    by destruct (String.eqb c.1 key).
  - rewrite <- list_fmap_compose. by apply list_fmap_ext.
Qed.

Lemma candidate_rows_keys (interp : DataFrame num) :
  odict_keys (columns (candidate_rows interp))
  = if in_keys "LAYER1" (odict_keys (columns interp))
    then odict_keys (columns interp)
    else odict_keys (columns interp) ++ ["LAYER1"].
Proof.
  unfold candidate_rows. rewrite loc_set_cell_keys. unfold set_column.
  simpl. apply odict_set_keys.
Qed.

Lemma loc_set_cell_other label key v (df : DataFrame num) k :
  k ≠ key -> label_pos label (index df) ≠ None ->
  odict_get k (columns (loc_set_cell label key v df))
  = odict_get k (columns df).
Proof.
  intros Hne Hpos. unfold loc_set_cell.
  destruct (label_pos label (index df)) as [i|]; [|done]. simpl.
  induction (columns df) as [|[k0 c0] cols IH]; simpl; [done|].
  destruct (String.eqb_spec k0 key) as [->|Hk0]; simpl.
  - destruct (String.eqb_spec k key); [done|]. apply IH.
  - destruct (String.eqb k k0); [done|apply IH].
Qed.

Lemma mask_select_sublist {A} (mask : list bool) (a : list A) :
  sublist (mask_select mask a) a.
Proof.
  revert a. induction mask as [|b mask IH]; intros [|v a]; simpl;
    try apply sublist_nil_l.
  destruct b; [by apply sublist_skip|by apply sublist_cons].
Qed.

Lemma mask_select_all {A} (mask : list bool) (a : list A) :
  length mask = length a -> Forall (fun b => b = true) mask ->
  mask_select mask a = a.
Proof.
  revert a. induction mask as [|b mask IH]; intros [|v a]; simpl; try done.
  intros [= Hlen] Hall. apply Forall_cons in Hall as [-> Hall].
  by rewrite IH.
Qed.

Lemma label_pos_seq n : 0 < n -> label_pos 0 (seq 0 n) = Some 0.
Proof. destruct n; [lia|done]. Qed.

(** X9. The constructor interpolates to [outvglvls[2:]]: it passes
    [outvglvls[1:]] to [interp_va], which drops the first entry again. With
    at least three edges the Sigma column of the resident profile is a
    subsequence of the edges after the second, the profile has between 1 and
    [len(outvglvls) - 2] rows, and without pruning its Sigma column is
    exactly the edges after the second. *)
Theorem init_profile_layers
    (csv : DataFrame num) (edges : list num) (outvgtop : num)
    (pressurekey sigmakey : string) (csvvgtop : num)
    (mk : option (list string)) (psfc : num) (prune : bool)
    (self : Vertical num) :
  Vertical_init csv edges outvgtop pressurekey sigmakey csvvgtop
                mk psfc prune = Ok self ->
  3 <= length edges ->
  exists sigma,
    odict_get "Sigma" (columns (outdf self)) = Some sigma
    /\ sublist sigma (List.tl (List.tl edges))
    /\ nrows (outdf self) = length sigma
    /\ 1 <= nrows (outdf self) <= length edges - 2
    /\ (prune = false -> sigma = List.tl (List.tl edges)).
Proof.
  intros Hinit Hlen.
  apply Vertical_init_inv in Hinit as (_ & interp & mask & Hva & Hused & ->).
  pose proof (interp_va_index _ _ _ _ _ _ Hva) as Hidx.
  pose proof (interp_va_Sigma _ _ _ _ _ _ Hva) as Hsig.
  pose proof (interp_va_rectangular _ _ _ _ _ _ Hva) as Hrect.
  set (x := List.tl (List.tl edges)) in *.
  assert (Hx : length x = length edges - 2).
  { unfold x. destruct edges as [|? [|? ?]]; simpl in *; lia. }
  assert (Hcand : odict_get "Sigma" (columns (candidate_rows interp)) = Some x).
  { unfold candidate_rows. rewrite loc_set_cell_other.
    - unfold set_column. simpl. by rewrite odict_get_set_ne.
    - done.
    - unfold set_column. simpl. rewrite Hidx, label_pos_seq; [done|lia]. }
  assert (Hrows : nrows (candidate_rows interp) = length x).
  { unfold candidate_rows, loc_set_cell, set_column, nrows. simpl.
    rewrite Hidx, label_pos_seq by lia. simpl. by rewrite length_seq. }
  pose proof Hused as Hused'. unfold layerused in Hused'.
  apply rbind_Ok in Hused' as (dropped & Hdrop & _).
  destruct (layerused_lookup _ _ _ _ _ Hdrop Hused) as [Hml Hmask].
  exists (mask_select mask x). split.
  { unfold loc_mask. simpl.
    rewrite (odict_get_map (mask_select mask)). by rewrite Hcand. }
  split; [apply mask_select_sublist|].
  assert (Hn : nrows (loc_mask mask (candidate_rows interp))
               = length (mask_select mask x)).
  { unfold nrows, loc_mask. simpl. apply length_mask_select.
    fold (nrows (candidate_rows interp)). by rewrite Hrows. }
  split; [done|]. rewrite Hn. split.
  - split.
    + assert (Hm0 : mask !! 0 = Some true).
      { rewrite Hmask by lia. simpl. by rewrite orb_true_r. }
      destruct mask as [|b mask]; [done|]. injection Hm0 as ->.
      destruct x; simpl in *; lia.
    + rewrite <- Hx. apply sublist_length, mask_select_sublist.
  - intros ->. apply mask_select_all; [congruence|].
    apply Forall_lookup. intros i b Hi.
    assert (i < nrows (candidate_rows interp)).
    { rewrite <- Hml. by eapply lookup_lt_Some. }
    rewrite Hmask in Hi by done. simpl in Hi. congruence.
Qed.

(** The frame the constructor interpolates: the table read, with the
    pressure column added when the table has none under [pressurekey]. *)
Lemma init_table (csv : DataFrame num) csvvgtop psfc sigmakey pressurekey :
  NoDup (odict_keys (columns csv)) -> rectangular csv ->
  (in_keys pressurekey (odict_keys (columns csv)) = false ->
   is_Some (odict_get sigmakey (columns csv))) ->
  exists indf,
    (if negb (in_keys pressurekey (odict_keys (columns csv)))
     then add_pressure csv csvvgtop psfc sigmakey pressurekey
     else Ok csv) = Ok indf
    /\ NoDup (odict_keys (columns indf)) /\ rectangular indf
    /\ nrows indf = nrows csv
    /\ (forall k, k ≠ pressurekey ->
          odict_get k (columns indf) = odict_get k (columns csv))
    /\ forall k, k ∈ odict_keys (columns indf)
                 <-> k ∈ odict_keys (columns csv) \/ k = pressurekey.
Proof.
  intros Hnd Hrect Hsig.
  destruct (in_keys pressurekey (odict_keys (columns csv))) eqn:Ek; simpl.
  - exists csv. repeat split; try done.
    + auto.
    + intros [?| ->]; [done|]. by apply in_keys_true.
  - destruct (Hsig eq_refl) as [sigma Hs].
    unfold add_pressure. rewrite Hs. eexists. split; [done|].
    apply in_keys_false in Ek. simpl.
    rewrite odict_set_new by done. unfold odict_keys. rewrite fmap_app. simpl.
    split.
    { apply NoDup_app. split; [done|]. split.
      - intros k Hk ->%list_elem_of_singleton. done.
      - apply NoDup_singleton. }
    split.
    { unfold rectangular, nrows. simpl. apply Forall_app. split; [done|].
      apply Forall_singleton. simpl. rewrite length_map.
      unfold rectangular in Hrect. rewrite Forall_forall in Hrect.
      apply (Hrect _ (odict_get_Some_elem _ _ _ Hs)). }
    split; [done|]. split.
    { intros k Hk. rewrite <- (odict_set_new (columns csv) pressurekey) by done.
      by apply odict_get_set_ne. }
    intros k. rewrite elem_of_app, list_elem_of_singleton. done.
Qed.

Lemma drop_columns_missing keys (df : DataFrame num) k :
  k ∈ keys -> k ∉ odict_keys (columns df) ->
  exists k', drop_columns keys df = Raise (KeyError k')
    /\ k' ∈ keys /\ k' ∉ odict_keys (columns df).
Proof.
  intros Hk Hmiss. unfold drop_columns.
  destruct (List.find _ keys) as [k'|] eqn:Ef.
  - apply find_some in Ef as [Hin Hneg]. exists k'. split; [done|].
    split; [by apply list_elem_of_In|].
    apply in_keys_false. by destruct (in_keys k' _).
  - exfalso. apply find_none with (x := k) in Ef; [|by apply list_elem_of_In].
    apply in_keys_false in Hmiss. by rewrite Hmiss in Ef.
Qed.

(** The interpolated table of a constructor call on a table with rows,
    distinct column names and a pressure column the constructor can use. *)
Lemma init_interp
    (csv : DataFrame num) (edges : list num) (outvgtop : num)
    (pressurekey sigmakey : string) (csvvgtop : num)
    (mks : list string) (psfc : num) :
  NoDup (odict_keys (columns csv)) ->
  rectangular csv ->
  nrows csv ≠ 0 ->
  (in_keys pressurekey (odict_keys (columns csv)) = false ->
   is_Some (odict_get sigmakey (columns csv))) ->
  (pressurekey = "Pressure" \/ "Pressure" ∈ odict_keys (columns csv)) ->
  exists indf interp,
    (if negb (in_keys pressurekey (odict_keys (columns csv)))
     then add_pressure csv csvvgtop psfc sigmakey pressurekey
     else Ok csv) = Ok indf
    /\ interp_va indf (List.tl edges) outvgtop psfc (Some mks) = Ok interp
    /\ index interp = seq 0 (length (List.tl (List.tl edges)))
    /\ forall k0, k0 ∈ odict_keys (columns interp)
                  <-> k0 ∈ odict_keys (columns csv) \/ k0 = pressurekey
                      \/ k0 = "Sigma".
Proof.
  intros Hnd Hrect Hrows Hsig Hpress.
  destruct (init_table csv csvvgtop psfc sigmakey pressurekey Hnd Hrect Hsig)
    as (indf & Hindf & Hnd' & Hrect' & Hrows' & Hother & Hkeys).
  assert (Hp : exists pressure, odict_get "Pressure" (columns indf) = Some pressure).
  { assert (Hin : "Pressure" ∈ odict_keys (columns indf)).
    { apply Hkeys. destruct Hpress as [->|?]; auto. }
    unfold odict_keys in Hin.
    apply list_elem_of_fmap in Hin as ([k0 v] & Hk0 & Hin). simpl in Hk0.
    subst k0. exists v. by apply odict_get_NoDup. }
  destruct Hp as [pressure Hp].
  assert (Hwf : wf_table indf pressure).
  { apply rectangular_wf_table; try done. congruence. }
  pose proof (interp_va_run indf (List.tl edges) outvgtop psfc (Some mks)
                pressure Hwf) as Hrun.
  exists indf. eexists. split; [done|]. split; [exact Hrun|].
  split; [done|].
  intros k0. cbn [columns]. rewrite odict_set_keys.
  unfold odict_keys at 1 2 3. rewrite out_column_keys.
  fold (odict_keys (columns indf)).
  destruct (in_keys "Sigma" (odict_keys (columns indf))) eqn:Es.
  - rewrite Hkeys. apply in_keys_true, Hkeys in Es. naive_solver.
  - rewrite elem_of_app, list_elem_of_singleton, Hkeys. naive_solver.
Qed.

Lemma loc_set_column_rows key v (df : DataFrame num) :
  nrows df ≠ 0 -> loc_set_column key v df = Ok (set_column key v df).
Proof.
  intros Hn. unfold loc_set_column.
  by destruct (Nat.eqb_spec (nrows df) 0).
Qed.

(** X10. Every entry of [metakeys] has to be a column: on a table with
    rows, distinct column names and a pressure column the constructor can
    use, and with three edges or more, if some metakey (Alt or L of the
    default list, say) is neither a column of the table nor Sigma, LAYER1 or
    [pressurekey], the constructor raises KeyError for a metakey that is not
    a column of the table. *)
Theorem init_requires_metakey_columns
    (csv : DataFrame num) (edges : list num) (outvgtop : num)
    (pressurekey sigmakey : string) (csvvgtop : num)
    (mk : option (list string)) (psfc : num) (prune : bool) (k : string) :
  NoDup (odict_keys (columns csv)) ->
  rectangular csv ->
  nrows csv ≠ 0 ->
  (in_keys pressurekey (odict_keys (columns csv)) = false ->
   is_Some (odict_get sigmakey (columns csv))) ->
  (pressurekey = "Pressure" \/ "Pressure" ∈ odict_keys (columns csv)) ->
  k ∈ default [sigmakey; pressurekey; "Alt"; "L"] mk ->
  k ∉ odict_keys (columns csv) ->
  k ≠ pressurekey -> k ≠ "Sigma" -> k ≠ "LAYER1" ->
  3 <= length edges ->
  exists k',
    Vertical_init csv edges outvgtop pressurekey sigmakey csvvgtop
                  mk psfc prune = Raise (KeyError k')
    /\ k' ∈ default [sigmakey; pressurekey; "Alt"; "L"] mk
    /\ k' ∉ odict_keys (columns csv).
Proof.
  intros Hnd Hrect Hrows Hsig Hpress Hk Hmiss Hkp Hks Hkl Hedges.
  destruct (init_interp csv edges outvgtop pressurekey sigmakey csvvgtop
              (default [sigmakey; pressurekey; "Alt"; "L"] mk) psfc
              Hnd Hrect Hrows Hsig Hpress)
    as (indf & interp & Hindf & Hrun & Hidx & Hi).
  assert (Hn : nrows interp ≠ 0).
  { unfold nrows. rewrite Hidx, length_seq.
    destruct edges as [|? [|? [|? ?]]]; simpl in *; lia. }
  assert (Hcand : forall k0, k0 ∈ odict_keys (columns (candidate_rows interp))
                    <-> k0 ∈ odict_keys (columns csv) \/ k0 = pressurekey
                        \/ k0 = "Sigma" \/ k0 = "LAYER1").
  { intros k0. rewrite candidate_rows_keys.
    destruct (in_keys "LAYER1" (odict_keys (columns interp))) eqn:El.
    - apply in_keys_true, Hi in El. rewrite Hi. naive_solver.
    - rewrite elem_of_app, list_elem_of_singleton, Hi. naive_solver. }
  destruct (drop_columns_missing
              (default [sigmakey; pressurekey; "Alt"; "L"] mk)
              (candidate_rows interp) k Hk) as (k' & Hdrop & Hk' & Hmiss').
  { rewrite Hcand. naive_solver. }
  exists k'. split.
  - unfold Vertical_init. rewrite Hindf. cbn [rbind]. rewrite Hrun.
    cbn [rbind]. rewrite loc_set_column_rows by done. cbn [rbind].
    fold (candidate_rows interp). unfold layerused.
    by rewrite Hdrop.
  - split; [done|]. intros Hin. apply Hmiss', Hcand. by left.
Qed.


(** X11. The two lookups of the constructor. When the table has no column
    [pressurekey] and no column [sigmakey], the constructor raises
    KeyError for [sigmakey]. The interpolation reads the column named
    Pressure whatever [pressurekey] is: with another [pressurekey] and a
    table without a Pressure column the constructor raises AttributeError,
    also when the column [pressurekey] is there or has just been derived. *)
Theorem init_reads_the_Pressure_column
    (csv : DataFrame num) (edges : list num) (outvgtop : num)
    (pressurekey sigmakey : string) (csvvgtop : num)
    (mk : option (list string)) (psfc : num) (prune : bool) :
  (in_keys pressurekey (odict_keys (columns csv)) = false ->
   odict_get sigmakey (columns csv) = None ->
   Vertical_init csv edges outvgtop pressurekey sigmakey csvvgtop
                 mk psfc prune = Raise (KeyError sigmakey))
  /\ (pressurekey ≠ "Pressure" ->
      odict_get "Pressure" (columns csv) = None ->
      (in_keys pressurekey (odict_keys (columns csv)) = false ->
       is_Some (odict_get sigmakey (columns csv))) ->
      Vertical_init csv edges outvgtop pressurekey sigmakey csvvgtop
                    mk psfc prune = Raise (AttributeError "Pressure")).
Proof.
  split.
  - intros Ek Hs. unfold Vertical_init, add_pressure. by rewrite Ek, Hs.
  - intros Hne Hp Hsig. unfold Vertical_init.
    destruct (in_keys pressurekey (odict_keys (columns csv))) eqn:Ek; simpl.
    + unfold interp_va. by rewrite Hp.
    + destruct (Hsig eq_refl) as [sigma Hs].
      unfold add_pressure. rewrite Hs. simpl. unfold interp_va. simpl.
      rewrite odict_get_set_ne by done. by rewrite Hp.
Qed.

End InitFacts.

(** ** allocate: the sectors it needs, and what it leaves of alloc_keys *)

Section AllocateFacts.
Context {num : Type} `{Arith num}.
Variable subset : File num -> option (list string) -> M num (File num).
Variable stack : File num -> list (File num) -> M num (File num).

Lemma allocate_eq self infile alloc_keys (h : heap num) :
  allocate subset stack self infile alloc_keys h
  = match lay_keys (variables infile) h with
    | (Raise e, h) => (Raise e, h, alloc_keys)
    | (Ok all_keys, h) =>
        match resolve_default all_keys (dict_of alloc_keys) with
        | Raise e => (Raise e, h, alloc_keys)
        | Ok d =>
            let '(r, h) :=
              mbind (allocate_sectors subset self infile d)
                    (stack_sectors stack) h in
            (r, h, match alloc_keys with
                   | SectorName s => SectorName s
                   | SectorMap _ => SectorMap d
                   end)
        end
    end.
Proof. reflexivity. Qed.

Lemma none_sectors_keys d sector : sector ∈ none_sectors d -> sector ∈ d.*1.
Proof.
  unfold none_sectors. intros Hin.
  apply list_elem_of_fmap in Hin as (c & -> & Hc).
  apply list_elem_of_In, filter_In in Hc as [Hc _].
  apply list_elem_of_fmap. exists c. split; [done|]. by apply list_elem_of_In.
Qed.

Lemma resolve_default_inv all_keys d d' :
  resolve_default all_keys d = Ok d' ->
  d' = d /\ length (none_sectors d) ≠ 1
  \/ exists sector varkeys,
       none_sectors d = [sector] /\ d' = odict_set sector (Some varkeys) d.
Proof.
  unfold resolve_default.
  pose proof (scan_sectors_spec d [] []) as [Hnone _].
  destruct (scan_sectors d [] []) as [assigned isnone]. simpl in Hnone.
  subst isnone.
  destruct (Nat.ltb_spec 1 (length (none_sectors d))); [done|].
  destruct (Nat.eqb_spec (length (none_sectors d)) 1) as [Hone|Hne].
  - intros [= <-]. right.
    destruct (none_sectors d) as [|sector [|? ?]]; try done.
    by exists sector, (set_difference all_keys assigned).
  - intros [= <-]. by left.
Qed.

Lemma resolve_default_keys all_keys d d' :
  resolve_default all_keys d = Ok d' -> d'.*1 = d.*1.
Proof.
  intros Hres. apply resolve_default_inv in Hres
    as [[-> _]|(sector & varkeys & Hone & ->)]; [done|].
  pose proof (odict_set_keys d sector (Some varkeys)) as Hk.
  unfold odict_keys in Hk. rewrite Hk.
  assert (Hin : in_keys sector d.*1 = true).
  { apply in_keys_true, none_sectors_keys. rewrite Hone. left. }
  by rewrite Hin.
Qed.

Lemma allocate_sectors_columns self infile d (h : heap num) files h' :
  allocate_sectors subset self infile d h = (Ok files, h') ->
  Forall (fun s => s ∈ odict_keys (columns (outdf self))) d.*1
  /\ length files = length d.
Proof.
  revert h files h'.
  induction d as [|[sector varkeys] d IH]; intros h files h' Hrun.
  { injection Hrun as <- _. by split. }
  cbn [allocate_sectors] in Hrun.
  destruct (odict_get sector (columns (outdf self))) as [lf|] eqn:Hcol;
    [|done].
  apply mbind_inv in Hrun as [(e & _ & [=])|(sub & h1 & _ & Hrun)].
  apply mbind_inv in Hrun as [(e & _ & [=])|(sectorfile & h2 & _ & Hrun)].
  apply mbind_inv in Hrun as [(e & _ & [=])|(rest & h3 & Hrest & Hrun)].
  injection Hrun as <- _.
  destruct (IH _ _ _ Hrest) as [Hall Hlen]. split.
  - rewrite fmap_cons. apply Forall_cons. split; [|done]. simpl.
    apply odict_get_Some_elem in Hcol. unfold odict_keys.
    apply list_elem_of_fmap. by exists (sector, lf).
  - simpl. by rewrite Hlen.
Qed.

(** X15. A call of [allocate] that returns a file was given at least one
    sector, and every sector it was given is a column of the resident
    profile. *)
Theorem allocate_needs_profile_columns
    (self : Vertical num) (infile : File num) (alloc_keys : alloc_arg)
    (h : heap num) (outfile : File num) (h' : heap num)
    (alloc_keys' : alloc_arg) :
  allocate subset stack self infile alloc_keys h
  = (Ok outfile, h', alloc_keys') ->
  sectors_of alloc_keys ≠ []
  /\ Forall (fun sector => sector ∈ odict_keys (columns (outdf self)))
            (sectors_of alloc_keys).
Proof.
  rewrite allocate_eq. unfold sectors_of.
  destruct (lay_keys (variables infile) h) as [[all_keys|e] h0];
    [|by intros [=]].
  destruct (resolve_default all_keys (dict_of alloc_keys)) as [d|e] eqn:Hres;
    [|by intros [=]].
  apply resolve_default_keys in Hres as <-.
  destruct (mbind _ _ h0) as [r h1] eqn:Hrun. intros [= -> <- _].
  apply mbind_inv in Hrun as [(e & _ & [=])|(files & h2 & Hsec & Hstack)].
  apply allocate_sectors_columns in Hsec as [Hall Hlen]. split; [|done].
  destruct d; [|done]. destruct files; [|done]. done.
Qed.

Lemma allocate_sectors_missing self infile sector varkeys d (h : heap num) :
  sector ∉ odict_keys (columns (outdf self)) ->
  allocate_sectors subset self infile ((sector, varkeys) :: d) h
  = (Raise (KeyError sector), h).
Proof.
  intros Hmiss. cbn [allocate_sectors]. by rewrite odict_get_None.
Qed.

(** X16. On an open input file: an empty dictionary makes [allocate] raise
    IndexError and leaves the store as it was; when the first sector is not
    a column of the resident profile (and at most one sector has [None]),
    [allocate] raises KeyError for that sector and leaves the store as it
    was. *)
Theorem allocate_rejects
    (self : Vertical num) (infile : File num) (h : heap num) :
  Forall (fun v : string * loc => is_Some (h !! v.2)) (variables infile) ->
  allocate subset stack self infile (SectorMap []) h
  = (Raise IndexError, h, SectorMap [])
  /\ forall alloc_keys sector,
       List.head (sectors_of alloc_keys) = Some sector ->
       length (none_sectors (dict_of alloc_keys)) <= 1 ->
       sector ∉ odict_keys (columns (outdf self)) ->
       (allocate subset stack self infile alloc_keys h).1
       = (Raise (KeyError sector), h).
Proof.
  intros Hrefs.
  destruct (lay_keys_run (variables infile) h Hrefs) as (all_keys & Hlay & _).
  split.
  - unfold allocate. by rewrite Hlay.
  - intros alloc_keys sector Hhd Hlen Hmiss.
    rewrite allocate_eq, Hlay.
    destruct (resolve_default all_keys (dict_of alloc_keys)) as [d|e] eqn:Hres.
    + pose proof (resolve_default_keys _ _ _ Hres) as Hkeys.
      unfold sectors_of in Hhd. rewrite <- Hkeys in Hhd.
      destruct d as [|[s v] d]; [done|]. injection Hhd as ->.
      unfold mbind. by rewrite allocate_sectors_missing.
    + exfalso. unfold resolve_default in Hres.
      pose proof (scan_sectors_spec (dict_of alloc_keys) [] []) as [Hnone _].
      destruct (scan_sectors (dict_of alloc_keys) [] []) as [assigned isnone].
      simpl in Hnone. subst isnone.
      destruct (Nat.ltb_spec 1 (length (none_sectors (dict_of alloc_keys))));
        [lia|].
      by destruct (Nat.eqb _ 1).
Qed.

(** X17. What a call of [allocate] leaves of the caller's dictionary: the
    sectors and their order stay, a sector that had a list keeps it, and
    unless exactly one sector has [None] the dictionary is unchanged, also
    when the call raises. *)
Theorem allocate_keeps_explicit_sectors
    (self : Vertical num) (infile : File num) (d : alloc_dict) (h : heap num) :
  NoDup d.*1 ->
  exists d',
    (allocate subset stack self infile (SectorMap d) h).2 = SectorMap d'
    /\ d'.*1 = d.*1
    /\ (forall sector, odict_get sector d ≠ Some None ->
          odict_get sector d' = odict_get sector d)
    /\ (length (none_sectors d) ≠ 1 -> d' = d).
Proof.
  intros Hnd. unfold allocate.
  destruct (lay_keys (variables infile) h) as [[all_keys|e] h0];
    [|by exists d].
  destruct (resolve_default all_keys d) as [d1|e] eqn:Hres; [|by exists d].
  exists d1. split; [by destruct (mbind _ _ h0)|].
  split; [by eapply resolve_default_keys|].
  apply resolve_default_inv in Hres
    as [[-> Hlen]|(sector & varkeys & Hone & ->)]; [done|].
  split.
  - intros s Hs. apply odict_get_set_ne. intros ->.
    by rewrite (none_sectors_lookup d sector Hnd Hone) in Hs.
  - intros Hlen. by rewrite Hone in Hlen.
Qed.

End AllocateFacts.

(** ** Exact arithmetic: np.interp on finite values *)

Lemma Qcleb_le a b : Qcleb a b = true <-> (a <= b)%Qc.
Proof.
  unfold Qcleb. rewrite Qcle_alt. destruct (a ?= b)%Qc; naive_solver.
Qed.

Lemma xq_le_Fin a b : xq_le (Fin a) (Fin b) = Qcleb a b.
Proof.
  unfold xq_le. simpl. unfold Qcltb, Qceqb, Qcleb.
  by destruct (a ?= b)%Qc.
Qed.

Lemma Qcltb_ge a b : Qcltb a b = false <-> (b <= a)%Qc.
Proof.
  split.
  - intros Hf. apply Qcnot_lt_le. intros Hlt%Qcltb_lt. congruence.
  - intros Hle. apply not_true_is_false. intros Hlt%Qcltb_lt.
    exact (Qclt_not_le _ _ Hlt Hle).
Qed.

Lemma Qcleb_gt a b : Qcleb a b = false <-> (b < a)%Qc.
Proof.
  split.
  - intros Hf. apply Qcnot_le_lt. intros Hle%Qcleb_le. congruence.
  - intros Hlt. apply not_true_is_false. intros Hle%Qcleb_le.
    exact (Qclt_not_le _ _ Hlt Hle).
Qed.

Lemma at_Fin (l : list Qc) j :
  j < length l -> at_ (map Fin l) j = Fin (List.nth j l 0%Qc).
Proof.
  intros Hj. unfold at_.
  rewrite (nth_indep _ nnan (Fin 0%Qc)) by (by rewrite length_map).
  apply (map_nth Fin).
Qed.

(** The index the search stops at: the values before it are at most the
    key, the value at it is above the key. *)
Lemma scan_Fin (x : Qc) (l : list Qc) :
  scan (Fin x) (map Fin l) <= length l
  /\ (forall i, i < scan (Fin x) (map Fin l) -> (List.nth i l 0 <= x)%Qc)
  /\ (scan (Fin x) (map Fin l) < length l ->
      (x < List.nth (scan (Fin x) (map Fin l)) l 0)%Qc).
Proof.
  induction l as [|a l (IH1 & IH2 & IH3)]; simpl.
  { split; [lia|]. split; intros; lia. }
  change (nle (Fin a) (Fin x)) with (xq_le (Fin a) (Fin x)).
  rewrite xq_le_Fin. destruct (Qcleb a x) eqn:E.
  - split; [lia|]. split.
    + intros [|i] Hi; [by apply Qcleb_le|]. apply IH2. lia.
    + intros Hlt. apply IH3. lia.
  - split; [lia|]. split; [intros; lia|]. intros _. by apply Qcleb_gt.
Qed.

Lemma Qcinv_nonneg (d : Qc) : (0 < d)%Qc -> (0 <= / d)%Qc.
Proof.
  intros Hd.
  assert (Hinv : (this (/ d)%Qc == / this d)%Q) by apply Qred_correct.
  unfold Qcle, Qclt in *. rewrite Hinv.
  apply Qinv_le_0_compat. by apply Qlt_le_weak.
Qed.

(** A value between two neighbours: [(b - a) / d * n + a] with
    [0 <= n < d] is at least 0 when [a] and [b] are. *)
Lemma Qc_between_nonneg (a b n d : Qc) :
  (0 <= a)%Qc -> (0 <= b)%Qc -> (0 <= n)%Qc -> (n < d)%Qc ->
  (0 <= (b - a) / d * n + a)%Qc.
Proof.
  intros Ha Hb Hn Hnd.
  assert (Hd : (0 < d)%Qc) by (eapply Qcle_lt_trans; eauto).
  pose proof (Qcinv_nonneg d Hd) as Hi.
  set (t := (n * / d)%Qc).
  assert (Ht0 : (0 <= t)%Qc).
  { unfold t. replace 0%Qc with (0 * / d)%Qc by ring.
    by apply Qcmult_le_compat_r. }
  assert (Ht1 : (t <= 1)%Qc).
  { unfold t. replace 1%Qc with (d * / d)%Qc.
    - apply Qcmult_le_compat_r; [by apply Qclt_le_weak|done].
    - apply Qcmult_inv_r. intros ->.
      exact (Qclt_not_le _ _ Hd (Qcle_refl 0)). }
  replace ((b - a) / d * n + a)%Qc with (a * (1 - t) + b * t)%Qc
    by (unfold t, Qcdiv; ring).
  replace 0%Qc with (0 + 0)%Qc by ring.
  apply Qcplus_le_compat.
  - replace 0%Qc with (0 * (1 - t))%Qc by ring.
    apply Qcmult_le_compat_r; [done|].
    apply Qcle_minus_iff in Ht1. by replace (1 - t)%Qc with (1 + - t)%Qc by ring.
  - replace 0%Qc with (0 * t)%Qc by ring. by apply Qcmult_le_compat_r.
Qed.

Lemma Qc_sub_pos (a b : Qc) : (a < b)%Qc -> (0 < b - a)%Qc.
Proof.
  intros Hlt. apply Qclt_minus_iff in Hlt.
  by replace (b - a)%Qc with (b + - a)%Qc by ring.
Qed.

Lemma Qc_sub_nonneg (a b : Qc) : (a <= b)%Qc -> (0 <= b - a)%Qc.
Proof.
  intros Hle. apply Qcle_minus_iff in Hle.
  by replace (b - a)%Qc with (b + - a)%Qc by ring.
Qed.

Lemma Qc_sub_lt (a b x : Qc) : (x < b)%Qc -> (x - a < b - a)%Qc.
Proof.
  intros Hlt. apply Qclt_minus_iff.
  replace (b - a + - (x - a))%Qc with (b + - x)%Qc by ring.
  by apply Qclt_minus_iff in Hlt.
Qed.

(** On finite values [np.interp] returns, at one point, the left fill value,
    the right fill value, or a value between two neighbouring entries of
    [fp]; which of them, and where between, depends on [xp] and the point
    only. *)
Lemma interp_point_Fin (xp : list Qc) (x : Qc) :
  xp ≠ [] ->
  (forall fp l r, length fp = length xp ->
     interp_point (map Fin xp) (map Fin fp) (Fin l) (Fin r) (Fin x) = Fin l)
  \/ (forall fp l r, length fp = length xp ->
        interp_point (map Fin xp) (map Fin fp) (Fin l) (Fin r) (Fin x) = Fin r)
  \/ exists j n d,
       (n = 0 \/ (0 <= n /\ n < d))%Qc
       /\ forall fp l r, length fp = length xp ->
            interp_point (map Fin xp) (map Fin fp) (Fin l) (Fin r) (Fin x)
            = Fin ((List.nth (S j) fp 0 - List.nth j fp 0) / d * n
                   + List.nth j fp 0)%Qc.
Proof.
  intros Hne.
  assert (Hnode : forall j (fp : list Qc), j < length fp ->
            at_ (map Fin fp) j
            = Fin ((List.nth (S j) fp 0 - List.nth j fp 0) / 1 * 0
                   + List.nth j fp 0)%Qc).
  { intros j fp Hj. rewrite at_Fin by done. f_equal. ring. }
  destruct xp as [|xp0 [|xp1 xp']]; [done| |].
  - cbn [map interp_point].
    change (nlt (Fin x) (Fin xp0)) with (Qcltb x xp0).
    change (nlt (Fin xp0) (Fin x)) with (Qcltb xp0 x).
    destruct (Qcltb x xp0); [by left|].
    destruct (Qcltb xp0 x); [by right; left|].
    right; right. exists 0, 0%Qc, 1%Qc. split; [by left|].
    intros fp l r Hlen. apply Hnode. simpl in Hlen. lia.
  - set (tail := xp1 :: xp').
    set (xs := xp0 :: tail).
    assert (Hip : forall fp l r,
              interp_point (map Fin xs) (map Fin fp) (Fin l) (Fin r) (Fin x)
              = match binary_search (Fin x) (map Fin xs) with
                | Below => Fin l
                | Above => Fin r
                | At j =>
                    if Nat.eqb j (length (map Fin xs) - 1)
                    then at_ (map Fin fp) j
                    else if neq (at_ (map Fin xs) j) (Fin x)
                    then at_ (map Fin fp) j
                    else
                      let slope :=
                        ndiv (nsub (at_ (map Fin fp) (S j)) (at_ (map Fin fp) j))
                             (nsub (at_ (map Fin xs) (S j)) (at_ (map Fin xs) j)) in
                      let r0 := nadd (nmul slope (nsub (Fin x) (at_ (map Fin xs) j)))
                                     (at_ (map Fin fp) j) in
                      if nisnan r0 then
                        let r' :=
                          nadd (nmul slope (nsub (Fin x) (at_ (map Fin xs) (S j))))
                               (at_ (map Fin fp) (S j)) in
                        if nisnan r' && neq (at_ (map Fin fp) j) (at_ (map Fin fp) (S j))
                        then at_ (map Fin fp) j
                        else r'
                      else r0
                end) by reflexivity.
    unfold binary_search in Hip.
    destruct (nlt (List.last (map Fin xs) nnan) (Fin x)).
    { right; left. intros. apply Hip. }
    destruct (nlt (Fin x) (List.hd nnan (map Fin xs))) eqn:Ebelow.
    { left. intros. apply Hip. }
    change (nlt (Fin x) (List.hd nnan (map Fin xs))) with (Qcltb x xp0) in Ebelow.
    apply Qcltb_ge in Ebelow.
    change (List.tl (map Fin xs)) with (map Fin tail) in Hip.
    destruct (scan_Fin x tail) as (Hj1 & Hj2 & Hj3).
    set (j := scan (Fin x) (map Fin tail)) in *.
    assert (Hlenxs : length (map Fin xs) - 1 = length tail).
    { rewrite length_map. unfold xs. simpl. lia. }
    rewrite Hlenxs in Hip.
    assert (Hlx : length xs = S (length tail)) by done.
    right; right.
    destruct (Nat.eqb_spec j (length tail)) as [Hlast|Hin].
    { exists j, 0%Qc, 1%Qc. split; [by left|]. intros fp l r Hlen.
      rewrite Hip. apply Hnode. lia. }
    assert (Hjlt : j < length tail) by lia.
    destruct (neq (at_ (map Fin xs) j) (Fin x)) eqn:Eeq.
    { exists j, 0%Qc, 1%Qc. split; [by left|]. intros fp l r Hlen.
      rewrite Hip. apply Hnode. lia. }
    assert (Hxj : (List.nth j xs 0 <= x)%Qc).
    { destruct j as [|j'] eqn:Ej; [done|]. unfold xs. simpl List.nth at 1.
      apply Hj2. lia. }
    assert (Hxj1 : (x < List.nth (S j) xs 0)%Qc) by (apply Hj3; lia).
    exists j, (x - List.nth j xs 0)%Qc, (List.nth (S j) xs 0 - List.nth j xs 0)%Qc.
    split.
    { right. split; [by apply Qc_sub_nonneg|by apply Qc_sub_lt]. }
    intros fp l r Hlen. rewrite Hip. clear Hip.
    rewrite !at_Fin by lia.
    cbn zeta.
    change (nsub (Fin ?a) (Fin ?b)) with (Fin (a - b)%Qc).
    set (d := (List.nth (S j) xs 0 - List.nth j xs 0)%Qc).
    assert (Hd : Qceqb d 0 = false).
    { apply Qceqb_neq. intros Hz. 
      assert (Hpos : (0 < d)%Qc).
      { apply Qc_sub_pos. eapply Qcle_lt_trans; eauto. }
      rewrite Hz in Hpos. exact (Qclt_not_le _ _ Hpos (Qcle_refl 0)). }
    unfold ndiv, nmul, nadd, nisnan. simpl. rewrite Hd. simpl. done.
Qed.

Lemma last_map_Fin (l : list Qc) : l ≠ [] -> List.last (map Fin l) nnan = Fin (List.last l 0%Qc).
Proof.
  induction l as [|a [|b l] IH]; [done|done|]. intros _.
  change (List.last (map Fin (a :: b :: l)) nnan)
    with (List.last (map Fin (b :: l)) nnan).
  change (List.last (a :: b :: l) 0%Qc) with (List.last (b :: l) 0%Qc).
  by apply IH.
Qed.

Lemma last_map_scale (c : Qc) (l : list Qc) :
  List.last (map (Qcmult c) l) 0%Qc = (c * List.last l 0)%Qc.
Proof.
  induction l as [|a [|b l] IH]; simpl; [ring|done|]. exact IH.
Qed.

Lemma nth_map_scale (c : Qc) (l : list Qc) j :
  List.nth j (map (Qcmult c) l) 0%Qc = (c * List.nth j l 0)%Qc.
Proof.
  replace 0%Qc with (c * 0)%Qc at 1 by ring. apply (map_nth (Qcmult c)).
Qed.

Lemma nth_nonneg (l : list Qc) j :
  Forall (fun q => 0 <= q)%Qc l -> (0 <= List.nth j l 0)%Qc.
Proof.
  intros Hall. destruct (Nat.lt_ge_cases j (length l)) as [Hj|Hj].
  - rewrite Forall_forall in Hall. apply Hall, list_elem_of_In.
    by apply nth_In.
  - rewrite nth_overflow by done. apply Qcle_refl.
Qed.

Lemma last_nonneg (l : list Qc) :
  Forall (fun q => 0 <= q)%Qc l -> (0 <= List.last l 0)%Qc.
Proof.
  induction l as [|a [|b l] IH]; intros Hall; simpl.
  - apply Qcle_refl.
  - by apply Forall_cons in Hall as [? _].
  - apply IH. by apply Forall_cons in Hall as [_ ?].
Qed.

(** One value of [np.interp(x, xp, fp, left=0)] on finite arrays: it is
    finite, not negative when [fp] is not, and linear in [fp]. *)
Lemma interp_point_exact (xp fs : list Qc) (x : Qc) :
  xp ≠ [] -> length fs = length xp ->
  exists v,
    interp_point (map Fin xp) (map Fin fs) (Fin 0)
                 (List.last (map Fin fs) nnan) (Fin x) = Fin v
    /\ (Forall (fun q => 0 <= q)%Qc fs -> (0 <= v)%Qc)
    /\ forall c,
         interp_point (map Fin xp) (map Fin (map (Qcmult c) fs)) (Fin 0)
                      (List.last (map Fin (map (Qcmult c) fs)) nnan) (Fin x)
         = Fin (c * v).
Proof.
  intros Hxp Hlen.
  assert (Hfs : fs ≠ []) by (intros ->; by destruct xp).
  assert (Hcfs : forall c, map (Qcmult c) fs ≠ []) by (intros c; by destruct fs).
  assert (Hclen : forall c, length (map (Qcmult c) fs) = length xp)
    by (intros; by rewrite length_map).
  rewrite last_map_Fin by done.
  destruct (interp_point_Fin xp x Hxp) as [Hl|[Hr|(j & n & d & Hnd & Hm)]].
  - exists 0%Qc. split; [by apply Hl|]. split; [intros; apply Qcle_refl|].
    intros c. rewrite last_map_Fin by done. rewrite Hl by done.
    f_equal. ring.
  - exists (List.last fs 0%Qc). split; [by apply Hr|].
    split; [apply last_nonneg|].
    intros c. rewrite last_map_Fin by done. rewrite Hr by done.
    by rewrite last_map_scale.
  - eexists. split; [by apply Hm|]. split.
    + intros Hall. destruct Hnd as [->|[Hn Hd]].
      * replace (_ / d * 0 + _)%Qc with (List.nth j fs 0%Qc) by ring.
        by apply nth_nonneg.
      * apply Qc_between_nonneg; try done; by apply nth_nonneg.
    + intros c. rewrite last_map_Fin by done. rewrite Hm by done.
      rewrite !nth_map_scale. f_equal. unfold Qcdiv. ring.
Qed.

Lemma normalize_Fin (t s : Qc) (ps : list Qc) :
  s ≠ t ->
  normalize (Fin t) (Fin s) (map Fin ps)
  = map Fin (map (fun p => (p - t) / (s - t))%Qc ps).
Proof.
  intros Hne. unfold normalize. rewrite !map_map. apply map_ext. intros p.
  change (nsub (Fin ?a) (Fin ?b)) with (Fin (a - b)%Qc).
  change (ndiv (Fin ?a) (Fin ?b))
    with (if Qceqb b 0 then (if Qceqb a 0 then NaN else xq_inf (Qcltb a 0))
          else Fin (a / b)%Qc).
  assert (Hd : Qceqb (s - t) 0 = false).
  { apply Qceqb_neq. intros Hz. apply Hne.
    replace s with (s - t + t)%Qc by ring. rewrite Hz. ring. }
  by rewrite Hd.
Qed.

Lemma orient_Fin b (l : list Qc) :
  orient b (map Fin l) = map Fin (if b then rev l else l).
Proof. unfold orient. destruct b; [by rewrite map_rev|done]. Qed.

(** The interpolated values of a finite column on a finite table. *)
Lemma interp_values_exact (es ps fs : list Qc) (t s : Qc) :
  ps ≠ [] -> length fs = length ps -> s ≠ t ->
  exists vs,
    interp_values (map Fin es) (Fin t) (Fin s) (map Fin ps) (map Fin fs)
    = map Fin vs
    /\ (Forall (fun q => 0 <= q)%Qc fs -> Forall (fun q => 0 <= q)%Qc vs)
    /\ forall c,
         interp_values (map Fin es) (Fin t) (Fin s) (map Fin ps)
                       (map Fin (map (Qcmult c) fs))
         = map Fin (map (Qcmult c) vs).
Proof.
  intros Hps Hlen Hst. unfold interp_values.
  rewrite normalize_Fin by done.
  set (qs := map (fun p => ((p - t) / (s - t))%Qc) ps).
  set (inv := inverted (map Fin qs)).
  rewrite !orient_Fin.
  set (xp := if inv then rev qs else qs).
  set (fs' := if inv then rev fs else fs).
  assert (Hxp : xp ≠ []).
  { unfold xp, qs. destruct inv, ps; try done.
    simpl. intros E. by apply app_eq_nil in E as [_ ?]. }
  assert (Hlen' : length fs' = length xp).
  { unfold fs', xp, qs. destruct inv; rewrite ?length_rev, ?length_map; done. }
  assert (Hscale : forall c, orient inv (map Fin (map (Qcmult c) fs))
                             = map Fin (map (Qcmult c) fs')).
  { intros c. rewrite orient_Fin. unfold fs'. destruct inv; [|done].
    f_equal. symmetry. apply map_rev. }
  assert (Hpos : Forall (fun q => 0 <= q)%Qc fs -> Forall (fun q => 0 <= q)%Qc fs').
  { unfold fs'. destruct inv; [|done]. intros Hall.
    apply Forall_forall. intros q Hq. rewrite Forall_forall in Hall.
    apply Hall. by rewrite list_elem_of_In, in_rev, <- list_elem_of_In. }
  setoid_rewrite Hscale. clearbody xp fs'. clear Hscale.
  replace (List.tl (map Fin es)) with (map Fin (List.tl es))
    by (by destruct es).
  change (@nzero xq _) with (Fin 0%Qc).
  induction (List.tl es) as [|x xs (vs & IH1 & IH2 & IH3)].
  - exists []. by repeat split.
  - destruct (interp_point_exact xp fs' x Hxp Hlen') as (v & Hv1 & Hv2 & Hv3).
    exists (v :: vs). cbn [map]. split; [by rewrite Hv1, IH1|]. split.
    + intros Hall. apply Forall_cons. split; [by apply Hv2, Hpos|by apply IH2].
    + intros c. by rewrite Hv3, IH3.
Qed.

Lemma Qcsum_nonneg (qs : list Qc) :
  Forall (fun q => 0 <= q)%Qc qs -> (0 <= Qcsum qs)%Qc.
Proof.
  induction 1 as [|q qs Hq _ IH]; simpl; [apply Qcle_refl|].
  replace 0%Qc with (0 + 0)%Qc by ring. by apply Qcplus_le_compat.
Qed.

Lemma Qcsum_bounds (qs : list Qc) :
  Forall (fun q => 0 <= q)%Qc qs -> Forall (fun q => q <= Qcsum qs)%Qc qs.
Proof.
  induction 1 as [|q qs Hq Hall IH]; simpl; [done|].
  pose proof (Qcsum_nonneg qs Hall) as Hs.
  apply Forall_cons. split.
  - replace q with (q + 0)%Qc at 1 by ring.
    apply Qcplus_le_compat; [apply Qcle_refl|done].
  - eapply Forall_impl; [exact IH|]. intros p Hp. simpl in Hp.
    replace p with (0 + p)%Qc by ring. by apply Qcplus_le_compat.
Qed.

Lemma Qcsum_zero (qs : list Qc) :
  Forall (fun q => 0 <= q)%Qc qs -> Qcsum qs = 0%Qc ->
  Forall (fun q => q = 0%Qc) qs.
Proof.
  intros Hall Hz. pose proof (Qcsum_bounds qs Hall) as Hb.
  rewrite Hz in Hb. rewrite Forall_forall in *.
  intros q Hq. apply Qcle_antisym; auto.
Qed.



Lemma Qcsum_scale (c : Qc) (qs : list Qc) :
  Qcsum (map (Qcmult c) qs) = (c * Qcsum qs)%Qc.
Proof.
  induction qs as [|q qs IH]; simpl; [ring|]. rewrite IH. ring.
Qed.

Lemma Qc_pos_nonzero (c : Qc) : (0 < c)%Qc -> c ≠ 0%Qc.
Proof. intros Hc ->. exact (Qclt_not_le _ _ Hc (Qcle_refl 0)). Qed.

Lemma Qceqb_scale (c v : Qc) : (0 < c)%Qc -> Qceqb (c * v) 0 = Qceqb v 0.
Proof.
  intros Hc. pose proof (Qc_pos_nonzero c Hc) as Hne.
  destruct (Qceqb v 0) eqn:E.
  - apply Qceqb_eq in E as ->. apply Qceqb_eq. ring.
  - apply Qceqb_neq in E. apply Qceqb_neq. intros Hz.
    apply Qcmult_integral in Hz as [?|?]; done.
Qed.

Lemma Qcltb_scale (c v : Qc) : (0 < c)%Qc -> Qcltb (c * v) 0 = Qcltb v 0.
Proof.
  intros Hc. destruct (Qcltb v 0) eqn:E.
  - apply Qcltb_lt in E. apply Qcltb_lt.
    replace 0%Qc with (0 * c)%Qc by ring. rewrite (Qcmult_comm c v).
    by apply Qcmult_lt_compat_r.
  - apply Qcltb_ge in E. apply Qcltb_ge.
    replace 0%Qc with (0 * c)%Qc by ring. rewrite (Qcmult_comm c v).
    apply Qcmult_le_compat_r; [done|by apply Qclt_le_weak].
Qed.

(** Renormalization forgets a positive factor. *)
Lemma renormalize_scale (c : Qc) (vs : list Qc) :
  (0 < c)%Qc ->
  renormalize (map Fin (map (Qcmult c) vs)) = renormalize (map Fin vs).
Proof.
  intros Hc. unfold renormalize. rewrite !nsum_Fin, Qcsum_scale, !map_map.
  apply map_ext. intros v.
  change (ndiv (Fin ?a) (Fin ?b))
    with (if Qceqb b 0 then (if Qceqb a 0 then NaN else xq_inf (Qcltb a 0))
          else Fin (a / b)%Qc).
  rewrite !Qceqb_scale, Qcltb_scale by done.
  destruct (Qceqb (Qcsum vs) 0) eqn:E; [done|].
  apply Qceqb_neq in E. f_equal. field.
  split; [done|by apply Qc_pos_nonzero].
Qed.

(** X4. Only the shape of a sector column counts: two tables with the same
    pressure column, one holding a column and the other the same column
    multiplied by a positive factor, give the same output column (exact
    arithmetic, finite values, the column not in [metakeys]). *)
Theorem interp_va_scale_invariant
    (df df' : DataFrame xq) (es ps fs : list Qc) (t s c : Qc)
    (metakeys : option (list string)) (key : string) :
  wf_table df (map Fin ps) ->
  wf_table df' (map Fin ps) ->
  (key, map Fin fs) ∈ columns df ->
  (key, map Fin (map (Qcmult c) fs)) ∈ columns df' ->
  in_keys key (default default_metakeys metakeys) = false ->
  key ≠ "Sigma" ->
  s ≠ t ->
  (0 < c)%Qc ->
  exists outdf outdf',
    interp_va df (map Fin es) (Fin t) (Fin s) metakeys = Ok outdf
    /\ interp_va df' (map Fin es) (Fin t) (Fin s) metakeys = Ok outdf'
    /\ odict_get key (columns outdf') = odict_get key (columns outdf).
Proof.
  intros Hwf Hwf' Hin Hin' Hmeta Hkey Hst Hc.
  destruct (interp_va_column df (map Fin es) (Fin t) (Fin s) metakeys
              (map Fin ps) key (map Fin fs) Hwf Hin Hkey)
    as (outdf & Hrun & Hcol).
  destruct (interp_va_column df' (map Fin es) (Fin t) (Fin s) metakeys
              (map Fin ps) key _ Hwf' Hin' Hkey)
    as (outdf' & Hrun' & Hcol').
  exists outdf, outdf'. split; [done|]. split; [done|].
  rewrite Hcol, Hcol'. f_equal. unfold out_column. cbn [fst snd].
  rewrite Hmeta.
  destruct Hwf as (_ & Hne & _ & Hlens).
  rewrite Forall_forall in Hlens. pose proof (Hlens _ Hin) as Hlen.
  cbn [snd] in Hlen. rewrite !length_map in Hlen.
  assert (Hps : ps ≠ []) by (intros ->; done).
  destruct (interp_values_exact es ps fs t s Hps Hlen Hst)
    as (vs & -> & _ & ->).
  by apply renormalize_scale.
Qed.

(** ** The pressure column *)

(** X5. The pressure column that [add_pressure] derives from sigma is
    normalized back to sigma by [interp_va] when both use the same top and
    surface pressure: [(sigma * (psfc - ptop) + ptop - ptop) / (psfc - ptop)]
    is [sigma] for finite values with [psfc <> ptop]. *)
Theorem pressure_round_trip
    (va_df : DataFrame xq) (sigmakey pressurekey : string) (sigma : list Qc)
    (ptop psfc : Qc) :
  odict_get sigmakey (columns va_df) = Some (map Fin sigma) ->
  psfc ≠ ptop ->
  exists outdf pressure,
    add_pressure va_df (Fin ptop) (Fin psfc) sigmakey pressurekey = Ok outdf
    /\ odict_get pressurekey (columns outdf) = Some pressure
    /\ normalize (Fin ptop) (Fin psfc) pressure = map Fin sigma.
Proof.
  intros Hs Hne. unfold add_pressure. rewrite Hs.
  eexists. eexists. split; [done|]. cbn [columns].
  split; [apply odict_get_set_eq|].
  rewrite map_map.
  change (fun x : Qc => nadd (nmul (Fin x) (nsub (Fin psfc) (Fin ptop))) (Fin ptop))
    with (fun x : Qc => Fin (x * (psfc - ptop) + ptop)%Qc).
  rewrite <- (map_map (fun x => (x * (psfc - ptop) + ptop)%Qc) Fin).
  rewrite normalize_Fin by done. f_equal. rewrite map_map.
  rewrite <- (map_id sigma) at 2. apply map_ext. intros q.
  field. intros Hz. apply Hne.
  replace psfc with (psfc - ptop + ptop)%Qc by ring. rewrite Hz. ring.
Qed.

(** ** Pruning *)

Lemma mask_select_map {A B} (f : A -> B) mask (a : list A) :
  mask_select mask (map f a) = map f (mask_select mask a).
Proof.
  revert a. induction mask as [|b mask IH]; intros [|v a]; simpl; try done.
  destruct b; simpl; by rewrite IH.
Qed.

Lemma map_Fin_inj (a b : list Qc) : map Fin a = map Fin b -> a = b.
Proof.
  revert b. induction a as [|x a IH]; intros [|y b]; simpl; try done.
  intros [= -> Hab]. f_equal. by apply IH.
Qed.

Lemma Qcsum_mask_select mask (qs : list Qc) :
  length qs <= length mask ->
  (forall i q, mask !! i = Some false -> qs !! i = Some q -> q = 0%Qc) ->
  Qcsum (mask_select mask qs) = Qcsum qs.
Proof.
  revert qs. induction mask as [|b mask IH]; intros [|q qs] Hlen Hz; simpl;
    try done.
  { simpl in Hlen. lia. }
  simpl in Hlen.
  assert (Hrest : Qcsum (mask_select mask qs) = Qcsum qs).
  { apply IH; [lia|]. intros i p Hm Hq. by apply (Hz (S i)). }
  destruct b; simpl; rewrite Hrest; [done|].
  rewrite (Hz 0 q); [ring|done|done].
Qed.

(** A row of non-negative finite values whose sum is not above 0 holds
    zeros only. *)
Lemma row_values_zero (df : DataFrame xq) i :
  (forall c, c ∈ columns df ->
     exists qs, c.2 = map Fin qs /\ Forall (fun q => 0 <= q)%Qc qs
                /\ i < length qs) ->
  nlt nzero (nsum (row_values df i)) = false ->
  forall key qs, (key, map Fin qs) ∈ columns df -> qs !! i = Some 0%Qc.
Proof.
  intros Hcols Hsum.
  assert (Hrow : exists rq,
            row_values df i = map Fin rq
            /\ Forall (fun q => 0 <= q)%Qc rq
            /\ forall key qs, (key, map Fin qs) ∈ columns df ->
                 exists q, qs !! i = Some q /\ q ∈ rq).
  { unfold row_values. induction (columns df) as [|c cols IH].
    - exists []. repeat split; [done|]. intros ? ? Hin.
      by apply elem_of_nil in Hin.
    - destruct IH as (rq & Hr & Hpos & Hmem).
      { intros c' Hc'. apply Hcols. by right. }
      destruct (Hcols c) as (qs & Hc & Hq & Hi); [by left|].
      destruct (lookup_lt_is_Some_2 qs i Hi) as [q Hqi].
      exists (q :: rq). split; [|split].
      + cbn [map]. rewrite Hr, Hc, at_Fin by done.
        by rewrite (nth_lookup_Some _ _ _ _ Hqi).
      + apply Forall_cons. split; [|done].
        rewrite Forall_lookup in Hq. by eapply Hq.
      + intros key qs' Hin. apply elem_of_cons in Hin as [<-|Hin].
        * simpl in Hc. apply map_Fin_inj in Hc as ->.
          exists q. split; [done|left].
        * destruct (Hmem key qs' Hin) as (q' & ? & ?). exists q'.
          split; [done|by right]. }
  destruct Hrow as (rq & Hr & Hpos & Hmem).
  rewrite Hr, nsum_Fin in Hsum.
  change (nlt nzero (Fin (Qcsum rq))) with (Qcltb 0 (Qcsum rq)) in Hsum.
  apply Qcltb_ge in Hsum.
  assert (Hz : Qcsum rq = 0%Qc).
  { apply Qcle_antisym; [done|by apply Qcsum_nonneg]. }
  pose proof (Qcsum_zero rq Hpos Hz) as Hall. rewrite Forall_forall in Hall.
  intros key qs Hin. destruct (Hmem key qs Hin) as (q & Hq & Hqin).
  by rewrite <- (Hall q Hqin).
Qed.

(** X13. Pruning removes no mass: when the entries of the columns outside
    [metakeys] of the interpolated table are finite and not negative, every
    such column has the same sum in the resident profile as before the rows
    were selected (exact arithmetic). *)
Theorem prune_keeps_column_sums
    (csv : DataFrame xq) (edges : list xq) (outvgtop : xq)
    (pressurekey sigmakey : string) (csvvgtop : xq)
    (mk : option (list string)) (psfc : xq) (prune : bool)
    (self : Vertical xq) (interp : DataFrame xq) :
  Vertical_init csv edges outvgtop pressurekey sigmakey csvvgtop
                mk psfc prune = Ok self ->
  interp_va (indf self) (List.tl edges) outvgtop psfc
            (Some (metakeys self)) = Ok interp ->
  (forall key col,
     (key, col) ∈ columns (candidate_rows interp) ->
     in_keys key (metakeys self) = false ->
     exists qs, col = map Fin qs /\ Forall (fun q => 0 <= q)%Qc qs) ->
  exists mask,
    outdf self = loc_mask mask (candidate_rows interp)
    /\ forall key col,
         (key, col) ∈ columns (candidate_rows interp) ->
         in_keys key (metakeys self) = false ->
         nsum (mask_select mask col) = nsum col.
Proof.
  intros Hinit Hva Hfin.
  apply Vertical_init_inv in Hinit as (_ & interp' & mask & Hva' & Hused & Hout).
  assert (interp' = interp) as -> by congruence.
  exists mask. split; [done|].
  pose proof (interp_va_index _ _ _ _ _ _ Hva) as Hidx.
  pose proof (interp_va_rectangular _ _ _ _ _ _ Hva) as Hrect.
  pose proof (candidate_rows_rectangular _ _ Hidx Hrect) as Hcrect.
  pose proof Hused as Hused'. unfold layerused in Hused'.
  apply rbind_Ok in Hused' as (dropped & Hdrop & _).
  destruct (layerused_lookup _ _ _ _ _ Hdrop Hused) as [Hml Hmask].
  assert (Hdcols : columns dropped
                   = List.filter (fun c : string * list xq =>
                                    negb (in_keys c.1 (metakeys self)))
                                 (columns (candidate_rows interp))).
  { unfold drop_columns in Hdrop. destruct (List.find _ _); [done|].
    by injection Hdrop as <-. }
  unfold rectangular in Hcrect. rewrite Forall_forall in Hcrect.
  intros key col Hin Hmeta.
  destruct (Hfin key col Hin Hmeta) as (qs & -> & Hpos).
  rewrite mask_select_map, !nsum_Fin. f_equal.
  pose proof (Hcrect _ Hin) as Hlen. cbn [snd] in Hlen.
  rewrite length_map in Hlen.
  apply Qcsum_mask_select; [lia|].
  intros i q Hmi Hqi.
  assert (Hi : i < nrows (candidate_rows interp)).
  { rewrite <- Hlen. by eapply lookup_lt_Some. }
  rewrite Hmask in Hmi by done.
  injection Hmi as Hmi. apply orb_false_elim in Hmi as [_ Hsum].
  assert (Hzero : qs !! i = Some 0%Qc).
  { apply (row_values_zero dropped i) with (key := key); [|done|].
    - intros c Hc. rewrite Hdcols in Hc.
      apply list_elem_of_In, filter_In in Hc as [Hc Hm].
      apply list_elem_of_In in Hc. destruct c as [k0 c0].
      destruct (Hfin k0 c0 Hc) as (qs0 & -> & Hpos0).
      { simpl in Hm. by destruct (in_keys k0 (metakeys self)). }
      exists qs0. split; [done|]. split; [done|].
      pose proof (Hcrect _ Hc) as Hl0. cbn [snd] in Hl0.
      rewrite length_map in Hl0. lia.
    - rewrite Hdcols. apply list_elem_of_In, filter_In. split.
      + by apply list_elem_of_In.
      + simpl. by rewrite Hmeta. }
  congruence.
Qed.

(** ** A sector without values removes the layers of all sectors *)

Lemma foldl_add_NaN (l : list xq) : foldl xq_add NaN l = NaN.
Proof. induction l as [|a l IH]; simpl; [done|exact IH]. Qed.

Lemma foldl_add_NaN_elem (a : xq) (l : list xq) :
  NaN ∈ l -> foldl xq_add a l = NaN.
Proof.
  revert a. induction l as [|b l IH]; intros a Hin.
  { by apply elem_of_nil in Hin. }
  simpl. apply elem_of_cons in Hin as [<-|Hin].
  - replace (xq_add a NaN) with NaN by (by destruct a). apply foldl_add_NaN.
  - by apply IH.
Qed.

Lemma nsum_NaN (l : list xq) : NaN ∈ l -> nsum l = NaN.
Proof.
  destruct l as [|a l]; intros Hin; [by apply elem_of_nil in Hin|].
  simpl. apply elem_of_cons in Hin as [<-|Hin].
  - apply foldl_add_NaN.
  - by apply foldl_add_NaN_elem.
Qed.

(** X14. NaN in one sector removes the row for all sectors: with pruning,
    a row other than the first in which a column outside [metakeys] of the
    interpolated table holds NaN is not in the resident profile (exact
    arithmetic). *)
Theorem nan_sector_prunes_rows
    (csv : DataFrame xq) (edges : list xq) (outvgtop : xq)
    (pressurekey sigmakey : string) (csvvgtop : xq)
    (mk : option (list string)) (psfc : xq)
    (self : Vertical xq) (interp : DataFrame xq)
    (key : string) (col : list xq) (i : nat) :
  Vertical_init csv edges outvgtop pressurekey sigmakey csvvgtop
                mk psfc true = Ok self ->
  interp_va (indf self) (List.tl edges) outvgtop psfc
            (Some (metakeys self)) = Ok interp ->
  (key, col) ∈ columns (candidate_rows interp) ->
  in_keys key (metakeys self) = false ->
  col !! i = Some NaN ->
  i ≠ 0 ->
  i ∉ index (outdf self).
Proof.
  intros Hinit Hva Hin Hmeta Hnan Hi0.
  apply Vertical_init_inv in Hinit as (_ & interp' & mask & Hva' & Hused & ->).
  assert (interp' = interp) as -> by congruence.
  pose proof (interp_va_index _ _ _ _ _ _ Hva) as Hidx.
  pose proof (interp_va_rectangular _ _ _ _ _ _ Hva) as Hrect.
  pose proof (candidate_rows_rectangular _ _ Hidx Hrect) as Hcrect.
  destruct (candidate_rows_index _ _ Hidx) as [Hcidx _].
  pose proof Hused as Hused'. unfold layerused in Hused'.
  apply rbind_Ok in Hused' as (dropped & Hdrop & _).
  destruct (layerused_lookup _ _ _ _ _ Hdrop Hused) as [Hml Hmask].
  unfold loc_mask. cbn [index]. rewrite Hcidx.
  rewrite elem_of_mask_select_seq by done.
  intros [[_ Hlt] Htrue]. rewrite Nat.sub_0_r in Htrue.
  rewrite Hmask in Htrue by lia. injection Htrue as Htrue.
  destruct (Nat.eqb_spec i 0) as [?|_]; [done|]. simpl in Htrue.
  rewrite nsum_NaN in Htrue; [done|].
  unfold row_values. apply list_elem_of_fmap. exists (key, col). split.
  - simpl. unfold at_. symmetry. by apply nth_lookup_Some.
  - unfold drop_columns in Hdrop. destruct (List.find _ _); [done|].
    injection Hdrop as <-. simpl.
    apply list_elem_of_In, filter_In. split; [by apply list_elem_of_In|].
    simpl. by rewrite Hmeta.
Qed.

(** ** The properties on the concrete inputs *)

Lemma is_weight_spec (col : list xq) :
  forallb is_weight col = true ->
  exists qs, col = map Fin qs /\ Forall (fun q => 0 <= q)%Qc qs.
Proof.
  induction col as [|a col IH]; simpl.
  { exists []. by split. }
  intros [Ha Hc]%andb_true_iff. destruct (IH Hc) as (qs & -> & Hqs).
  destruct a as [q| | |]; try done. exists (q :: qs). split; [done|].
  apply Forall_cons. split; [by apply Qcleb_le|done].
Qed.

Lemma sector_weights_spec (cols : list (string * list xq)) mk :
  forallb (fun c : string * list xq =>
             in_keys c.1 mk || forallb is_weight c.2) cols = true ->
  forall key col, (key, col) ∈ cols -> in_keys key mk = false ->
    exists qs, col = map Fin qs /\ Forall (fun q => 0 <= q)%Qc qs.
Proof.
  intros Hall key col Hin Hmeta. rewrite forallb_forall in Hall.
  apply list_elem_of_In in Hin. specialize (Hall _ Hin). simpl in Hall.
  rewrite Hmeta in Hall. by apply is_weight_spec.
Qed.

Lemma Qc_neq (a b : Qc) : Qceqb a b = false -> a ≠ b.
Proof. apply Qceqb_neq. Qed.


Lemma interp_va_outcomes_witness :
  exists outdf,
    interp_va table3 edges3 (qc 0 1) (qc 1 1) None = Ok outdf
    /\ index outdf = seq 0 (length edges3 - 1)
    /\ rectangular outdf
    /\ odict_get "Sigma" (columns outdf) = Some (List.tl edges3)
    /\ odict_keys (columns outdf) = odict_keys (columns table3).
Proof.
  apply (interp_va_outcomes table3 edges3 (qc 0 1) (qc 1 1) None).
  - apply (bool_decide_unpack _). vm_compute. exact I.
  - repeat constructor.
Defined.


Lemma make3d_raises_without_layers_witness :
  (make3d field_nolay [qc 1 1] [qc 1 1; qc 0 1] store_nolay).1
  = Raise IndexError.
Proof.
  apply (make3d_raises_without_layers field_nolay [qc 1 1] [qc 1 1; qc 0 1]
           store_nolay "NOX" 1%positive [[]]).
  - repeat constructor; eexists; reflexivity.
  - done.
  - left.
  - reflexivity.
  - left.
Defined.

Lemma dfmake3d_grid_matches_layers_witness :
  dfmake3d field2 sectors3 "onroad" "Sigma" store2
  = make3d field2 [qc 1 1; qc 0 1; qc 0 1]
           (none :: [qc 1 1; qc 1 2; qc 0 1]) store2
  /\ forall outfile h',
       dfmake3d field2 sectors3 "onroad" "Sigma" store2 = (Ok outfile, h') ->
       NLAYS outfile = Some (nrows sectors3)
       /\ VGLVLS outfile
          = Some (to_single none :: map to_single [qc 1 1; qc 1 2; qc 0 1])
       /\ length <$> VGLVLS outfile = Some (nrows sectors3 + 1)
       /\ has_layers h' (nrows sectors3) outfile.
Proof.
  apply (dfmake3d_grid_matches_layers field2 sectors3 "onroad" "Sigma" store2).
  repeat constructor.
Defined.

Lemma init_profile_layers_witness :
  exists self : Vertical xq,
    Vertical_init sectors3 edges5 (qc 0 1) "Pressure" "Sigma" (qc 0 1) None
                  (qc 1 1) true = Ok self
    /\ exists sigma,
         odict_get "Sigma" (columns (outdf self)) = Some sigma
         /\ sublist sigma (List.tl (List.tl edges5))
         /\ nrows (outdf self) = length sigma
         /\ 1 <= nrows (outdf self) <= length edges5 - 2
         /\ (true = false -> sigma = List.tl (List.tl edges5)).
Proof.
  eexists. split; [vm_compute; reflexivity|].
  eapply (init_profile_layers sectors3 edges5 (qc 0 1) "Pressure" "Sigma"
            (qc 0 1) None (qc 1 1) true).
  - vm_compute. reflexivity.
  - simpl. lia.
Defined.

Lemma init_requires_metakey_columns_witness :
  exists k',
    Vertical_init profile_only3 edges5 (qc 0 1) "Pressure" "Sigma" (qc 0 1)
                  None (qc 1 1) true = Raise (KeyError k')
    /\ k' ∈ ["Sigma"; "Pressure"; "Alt"; "L"]
    /\ k' ∉ odict_keys (columns profile_only3).
Proof.
  apply (init_requires_metakey_columns profile_only3 edges5 (qc 0 1)
           "Pressure" "Sigma" (qc 0 1) None (qc 1 1) true "Alt").
  - apply (bool_decide_unpack _). vm_compute. exact I.
  - repeat constructor.
  - done.
  - intros Hk. vm_compute in Hk. discriminate.
  - by left.
  - simpl. do 2 right. left.
  - apply (bool_decide_unpack _). vm_compute. exact I.
  - done.
  - done.
  - done.
  - simpl. lia.
Defined.

Lemma init_reads_the_Pressure_column_witness :
  Vertical_init surface3_f64 [1; 0.5; 0]%float 0%float "Pressure" "SigmaTop"
                0%float None 1%float true = Raise (KeyError "SigmaTop")
  /\ Vertical_init surface3_f64 [1; 0.5; 0]%float 0%float "P" "Sigma"
                   0%float None 1%float true
     = Raise (AttributeError "Pressure").
Proof.
  split.
  - apply (init_reads_the_Pressure_column surface3_f64 [1; 0.5; 0]%float
             0%float "Pressure" "SigmaTop" 0%float None 1%float true);
      reflexivity.
  - apply (init_reads_the_Pressure_column surface3_f64 [1; 0.5; 0]%float
             0%float "P" "Sigma" 0%float None 1%float true).
    + done.
    + reflexivity.
    + intros _. by eexists.
Defined.

Lemma allocate_needs_profile_columns_witness :
  exists self : Vertical xq,
    Vertical_init sectors3 edges5 (qc 0 1) "Pressure" "Sigma" (qc 0 1) None
                  (qc 1 1) true = Ok self
    /\ let run := allocate pnc_subset pnc_stack self field2
                           (SectorName "onroad") store2 in
       is_ok run.1.1 = true
       /\ sectors_of (SectorName "onroad") ≠ []
       /\ Forall (fun sector => sector ∈ odict_keys (columns (outdf self)))
                 (sectors_of (SectorName "onroad")).
Proof.
  eexists. split; [vm_compute; reflexivity|].
  intros run.
  assert (Hok : is_ok run.1.1 = true) by (vm_compute; reflexivity).
  split; [exact Hok|].
  eapply (allocate_needs_profile_columns pnc_subset pnc_stack _ field2
            (SectorName "onroad") store2
            (returned field2 run.1.1) run.1.2 run.2).
  exact (run_returned run field2 Hok).
Defined.

Lemma allocate_rejects_witness :
  exists self : Vertical xq,
    Vertical_init sectors3 edges5 (qc 0 1) "Pressure" "Sigma" (qc 0 1) None
                  (qc 1 1) true = Ok self
    /\ allocate pnc_subset pnc_stack self field2 (SectorMap []) store2
       = (Raise IndexError, store2, SectorMap [])
    /\ (allocate pnc_subset pnc_stack self field2 (SectorName "nonroad")
                 store2).1
       = (Raise (KeyError "nonroad"), store2).
Proof.
  eexists. split; [vm_compute; reflexivity|].
  destruct (allocate_rejects pnc_subset pnc_stack
              (returned {| pressurekey := ""; sigmakey := ""; outvglvls := [];
                           outvgtop := nzero; psfc := nzero;
                           indf := sectors3; metakeys := [];
                           outdf := sectors3 |}
                 (Vertical_init sectors3 edges5 (qc 0 1) "Pressure" "Sigma"
                    (qc 0 1) None (qc 1 1) true))
              field2 store2 field2_refs) as [Hempty Hmiss].
  split; [exact Hempty|].
  apply (Hmiss (SectorName "nonroad") "nonroad").
  - reflexivity.
  - simpl. lia.
  - apply (bool_decide_unpack _). vm_compute. exact I.
Defined.

Lemma allocate_keeps_explicit_sectors_witness :
  exists self : Vertical xq,
    Vertical_init sectors3 edges5 (qc 0 1) "Pressure" "Sigma" (qc 0 1) None
                  (qc 1 1) true = Ok self
    /\ exists d',
         (allocate pnc_subset pnc_stack self field2 (SectorMap onroad_other)
                   store2).2 = SectorMap d'
         /\ d'.*1 = onroad_other.*1
         /\ (forall sector, odict_get sector onroad_other ≠ Some None ->
               odict_get sector d' = odict_get sector onroad_other)
         /\ (length (none_sectors onroad_other) ≠ 1 -> d' = onroad_other).
Proof.
  eexists. split; [vm_compute; reflexivity|].
  apply (allocate_keeps_explicit_sectors pnc_subset pnc_stack).
  apply (bool_decide_unpack _). vm_compute. exact I.
Defined.

Lemma pressure_round_trip_witness :
  exists outdf pressure,
    add_pressure sectors3 (qc 5000 1) (qc 101325 1) "Sigma" "Pressure"
    = Ok outdf
    /\ odict_get "Pressure" (columns outdf) = Some pressure
    /\ normalize (qc 5000 1) (qc 101325 1) pressure
       = [qc 1 1; qc 1 2; qc 0 1].
Proof.
  apply (pressure_round_trip sectors3 "Sigma" "Pressure"
           [Q2Qc 1; Q2Qc (1 # 2); Q2Qc 0] (Q2Qc 5000) (Q2Qc 101325)).
  - reflexivity.
  - apply Qc_neq. vm_compute. reflexivity.
Defined.


Lemma wf_table3_doubled : wf_table table3_doubled pressure3.
Proof.
  split; [reflexivity|]. split; [done|]. split.
  - apply (bool_decide_unpack _). vm_compute. exact I.
  - repeat constructor.
Qed.

Lemma interp_va_scale_invariant_witness :
  exists outdf outdf',
    interp_va table3 edges3 (qc 0 1) (qc 1 1) None = Ok outdf
    /\ interp_va table3_doubled edges3 (qc 0 1) (qc 1 1) None = Ok outdf'
    /\ odict_get "S" (columns outdf') = odict_get "S" (columns outdf).
Proof.
  apply (interp_va_scale_invariant table3 table3_doubled
           [Q2Qc 1; Q2Qc (1 # 2); Q2Qc 0]
           [Q2Qc 1; Q2Qc (1 # 2); Q2Qc 0]
           [Q2Qc (1 # 4); Q2Qc (1 # 4); Q2Qc (1 # 2)]
           (Q2Qc 0) (Q2Qc 1) (Q2Qc 2) None "S").
  - exact wf_table3.
  - exact wf_table3_doubled.
  - unfold table3. simpl. do 4 right. left.
  - unfold table3_doubled. simpl. do 4 right. left.
  - reflexivity.
  - done.
  - apply Qc_neq. vm_compute. reflexivity.
  - apply Qcltb_lt. vm_compute. reflexivity.
Defined.

Lemma prune_keeps_column_sums_witness :
  exists (self : Vertical xq) (interp : DataFrame xq),
    Vertical_init sectors3 edges5 (qc 0 1) "Pressure" "Sigma" (qc 0 1) None
                  (qc 1 1) true = Ok self
    /\ interp_va (indf self) (List.tl edges5) (qc 0 1) (qc 1 1)
                 (Some (metakeys self)) = Ok interp
    /\ exists mask,
         outdf self = loc_mask mask (candidate_rows interp)
         /\ forall key col,
              (key, col) ∈ columns (candidate_rows interp) ->
              in_keys key (metakeys self) = false ->
              nsum (mask_select mask col) = nsum col.
Proof.
  eexists. eexists. split; [vm_compute; reflexivity|].
  split; [vm_compute; reflexivity|].
  eapply (prune_keeps_column_sums sectors3 edges5 (qc 0 1) "Pressure" "Sigma"
            (qc 0 1) None (qc 1 1) true).
  - vm_compute. reflexivity.
  - vm_compute. reflexivity.
  - apply sector_weights_spec. vm_compute. reflexivity.
Defined.

Lemma nan_sector_prunes_rows_witness :
  exists (self : Vertical xq) (interp : DataFrame xq),
    Vertical_init table3 edges5 (qc 0 1) "Pressure" "Sigma" (qc 0 1) None
                  (qc 1 1) true = Ok self
    /\ interp_va (indf self) (List.tl edges5) (qc 0 1) (qc 1 1)
                 (Some (metakeys self)) = Ok interp
    /\ 1 ∉ index (outdf self).
Proof.
  eexists. eexists. split; [vm_compute; reflexivity|].
  split; [vm_compute; reflexivity|].
  eapply (nan_sector_prunes_rows table3 edges5 (qc 0 1) "Pressure" "Sigma"
            (qc 0 1) None (qc 1 1) _ _ "Z" [NaN; NaN; NaN] 1).
  - vm_compute. reflexivity.
  - vm_compute. reflexivity.
  - apply list_elem_of_In. vm_compute. do 5 right. left. reflexivity.
  - reflexivity.
  - reflexivity.
  - done.
Defined.

